(** * Word of Wisdom: proof-of-work engine, rate limiter and connection handler

  A shallow embedding of the Go packages [pow], [ratelimit] and [server]
  of the word-of-wisdom TCP service, and the properties its specification
  states about them.

  Conventions.
  - Go's [int] and [int64] are 64-bit two's-complement integers; they are
    carried by [Z], and every addition, subtraction and multiplication the
    code performs is wrapped ([GoInt.wrap]).
  - Go strings are byte strings; they are Rocq [string]s, and
    [[]byte(s)] is [list_byte_of_string s].
  - [time.Now()] is an explicit argument of every function that reads the
    clock.
  - [crypto/sha256.Sum256] is a parameter of the proof-of-work section; the
    module [SHA256] implements FIPS 180-4 so that the engine can be run.
  - [float64] is an interface ([Float64]); the limiter's properties are
    proved on its instance [IEEE.binary64], IEEE-754 binary64 with
    round-to-nearest-even as [Floats.SpecFloat] specifies it, each
    operation rounded on its own. *)

From Stdlib Require Import ZArith Lia List Bool.
From Stdlib Require Import Strings.Byte Strings.Ascii Strings.String.
From Stdlib Require Import QArith Qcanon.
From Stdlib Require Floats.SpecFloat.
From stdpp Require Import base option list strings pretty gmap fin_maps.

Local Open Scope Z_scope.

(** ** Go machine integers *)

Module GoInt.

Definition int_min : Z := - 2 ^ 63.
Definition int_max : Z := 2 ^ 63 - 1.

(** A value of Go type [int] (or [int64]). *)
Definition in_int (z : Z) : Prop := int_min <= z <= int_max.

(** Two's-complement wrap-around of a mathematical integer. *)
Definition wrap (z : Z) : Z := (z + 2 ^ 63) mod 2 ^ 64 - 2 ^ 63.

(** [a + b] on [int] / [int64]. *)
Definition add (a b : Z) : Z := wrap (a + b).

(** [a - b] on [int] / [int64]. *)
Definition sub (a b : Z) : Z := wrap (a - b).

(** [a * b] on [int] / [int64]. *)
Definition mul (a b : Z) : Z := wrap (a * b).

End GoInt.

(** ** SHA-256 (FIPS 180-4), the function behind [sha256.Sum256] *)

Module SHA256.

Definition w32 (x : Z) : Z := x mod 2 ^ 32.

Definition rotr (n x : Z) : Z :=
  w32 (Z.lor (Z.shiftr x n) (Z.shiftl x (32 - n))).

Definition Ch (x y z : Z) : Z :=
  Z.lxor (Z.land x y) (Z.land (Z.lxor x (Z.ones 32)) z).

Definition Maj (x y z : Z) : Z :=
  Z.lxor (Z.lxor (Z.land x y) (Z.land x z)) (Z.land y z).

Definition Sigma0 (x : Z) : Z := Z.lxor (Z.lxor (rotr 2 x) (rotr 13 x)) (rotr 22 x).
Definition Sigma1 (x : Z) : Z := Z.lxor (Z.lxor (rotr 6 x) (rotr 11 x)) (rotr 25 x).
Definition sigma0 (x : Z) : Z := Z.lxor (Z.lxor (rotr 7 x) (rotr 18 x)) (Z.shiftr x 3).
Definition sigma1 (x : Z) : Z := Z.lxor (Z.lxor (rotr 17 x) (rotr 19 x)) (Z.shiftr x 10).

(** The primes below [n], by trial division. *)
Definition primes_below (n : nat) : list Z :=
  filter (fun p => forallb (fun d => negb (p mod d =? 0))
                     (map Z.of_nat (seq 2 (Z.to_nat p - 2))))
         (map Z.of_nat (seq 2 (n - 2))).

(** The integer cube root of [n], bit by bit from bit [bits - 1] down. *)
Fixpoint cube_root (bits : nat) (n r : Z) : Z :=
  match bits with
  | O => r
  | S b =>
      let r' := r + 2 ^ Z.of_nat b in
      if r' * r' * r' <=? n then cube_root b n r' else cube_root b n r
  end.

(** The round constants: the first 32 bits of the fractional parts of the
    cube roots of the first 64 primes. *)
Definition K : list Z :=
  Eval vm_compute in
    map (fun p => w32 (cube_root 40 (p * 2 ^ 96) 0)) (primes_below 312).

(** The initial hash value: the first 32 bits of the fractional parts of
    the square roots of the first 8 primes. *)
Definition H0 : list Z :=
  Eval vm_compute in
    map (fun p => w32 (Z.sqrt (p * 2 ^ 64))) (primes_below 20).

Definition byte_val (b : byte) : Z := Z.of_N (Byte.to_N b).

Definition byte_of_Z (z : Z) : byte :=
  match Byte.of_N (Z.to_N (z mod 256)) with
  | Some b => b
  | None => x00
  end.

(** Big-endian encoding of [x] on [n] bytes. *)
Fixpoint be_bytes (n : nat) (x : Z) : list Z :=
  match n with
  | O => []
  | S k => (Z.shiftr x (8 * Z.of_nat k)) mod 256 :: be_bytes k x
  end.

(** The message followed by the bit 1, zero bits up to 56 mod 64 bytes,
    and the message length in bits on 64 bits. *)
Definition pad (msg : list Z) : list Z :=
  let len := Z.of_nat (length msg) in
  let zeros := Z.to_nat ((55 - len) mod 64) in
  msg ++ [0x80] ++ repeat 0 zeros ++ be_bytes 8 (8 * len).

(** Big-endian 32-bit words of a byte sequence whose length is a multiple
    of four. *)
Fixpoint words (bs : list Z) : list Z :=
  match bs with
  | b0 :: b1 :: b2 :: b3 :: rest =>
      (Z.shiftl b0 24 + Z.shiftl b1 16 + Z.shiftl b2 8 + b3) :: words rest
  | _ => []
  end.

(** Message schedule; [r] holds the words computed so far, latest first. *)
Fixpoint schedule (n : nat) (r : list Z) : list Z :=
  match n with
  | O => r
  | S k =>
      let w := w32 (sigma1 (nth 1 r 0) + nth 6 r 0 + sigma0 (nth 14 r 0) + nth 15 r 0) in
      schedule k (w :: r)
  end.

Record regs := Regs { ra : Z; rb : Z; rc : Z; rd : Z; re : Z; rf : Z; rg : Z; rh : Z }.

Definition round (s : regs) (kw : Z * Z) : regs :=
  let t1 := w32 (rh s + Sigma1 (re s) + Ch (re s) (rf s) (rg s) + fst kw + snd kw) in
  let t2 := w32 (Sigma0 (ra s) + Maj (ra s) (rb s) (rc s)) in
  Regs (w32 (t1 + t2)) (ra s) (rb s) (rc s) (w32 (rd s + t1)) (re s) (rf s) (rg s).

Definition regs_of (h : list Z) : regs :=
  Regs (nth 0 h 0) (nth 1 h 0) (nth 2 h 0) (nth 3 h 0)
       (nth 4 h 0) (nth 5 h 0) (nth 6 h 0) (nth 7 h 0).

Definition compress (h : list Z) (block : list Z) : list Z :=
  let w := rev (schedule 48 (rev (words block))) in
  let s := fold_left round (combine K w) (regs_of h) in
  [ w32 (nth 0 h 0 + ra s); w32 (nth 1 h 0 + rb s); w32 (nth 2 h 0 + rc s);
    w32 (nth 3 h 0 + rd s); w32 (nth 4 h 0 + re s); w32 (nth 5 h 0 + rf s);
    w32 (nth 6 h 0 + rg s); w32 (nth 7 h 0 + rh s) ].

(** Compression over the 64-byte blocks of a padded message. *)
Fixpoint blocks (n : nat) (h : list Z) (bs : list Z) : list Z :=
  match n with
  | O => h
  | S k => blocks k (compress h (firstn 64 bs)) (skipn 64 bs)
  end.

Definition Sum256 (msg : list byte) : list byte :=
  let p := pad (map byte_val msg) in
  let h := blocks (Nat.div (length p) 64) H0 p in
  map byte_of_Z (flat_map (be_bytes 4) h).

End SHA256.

(** ** Package [pow]: challenge generation, solving and verification *)

Module Pow.

(** [type Challenge struct] *)
Record Challenge := mkChallenge {
  Ver : string;        (* protocol version *)
  Alg : string;        (* hash algorithm *)
  Bits : Z;            (* int: leading zero bits required *)
  Ts : Z;              (* int64: Unix seconds *)
  ExpiresIn : Z;       (* int: TTL in seconds *)
  Resource : string;   (* resource identifier *)
  Salt : string        (* random salt *)
}.

(** The values built by [fmt.Errorf] in the package, one constructor per
    format string, with the arguments the format receives. *)
Inductive error :=
| ErrSalt (cause : string)
| ErrNoSolution (maxIterations : Z)
| ErrResourceMismatch (expected got : string)
| ErrNotYetValid (ts now : Z)
| ErrExpired (ts now expiresIn : Z)
| ErrInsufficientPoW (expected got : Z).

(** [strconv.Itoa] and the [%d] verb: decimal, with a leading minus sign. *)
Definition Itoa (i : Z) : string := pretty i.

(** [err.Error()] *)
Definition Error (e : error) : string :=
  match e with
  | ErrSalt cause => "failed to generate salt: " +:+ cause
  | ErrNoSolution n => "no solution found within " +:+ Itoa n +:+ " iterations"
  | ErrResourceMismatch expected got =>
      "resource mismatch: expected " +:+ expected +:+ ", got " +:+ got
  | ErrNotYetValid ts now =>
      "challenge not yet valid: ts=" +:+ Itoa ts +:+ ", now=" +:+ Itoa now
  | ErrExpired ts now expiresIn =>
      "challenge expired: ts=" +:+ Itoa ts +:+ ", now=" +:+ Itoa now
        +:+ ", expires_in=" +:+ Itoa expiresIn
  | ErrInsufficientPoW expected got =>
      "insufficient PoW: expected " +:+ Itoa expected
        +:+ " leading zero bits, got " +:+ Itoa got
  end.

(** A Go result pair [(T, error)]. *)
Inductive result (A : Type) :=
| Ok (a : A)
| Err (e : error).
Arguments Ok {A} a.
Arguments Err {A} e.

Definition hex_digit (n : N) : ascii :=
  match n with
  | 0 => "0" | 1 => "1" | 2 => "2" | 3 => "3" | 4 => "4" | 5 => "5"
  | 6 => "6" | 7 => "7" | 8 => "8" | 9 => "9" | 10 => "a" | 11 => "b"
  | 12 => "c" | 13 => "d" | 14 => "e" | _ => "f"
  end%char%N.

(** [hex.EncodeToString] *)
Fixpoint hex_encode (bs : list byte) : string :=
  match bs with
  | [] => EmptyString
  | b :: rest =>
      String (hex_digit (N.div (Byte.to_N b) 16))
        (String (hex_digit (N.modulo (Byte.to_N b) 16)) (hex_encode rest))
  end.

(** [generateSalt]: [rand] is what [crypto/rand.Read] delivers for the
    requested length, or the error it fails with. *)
Definition generateSalt (rand : string + list byte) : string + string :=
  match rand with
  | inl err => inl err
  | inr b => inr (hex_encode b)
  end.

(** [Generate], with the entropy source and the clock as arguments. *)
Definition Generate (rand : string + list byte) (now : Z)
    (bits expiresIn : Z) (resource : string) : result Challenge :=
  match generateSalt rand with
  | inl err => Err (ErrSalt err)
  | inr salt =>
      Ok {| Ver := "1"; Alg := "sha256"; Bits := bits; Ts := now;
            ExpiresIn := expiresIn; Resource := resource; Salt := salt |}
  end.

(** [StringForHash]: ["ver:alg:bits:ts:expires_in:resource:salt"] *)
Definition StringForHash (c : Challenge) : string :=
  Ver c +:+ ":" +:+ Alg c +:+ ":" +:+ Itoa (Bits c) +:+ ":" +:+ Itoa (Ts c)
    +:+ ":" +:+ Itoa (ExpiresIn c) +:+ ":" +:+ Resource c +:+ ":" +:+ Salt c.

(** The inner loop of [LeadingZeroBits]: [k] is [i + 1], so the loop
    variable runs over [k - 1, ..., 0] and the loop ends when [k = 0]. *)
Fixpoint scan_bits (b : Z) (k : nat) (count : Z) : Z :=
  match k with
  | O => count
  | S i =>
      if Z.land b (Z.shiftl 1 (Z.of_nat i)) =? 0
      then scan_bits b i (GoInt.add count 1)
      else count
  end.

(** The outer loop of [LeadingZeroBits] over the remaining bytes. *)
Fixpoint count_from (hash : list byte) (count : Z) : Z :=
  match hash with
  | [] => count
  | b :: rest =>
      if Byte.eqb b x00
      then count_from rest (GoInt.add count 8)
      else scan_bits (SHA256.byte_val b) 8 count
  end.

Definition LeadingZeroBits (hash : list byte) : Z := count_from hash 0.

Section Engine.

(** [sha256.Sum256] *)
Variable Sum256 : list byte -> list byte.

(** The digest both [Solve] and [Verify] inspect. *)
Definition digest (challengeStr nonce : string) : list byte :=
  Sum256 (list_byte_of_string (challengeStr +:+ ":" +:+ nonce)).

(** The loop of [Solve] from counter [i]; [fuel] bounds the iterations
    left. *)
Fixpoint Solve_loop (c : Challenge) (challengeStr : string)
    (maxIterations : Z) (fuel : nat) (i : Z) : option string :=
  match fuel with
  | O => None
  | S k =>
      if i <? maxIterations then
        let nonce := Itoa i in
        if LeadingZeroBits (digest challengeStr nonce) >=? Bits c
        then Some nonce
        else Solve_loop c challengeStr maxIterations k (GoInt.add i 1)
      else None
  end.

Definition Solve (c : Challenge) (maxIterations : Z) : result string :=
  match Solve_loop c (StringForHash c) maxIterations (Z.to_nat maxIterations) 0 with
  | Some nonce => Ok nonce
  | None => Err (ErrNoSolution maxIterations)
  end.

(** [Verify], with the value of [time.Now().Unix()] as first argument;
    [None] is the [nil] error. *)
Definition Verify (now : Z) (c : Challenge) (solution resource : string)
    : option error :=
  if negb (String.eqb (Resource c) resource) then
    Some (ErrResourceMismatch resource (Resource c))
  else if now <? Ts c then
    Some (ErrNotYetValid (Ts c) now)
  else if now >? GoInt.add (Ts c) (ExpiresIn c) then
    Some (ErrExpired (Ts c) now (ExpiresIn c))
  else
    let actualBits := LeadingZeroBits (digest (StringForHash c) solution) in
    if actualBits <? Bits c then
      Some (ErrInsufficientPoW (Bits c) actualBits)
    else None.

End Engine.

End Pow.

(** ** [float64]: the operations the limiter uses *)

(** The arithmetic and comparisons of Go's [float64] that package
    [ratelimit] calls.  [f_of_int] is the conversion [float64(n)];
    Go's [a > b] is [f_ltb b a] and [a >= b] is [f_leb b a]. *)
Class Float64 (F : Type) := {
  f_of_int : Z -> F;
  f_add : F -> F -> F;
  f_sub : F -> F -> F;
  f_mul : F -> F -> F;
  f_div : F -> F -> F;
  f_ltb : F -> F -> bool;
  f_leb : F -> F -> bool
}.

Module Time.

(** A [time.Time] obtained from [time.Now()]: its monotonic clock reading,
    an [int64] count of nanoseconds. *)
Definition Time := Z.

(** A [time.Duration]: an [int64] count of nanoseconds. *)
Definition Duration := Z.

Definition Second : Duration := 1000000000.
Definition Minute : Duration := 60 * Second.

Definition minDuration : Duration := GoInt.int_min.
Definition maxDuration : Duration := GoInt.int_max.

(** [t.Sub(u)] on two monotonic readings: the difference, saturated to
    the range of [Duration] when it overflows. *)
Definition Sub (t u : Time) : Duration :=
  let d := GoInt.sub t u in
  if (d <? 0) && (t >? u) then maxDuration
  else if (d >? 0) && (t <? u) then minDuration
  else d.

(** [d.Seconds()]: [float64(d / Second) + float64(d % Second) / 1e9], with
    Go's truncated division. *)
Definition Seconds {F} {float64 : Float64 F} (d : Duration) : F :=
  let sec := Z.quot d Second in
  let nsec := Z.rem d Second in
  f_add (f_of_int sec) (f_div (f_of_int nsec) (f_of_int 1000000000)).

End Time.

(** ** Package [ratelimit]: per-address token buckets *)

Module Ratelimit.

(** A [net.IP]: [None] is the nil slice, [Some bs] a slice of bytes. *)
Definition IP := option (list byte).

(** [AdaptiveDifficulty] *)
Definition AdaptiveDifficulty (baseBits attempts : Z) : Z :=
  if attempts <=? 2 then baseBits
  else if attempts <=? 5 then GoInt.add baseBits 1
  else if attempts <=? 10 then GoInt.add baseBits 2
  else if attempts <=? 20 then GoInt.add baseBits 3
  else GoInt.add baseBits 4.

Section Limiter.

Context {F : Type} {float64 : Float64 F}.

(** [net.IP.String] on a non-nil address. *)
Variable IP_String : list byte -> string.

(** [type bucket struct] *)
Record bucket := mkBucket {
  tokens : F;
  lastCheck : Time.Time;
  attempts : Z
}.

(** [type Limiter struct]; the mutex is the atomicity of each operation
    below. *)
Record Limiter := mkLimiter {
  buckets : gmap string bucket;
  rate : Z;
  capacity : Z;
  cleanup : Time.Duration
}.

Definition with_buckets (l : Limiter) (m : gmap string bucket) : Limiter :=
  {| buckets := m; rate := rate l; capacity := capacity l; cleanup := cleanup l |}.

(** [NewLimiter]; the clean-up goroutine it starts is [cleanupTick] below,
    run at each tick. *)
Definition NewLimiter (rate capacity : Z) : Limiter :=
  {| buckets := ∅; rate := rate; capacity := capacity;
     cleanup := GoInt.mul 5 Time.Minute |}.

(** The bucket [Allow] works on: the one stored under [key], or the one it
    creates. *)
Definition lookup_or_create (l : Limiter) (key : string) (now : Time.Time) : bucket :=
  match buckets l !! key with
  | Some b => b
  | None => {| tokens := f_of_int (capacity l); lastCheck := now; attempts := 0 |}
  end.

(** The refill step of [Allow]: add the tokens earned since [lastCheck]
    and clamp at the capacity. *)
Definition refill (l : Limiter) (b : bucket) (now : Time.Time) : F :=
  let elapsed : F := Time.Seconds (Time.Sub now (lastCheck b)) in
  let t := f_add (tokens b) (f_mul elapsed (f_of_int (rate l))) in
  if f_ltb (f_of_int (capacity l)) t then f_of_int (capacity l) else t.

(** [Allow], with the value of [time.Now()] as last argument. *)
Definition Allow (l : Limiter) (ip : IP) (now : Time.Time) : Limiter * (bool * Z) :=
  match ip with
  | None => (l, (true, 0))
  | Some addr =>
      let key := IP_String addr in
      let b := lookup_or_create l key now in
      let t := refill l b now in
      if f_leb (f_of_int 1) t then
        let b' := {| tokens := f_sub t (f_of_int 1); lastCheck := now;
                     attempts := GoInt.add (attempts b) 1 |} in
        (with_buckets l (<[key := b']> (buckets l)), (true, attempts b'))
      else
        let b' := {| tokens := t; lastCheck := now;
                     attempts := GoInt.add (attempts b) 1 |} in
        (with_buckets l (<[key := b']> (buckets l)), (false, attempts b'))
  end.

(** [Reset] *)
Definition Reset (l : Limiter) (ip : IP) : Limiter :=
  match ip with
  | None => l
  | Some addr => with_buckets l (delete (IP_String addr) (buckets l))
  end.

(** One tick of [cleanupLoop]: drop the buckets last checked more than
    twice the clean-up interval ago. *)
Definition cleanupTick (l : Limiter) (now : Time.Time) : Limiter :=
  with_buckets l
    (filter (fun kb : string * bucket =>
               ¬ (Time.Sub now (lastCheck kb.2) > GoInt.mul 2 (cleanup l)))
            (buckets l)).

(** A call on the limiter, with the clock value it reads. *)
Inductive call :=
| CallAllow (ip : IP) (now : Time.Time)
| CallReset (ip : IP)
| CallCleanup (now : Time.Time).

Definition step (l : Limiter) (c : call) : Limiter :=
  match c with
  | CallAllow ip now => fst (Allow l ip now)
  | CallReset ip => Reset l ip
  | CallCleanup now => cleanupTick l now
  end.

(** The limiter after a sequence of calls, each run under the lock. *)
Definition run (l : Limiter) (cs : list call) : Limiter := fold_left step cs l.

End Limiter.

Arguments bucket F : clear implicits.
Arguments Limiter F : clear implicits.
Arguments call : clear implicits.

End Ratelimit.

(** ** Package [server]: the connection handler *)

Module Server.

Definition TypeChallenge : string := "challenge".
Definition TypeSolution : string := "solution".
Definition TypeQuote : string := "quote".
Definition TypeError : string := "error".

(** [type ChallengeMessage struct] *)
Record ChallengeMessage := mkChallengeMessage {
  cm_Type : string;
  cm_Challenge : Pow.Challenge
}.

(** [type SolutionMessage struct] *)
Record SolutionMessage := mkSolutionMessage {
  sm_Type : string;
  sm_Nonce : string
}.

(** [type QuoteMessage struct] *)
Record QuoteMessage := mkQuoteMessage {
  qm_Type : string;
  qm_Quote : string
}.

(** [type ErrorMessage struct] *)
Record ErrorMessage := mkErrorMessage {
  em_Type : string;
  em_Error : string
}.

(** [type Config struct] *)
Record Config := mkConfig {
  Addr : string;
  Bits : Z;
  ExpiresIn : Z;
  RateLimit : Z;
  AdaptiveBits : bool
}.

(** A value handed to [SendJSON] on the connection. *)
Inductive sent :=
| SentChallenge (m : ChallengeMessage)
| SentQuote (m : QuoteMessage)
| SentError (m : ErrorMessage).

(** [SendError] *)
Definition SendError (errMsg : string) : sent :=
  SentError {| em_Type := TypeError; em_Error := errMsg |}.

(** What the outside world supplies to one run of [handleConnection], in
    the order the handler asks for it. *)
Record Env := mkEnv {
  clientIP : Ratelimit.IP;   (* the IP of [conn.RemoteAddr()]; nil when it is no TCP address *)
  allowNow : Time.Time;      (* [time.Now()] inside [Allow] *)
  setDeadlineOk : bool;      (* [conn.SetDeadline] succeeds *)
  rand : string + list byte; (* [crypto/rand.Read] for the salt: an error or the bytes *)
  generateNow : Z;           (* [time.Now().Unix()] inside [Generate] *)
  sendChallengeOk : bool;    (* sending the challenge succeeds *)
  received : string + SolutionMessage; (* [ReceiveJSON]: an error or the decoded message *)
  verifyNow : Z;             (* [time.Now().Unix()] inside [Verify] *)
  randomQuote : string + string; (* [quotes.Random()]: an error or a quote *)
  sendQuoteOk : bool         (* sending the quote succeeds *)
}.

Section Handler.

Context {F : Type} {float64 : Float64 F}.
Variable IP_String : list byte -> string.
Variable Sum256 : list byte -> list byte.

(** The limiter [Start] creates: none when rate limiting is disabled. *)
Definition startLimiter (cfg : Config) : option (Ratelimit.Limiter F) :=
  if RateLimit cfg >? 0
  then Some (Ratelimit.NewLimiter (RateLimit cfg) (GoInt.mul (RateLimit cfg) 2))
  else None.

(** The rate-limit check at the head of [handleConnection]: the limiter
    afterwards, whether the connection may proceed, and [attempts]. *)
Definition checkRateLimit (limiter : option (Ratelimit.Limiter F)) (env : Env)
    : option (Ratelimit.Limiter F) * bool * Z :=
  match limiter, clientIP env with
  | Some l, Some _ =>
      let '(l', (allowed, attemptCount)) :=
        Ratelimit.Allow IP_String l (clientIP env) (allowNow env) in
      (Some l', allowed, attemptCount)
  | _, _ => (limiter, true, 0)
  end.

(** Step 1 of [handleConnection]: the difficulty of the challenge. *)
Definition effectiveBits (cfg : Config) (attempts : Z) : Z :=
  if AdaptiveBits cfg && (attempts >? 0)
  then Ratelimit.AdaptiveDifficulty (Bits cfg) attempts
  else Bits cfg.

(** [handleConnection]: the limiter afterwards and the messages written to
    the connection, in order.  Log lines are not modelled. *)
Definition handleConnection (cfg : Config) (limiter : option (Ratelimit.Limiter F))
    (env : Env) : option (Ratelimit.Limiter F) * list sent :=
  let '(limiter1, allowed, attempts) := checkRateLimit limiter env in
  if negb allowed then
    (limiter1, [SendError "rate limit exceeded, please try again later"])
  else if negb (setDeadlineOk env) then
    (limiter1, [])
  else
    let bits := effectiveBits cfg attempts in
    match Pow.Generate (rand env) (generateNow env) bits (ExpiresIn cfg) "quote" with
    | Pow.Err _ => (limiter1, [SendError "internal server error"])
    | Pow.Ok challenge =>
        let challengeMsg :=
          SentChallenge {| cm_Type := TypeChallenge; cm_Challenge := challenge |} in
        if negb (sendChallengeOk env) then (limiter1, [])
        else
          match received env with
          | inl _ => (limiter1, [challengeMsg; SendError "invalid solution format"])
          | inr solutionMsg =>
              if negb (String.eqb (sm_Type solutionMsg) TypeSolution) then
                (limiter1, [challengeMsg; SendError "expected solution message"])
              else
                match Pow.Verify Sum256 (verifyNow env) challenge
                        (sm_Nonce solutionMsg) "quote" with
                | Some err =>
                    (limiter1,
                     [challengeMsg; SendError ("invalid solution: " +:+ Pow.Error err)])
                | None =>
                    let limiter2 :=
                      match limiter1, clientIP env with
                      | Some l, Some _ => Some (Ratelimit.Reset IP_String l (clientIP env))
                      | _, _ => limiter1
                      end in
                    match randomQuote env with
                    | inl _ =>
                        (limiter2, [challengeMsg; SendError "failed to generate quote"])
                    | inr quote =>
                        if sendQuoteOk env then
                          (limiter2,
                           [challengeMsg;
                            SentQuote {| qm_Type := TypeQuote; qm_Quote := quote |}])
                        else (limiter2, [challengeMsg])
                    end
                end
          end
    end.

End Handler.

End Server.

(** ** The numbers of [float64] *)

(** IEEE-754 binary64 as the Standard Library specifies it: the numbers Go
    computes with.  A conversion and each operation round to nearest, ties
    to even; no multiplication is fused with an addition. *)
Module IEEE.

Definition prec : Z := 53.
Definition emax : Z := 1024.

(** [float64(z)] of an [int]. *)
Definition of_int (z : Z) : SpecFloat.spec_float :=
  SpecFloat.binary_normalize prec emax z 0 false.

#[export] Instance binary64 : Float64 SpecFloat.spec_float := {|
  f_of_int := of_int;
  f_add := SpecFloat.SFadd prec emax;
  f_sub := SpecFloat.SFsub prec emax;
  f_mul := SpecFloat.SFmul prec emax;
  f_div := SpecFloat.SFdiv prec emax;
  f_ltb := SpecFloat.SFltb;
  f_leb := SpecFloat.SFleb
|}.

(** The number with sign [sx], mantissa [m] and exponent [e] once rounding
    has brought the mantissa into the format: infinity when the exponent is
    above the largest one. *)
Definition rounded (sx : bool) (m e : Z) : SpecFloat.spec_float :=
  match m with
  | Z0 => SpecFloat.S754_zero sx
  | Zpos p => if e <=? 971 then SpecFloat.S754_finite sx p e
              else SpecFloat.S754_infinity sx
  | Zneg _ => SpecFloat.S754_nan
  end.

(** A number, not NaN, whose sign bit is [sx]. *)
Definition sign_is (sx : bool) (x : SpecFloat.spec_float) : Prop :=
  match x with
  | SpecFloat.S754_zero s | SpecFloat.S754_infinity s
  | SpecFloat.S754_finite s _ _ => s = sx
  | SpecFloat.S754_nan => False
  end.

(** Zero or a finite number. *)
Definition finite (x : SpecFloat.spec_float) : Prop :=
  match x with
  | SpecFloat.S754_zero _ | SpecFloat.S754_finite _ _ _ => True
  | _ => False
  end.

(** Zero, or a finite number of magnitude below [2^K]. *)
Definition below (K : Z) (x : SpecFloat.spec_float) : Prop :=
  match x with
  | SpecFloat.S754_zero _ => True
  | SpecFloat.S754_finite _ m e => SpecFloat.Zdigits2 (Z.pos m) + e <= K
  | _ => False
  end.


End IEEE.

(** Exact rational arithmetic: the numbers [float64] approximates. *)
Module Exact.

Definition of_int (z : Z) : Qc := Q2Qc (inject_Z z).
Definition ltb (a b : Qc) : bool := negb (Qle_bool b a).
Definition leb (a b : Qc) : bool := Qle_bool a b.

#[export] Instance rational : Float64 Qc := {|
  f_of_int := of_int;
  f_add := Qcplus;
  f_sub := Qcminus;
  f_mul := Qcmult;
  f_div := Qcdiv;
  f_ltb := ltb;
  f_leb := leb
|}.

End Exact.

(** ** The specification's own notions *)

Module Spec.

(** The bits [k - 1, ..., 0] of [b], most significant first. *)
Fixpoint bits_below (b : Z) (k : nat) : list bool :=
  match k with
  | O => []
  | S i => Z.testbit b (Z.of_nat i) :: bits_below b i
  end.

(** A digest as a sequence of bits, from the most significant bit of its
    first byte. *)
Definition bit_string (D : list byte) : list bool :=
  flat_map (fun b => bits_below (SHA256.byte_val b) 8) D.

(** The length of the run of zero bits before the first one bit. *)
Fixpoint zero_run (bs : list bool) : Z :=
  match bs with
  | false :: rest => 1 + zero_run rest
  | _ => 0
  end.

(** [min(x, y)] on [float64]. *)
Definition fmin {F} {float64 : Float64 F} (x y : F) : F :=
  if f_ltb x y then x else y.



(** A failure of [Verify] that is about time or about work. *)
Definition temporal_or_insufficient (e : Pow.error) : Prop :=
  match e with
  | Pow.ErrNotYetValid _ _ | Pow.ErrExpired _ _ _ | Pow.ErrInsufficientPoW _ _ => True
  | _ => False
  end.



End Spec.

(** ** Sample inputs *)

Module Sample.

Import Ratelimit Server.

(** The challenge of the package's tests, at a low difficulty. *)
Definition challenge : Pow.Challenge :=
  {| Pow.Ver := "1"; Pow.Alg := "sha256"; Pow.Bits := 6; Pow.Ts := 1700000000;
     Pow.ExpiresIn := 300; Pow.Resource := "quote"; Pow.Salt := "testsalt" |}.

(** An [IP.String] for the samples: the bytes in dotted decimal. *)
Fixpoint dotted (bs : list byte) : string :=
  match bs with
  | [] => ""
  | [b] => Pow.Itoa (SHA256.byte_val b)
  | b :: rest => Pow.Itoa (SHA256.byte_val b) +:+ "." +:+ dotted rest
  end.

(** 192.168.1.1 *)
Definition ip : list byte := [xc0; xa8; x01; x01].

Definition config : Config :=
  {| Addr := ":8080"; Bits := 20; ExpiresIn := 300;
     RateLimit := 5; AdaptiveBits := true |}.

(** A first connection from [ip] that sends a nonce without work. *)
Definition env : Env :=
  {| clientIP := Some ip; allowNow := 1000; setDeadlineOk := true;
     rand := inr [x00; x01; x02; x03; x04; x05; x06; x07;
                  x08; x09; x0a; x0b; x0c; x0d; x0e; x0f];
     generateNow := 1700000000; sendChallengeOk := true;
     received := inr {| sm_Type := "solution"; sm_Nonce := "0" |};
     verifyNow := 1700000001; randomQuote := inr "wisdom"; sendQuoteOk := true |}.

(** The same connection with [Allow] reading the clock at [now]. *)
Definition env_at (now : Time.Time) : Env :=
  {| clientIP := Some ip; allowNow := now; setDeadlineOk := true;
     rand := inr [x00; x01; x02; x03; x04; x05; x06; x07;
                  x08; x09; x0a; x0b; x0c; x0d; x0e; x0f];
     generateNow := 1700000000; sendChallengeOk := true;
     received := inr {| sm_Type := "solution"; sm_Nonce := "0" |};
     verifyNow := 1700000001; randomQuote := inr "wisdom"; sendQuoteOk := true |}.

(** The challenge message the handler sends on [env]. *)
Definition issued : ChallengeMessage :=
  {| cm_Type := "challenge";
     cm_Challenge :=
       {| Pow.Ver := "1"; Pow.Alg := "sha256"; Pow.Bits := 20;
          Pow.Ts := 1700000000; Pow.ExpiresIn := 300; Pow.Resource := "quote";
          Pow.Salt := "000102030405060708090a0b0c0d0e0f" |} |}.

(** A limiter, over exact arithmetic, on which [ip] has used up its
    tokens. *)
Definition exhausted : Limiter Qc :=
  {| buckets := {[ "192.168.1.1" := {| tokens := Exact.of_int 0;
                                       lastCheck := 900; attempts := 6 |} ]};
     rate := 5; capacity := 5; cleanup := 300000000000 |}.


(** A server without adaptive difficulty, at a difficulty of four bits,
    and a connection from [ip] that solves its challenge. *)
Definition easy_config : Config :=
  {| Addr := ":8080"; Bits := 4; ExpiresIn := 300;
     RateLimit := 5; AdaptiveBits := false |}.

Definition solving_env : Env :=
  {| clientIP := Some ip; allowNow := 1000; setDeadlineOk := true;
     rand := inr [x00; x01; x02; x03; x04; x05; x06; x07;
                  x08; x09; x0a; x0b; x0c; x0d; x0e; x0f];
     generateNow := 1700000000; sendChallengeOk := true;
     received := inr {| sm_Type := "solution"; sm_Nonce := "1" |};
     verifyNow := 1700000001; randomQuote := inr "wisdom"; sendQuoteOk := true |}.

(** [n] requests from [ip] at the same instant, as the limiter's tests
    make them: the limiter afterwards and what each [Allow] returned. *)
Fixpoint burst {F : Type} {float64 : Float64 F} (n : nat) (l : Limiter F)
    (now : Time.Time) : Limiter F * list (bool * Z) :=
  match n with
  | O => (l, [])
  | S k =>
      let '(l1, r) := Allow dotted l (Some ip) now in
      let '(l2, rs) := burst k l1 now in
      (l2, r :: rs)
  end.

End Sample.

(** ** Package [quotes]: the pool of quotes *)

Module Quotes.

(** [var pool] *)
Definition pool : list string :=
  [ "The only true wisdom is in knowing you know nothing. – Socrates";
    "The journey of a thousand miles begins with one step. – Lao Tzu";
    "In the middle of difficulty lies opportunity. – Albert Einstein";
    "Life is what happens when you're busy making other plans. – John Lennon";
    "The only impossible journey is the one you never begin. – Tony Robbins";
    "Do not dwell in the past, do not dream of the future, concentrate the mind on the present moment. – Buddha";
    "The greatest glory in living lies not in never falling, but in rising every time we fall. – Nelson Mandela";
    "You must be the change you wish to see in the world. – Mahatma Gandhi";
    "Success is not final, failure is not fatal: it is the courage to continue that counts. – Winston Churchill";
    "It does not matter how slowly you go as long as you do not stop. – Confucius" ].

(** What a call of [Random] ends in: a quote, an error, or the run-time
    panic of an index out of range. *)
Inductive result :=
| Ok (quote : string)
| Err (msg : string)
| Panic.

(** [Random]; [rand] is what [rand.Int(rand.Reader, maxBig)] delivers: an
    error or the index drawn. *)
Definition Random (rand : string + Z) : result :=
  let n := Z.of_nat (length pool) in
  if n =? 0 then Err "quote pool is empty"
  else
    match rand with
    | inl err => Err ("failed to generate random index: " +:+ err)
    | inr idx =>
        if (0 <=? idx) && (idx <? n) then
          match pool !! Z.to_nat idx with
          | Some quote => Ok quote
          | None => Panic
          end
        else Panic
    end.

End Quotes.

(** ** The server's [main]: configuration from the environment *)

Module Main.

Section Environment.

(** [os.Getenv]: the empty string for a variable that is not set. *)
Variable Getenv : string -> string.
(** [strconv.Atoi] and [strconv.ParseBool]; [None] is a non-nil error. *)
Variable Atoi : string -> option Z.
Variable ParseBool : string -> option bool.

(** [getEnv] *)
Definition getEnv (key defaultValue : string) : string :=
  let val := Getenv key in
  if negb (String.eqb val "") then val else defaultValue.

(** [getEnvInt] *)
Definition getEnvInt (key : string) (defaultValue : Z) : Z :=
  let val := Getenv key in
  if negb (String.eqb val "") then
    match Atoi val with
    | Some i => i
    | None => defaultValue
    end
  else defaultValue.

(** [getEnvBool] *)
Definition getEnvBool (key : string) (defaultValue : bool) : bool :=
  let val := Getenv key in
  if negb (String.eqb val "") then
    match ParseBool val with
    | Some b => b
    | None => defaultValue
    end
  else defaultValue.

(** The [server.Config] that [main] builds and hands to [server.Start]. *)
Definition cfg : Server.Config :=
  {| Server.Addr := getEnv "WOW_ADDR" ":8080";
     Server.Bits := getEnvInt "WOW_BITS" 22;
     Server.ExpiresIn := getEnvInt "WOW_EXPIRES" 60;
     Server.RateLimit := getEnvInt "WOW_RATE_LIMIT" 0;
     Server.AdaptiveBits := getEnvBool "WOW_ADAPTIVE_BITS" false |}.

End Environment.

End Main.

(** ** The client's [main] *)

Module Client.

(** The values [run] and [solveParallel] build with [fmt.Errorf], one
    constructor per format string. *)
Inductive error :=
| ErrConnect (cause : string)
| ErrSetDeadline (cause : string)
| ErrReadChallenge (cause : string)
| ErrUnexpectedMessage (type : string)
| ErrSolve (cause : string)
| ErrSendSolution (cause : string)
| ErrReadResponse (cause : string)
| ErrMissingType
| ErrServer (errorMsg : string)
| ErrUnexpectedResponse (responseType : string)
| ErrInvalidQuote.

Definition Error (e : error) : string :=
  match e with
  | ErrConnect cause => "failed to connect: " +:+ cause
  | ErrSetDeadline cause => "failed to set deadline: " +:+ cause
  | ErrReadChallenge cause => "failed to read challenge: " +:+ cause
  | ErrUnexpectedMessage type => "unexpected message type: " +:+ type
  | ErrSolve cause => "failed to solve PoW: " +:+ cause
  | ErrSendSolution cause => "failed to send solution: " +:+ cause
  | ErrReadResponse cause => "failed to read response: " +:+ cause
  | ErrMissingType => "invalid response format: missing type"
  | ErrServer errorMsg => "server error: " +:+ errorMsg
  | ErrUnexpectedResponse responseType => "unexpected response type: " +:+ responseType
  | ErrInvalidQuote => "invalid quote format"
  end.

(** The error [solveParallel] returns when its context ends first. *)
Definition timeout : string := "timeout or cancelled while solving PoW".

(** [numWorkers] of [solveParallel], from [runtime.NumCPU()]. *)
Definition numWorkers (numCPU : Z) : Z := if numCPU <? 1 then 1 else numCPU.

Section Solver.

Variable Sum256 : list byte -> list byte.

(** The loop of one worker goroutine of [solveParallel], from the counter
    [nonce] in steps of [step].  [fuel] is the number of iterations the
    worker starts before it sees its context cancelled; a worker that is
    cancelled sends nothing ([None]), one that finds a nonce offers it on
    the solution channel and stops. *)
Fixpoint worker (c : Pow.Challenge) (challengeStr : string) (step : Z)
    (fuel : nat) (nonce : Z) : option string :=
  match fuel with
  | O => None
  | S k =>
      let nonceStr := Pow.Itoa nonce in
      if Pow.LeadingZeroBits (Pow.digest Sum256 challengeStr nonceStr) >=? Pow.Bits c
      then Some nonceStr
      else worker c challengeStr step k (GoInt.add nonce step)
  end.

(** What [solveParallel] may return: the channel holds one value, so the
    nonce is the one offered by some worker, whichever is first, and the
    other select branch gives the time-out error. *)
Inductive solveParallel (numCPU : Z) (c : Pow.Challenge) : string + string -> Prop :=
| solved (id : Z) (fuel : nat) (nonce : string) :
    0 <= id < numWorkers numCPU ->
    worker c (Pow.StringForHash c) (numWorkers numCPU) fuel id = Some nonce ->
    solveParallel numCPU c (inr nonce)
| cancelled : solveParallel numCPU c (inl timeout).

End Solver.

(** The server's second message as [run] decodes it, a
    [map[string]interface{}]: for each key [run] reads, the string stored
    under it, or [None] when the key is missing or holds no string. *)
Record Response := mkResponse {
  resp_type : option string;
  resp_error : option string;
  resp_quote : option string
}.

(** What the outside world supplies to one call of [run], in the order
    [run] asks for it; [None] is a nil error. *)
Record Env := mkEnv {
  dial : option string;          (* [net.DialTimeout] *)
  setDeadline : option string;   (* [conn.SetDeadline] *)
  readChallenge : string + (string * option Pow.Challenge);
                                 (* decoding the first message: its type and
                                    challenge, which is nil when absent *)
  solve : string + string;       (* what [solveParallel] returns *)
  solveDuration : string;        (* the clock: the text of
                                    [solveDuration.Round(time.Millisecond)] *)
  sendSolution : option string;  (* encoding the solution message *)
  readResponse : string + Response (* decoding the second message *)
}.

(** How [run] ends: it returns nil after printing the frame with the
    quote, one string per [fmt.Printf], returns an error, or panics. *)
Inductive outcome :=
| Printed (stdout : list string)
| Failed (e : error)
| Panicked.

Definition newline : string := String "010"%char "".

(** The padding [fmt] writes. *)
Fixpoint spaces (n : nat) : string :=
  match n with
  | O => ""
  | S k => String " "%char (spaces k)
  end.

Section Printing.

(** [utf8.RuneCountInString], by which [fmt] measures the text it pads. *)
Variable RuneCountInString : string -> Z.

(** [fmt.Sprintf("%-*s ║", width, text)] for a width that is not negative:
    the text, then spaces up to [width] runes; a width above a million is
    refused by [fmt] and reported in the output. *)
Definition Sprintf_padded (width : Z) (text : string) : string :=
  if width >? 1000000 then "%!(BADWIDTH)" +:+ text +:+ " ║"
  else text +:+ spaces (Z.to_nat (width - RuneCountInString text)) +:+ " ║".

(** [wrapText]: [len] counts bytes and [text[:width-3]] cuts at a byte;
    [None] is the panic of a slice bound out of range. *)
Definition wrapText (text : string) (width : Z) : option string :=
  if Z.of_nat (String.length text) <=? width then Some (Sprintf_padded width text)
  else
    let k := GoInt.sub width 3 in
    if (0 <=? k) && (k <=? Z.of_nat (String.length text))
    then Some (String.substring 0 (Z.to_nat k) text +:+ "... ║")
    else None.

(** What step 5 of [run] writes to the standard output around the line
    [line] of the quote. *)
Definition frame (line duration : string) (bits : Z) : list string :=
  [ newline +:+ "╔════════════════════════════════════════════════════════════════════╗" +:+ newline;
    "║  Word of Wisdom                                                    ║" +:+ newline;
    "╠════════════════════════════════════════════════════════════════════╣" +:+ newline;
    "║                                                                    ║" +:+ newline;
    "║  " +:+ line +:+ newline;
    "║                                                                    ║" +:+ newline;
    "╠════════════════════════════════════════════════════════════════════╣" +:+ newline;
    "║  PoW solved in: " +:+ duration +:+ " (bits: " +:+ Pow.Itoa bits +:+ ")                          " +:+ newline;
    "╚════════════════════════════════════════════════════════════════════╝" +:+ newline +:+ newline ].

(** [run]: the messages written to the connection and how the call ends.
    Log lines are not modelled; a panic drops what was printed before
    it. *)
Definition run (env : Env) : list Server.SolutionMessage * outcome :=
  match dial env with
  | Some err => ([], Failed (ErrConnect err))
  | None =>
  match setDeadline env with
  | Some err => ([], Failed (ErrSetDeadline err))
  | None =>
  match readChallenge env with
  | inl err => ([], Failed (ErrReadChallenge err))
  | inr (type, challenge) =>
  if negb (String.eqb type Server.TypeChallenge)
  then ([], Failed (ErrUnexpectedMessage type))
  else
  match challenge with
  | None => ([], Panicked)
  | Some c =>
  match solve env with
  | inl err => ([], Failed (ErrSolve err))
  | inr nonce =>
  let solutionMsg :=
    {| Server.sm_Type := Server.TypeSolution; Server.sm_Nonce := nonce |} in
  match sendSolution env with
  | Some err => ([], Failed (ErrSendSolution err))
  | None =>
  match readResponse env with
  | inl err => ([solutionMsg], Failed (ErrReadResponse err))
  | inr response =>
  match resp_type response with
  | None => ([solutionMsg], Failed ErrMissingType)
  | Some responseType =>
  if String.eqb responseType Server.TypeError then
    ([solutionMsg],
     Failed (ErrServer (match resp_error response with Some m => m | None => "" end)))
  else if negb (String.eqb responseType Server.TypeQuote) then
    ([solutionMsg], Failed (ErrUnexpectedResponse responseType))
  else
    match resp_quote response with
    | None => ([solutionMsg], Failed ErrInvalidQuote)
    | Some quote =>
        match wrapText quote 66 with
        | None => ([solutionMsg], Panicked)
        | Some line =>
            ([solutionMsg], Printed (frame line (solveDuration env) (Pow.Bits c)))
        end
    end
  end end end end end end end end.

End Printing.

End Client.

(** ** Further notions used by the properties *)

Module Notions.

(** No byte of the string is a colon, the separator of the canonical
    challenge string. *)
Fixpoint colon_free (s : string) : Prop :=
  match s with
  | EmptyString => True
  | String a rest => a <> ":"%char /\ colon_free rest
  end.



(** What a connection wrote shows that its limiter entry was not reset:
    it ended before the quote step, so the last thing written, if any, is
    an error other than the one of the quote step. *)
Definition unserved (out : list Server.sent) : Prop :=
  match last out with
  | None => True
  | Some (Server.SentError m) => Server.em_Error m <> "failed to generate quote"
  | Some _ => False
  end.


End Notions.

(** What happens at a server, one thing after the other: connections are
    handled, none overlapping the next, and between them the limiter's
    clean-up goroutine ticks. *)
Module Sessions.






(** A connection, with what the outside world supplies to its handler, or
    a tick of [cleanupLoop], with the clock reading it takes. *)
Inductive event :=
| Connection (env : Server.Env)
| CleanupTick (now : Time.Time).

(** The connections among the events. *)
Fixpoint connections (evs : list event) : list Server.Env :=
  match evs with
  | [] => []
  | Connection env :: rest => env :: connections rest
  | CleanupTick _ :: rest => connections rest
  end.

(** Clock readings are values of the clock, and every tick comes no more
    than [window] after the [Allow] of the connection before it; [last]
    is the reading of that [Allow], when there was one. *)
Fixpoint ticks_within (window : Z) (last : option Time.Time) (evs : list event) : Prop :=
  match evs with
  | [] => True
  | Connection env :: rest =>
      GoInt.in_int (Server.allowNow env)
      /\ ticks_within window (Some (Server.allowNow env)) rest
  | CleanupTick now :: rest =>
      GoInt.in_int now
      /\ match last with
         | Some t => now - t <= window
         | None => True
         end
      /\ ticks_within window last rest
  end.

Section InTurn.

Context {F : Type} {float64 : Float64 F}.
Variable IP_String : list byte -> string.
Variable Sum256 : list byte -> list byte.

(** The limiter after the events, and what each connection was sent.  A
    tick that falls inside a connection has the effect of one at its end:
    the handler holds the limiter's lock only inside [Allow] and [Reset],
    and [Reset] deletes the one bucket whatever the tick did to it. *)
Fixpoint handleInTurn (cfg : Server.Config) (limiter : option (Ratelimit.Limiter F))
    (evs : list event) : option (Ratelimit.Limiter F) * list (list Server.sent) :=
  match evs with
  | [] => (limiter, [])
  | Connection env :: rest =>
      let '(limiter1, out) := Server.handleConnection IP_String Sum256 cfg limiter env in
      let '(limiter2, outs) := handleInTurn cfg limiter1 rest in
      (limiter2, out :: outs)
  | CleanupTick now :: rest =>
      handleInTurn cfg
        (match limiter with
         | Some l => Some (Ratelimit.cleanupTick l now)
         | None => None
         end) rest
  end.

End InTurn.

End Sessions.

(** ** Samples for the client, the configuration and a session *)

Module SampleSession.

(** The challenge [Sample.solving_env] makes the server generate under
    [Sample.easy_config]. *)
Definition challenge : Pow.Challenge :=
  {| Pow.Ver := "1"; Pow.Alg := "sha256"; Pow.Bits := 4; Pow.Ts := 1700000000;
     Pow.ExpiresIn := 300; Pow.Resource := "quote";
     Pow.Salt := "000102030405060708090a0b0c0d0e0f" |}.

(** The client on the other end of that connection: it is sent the
    challenge, its solver returns ["1"], and it reads the quote. *)
Definition client : Client.Env :=
  {| Client.dial := None; Client.setDeadline := None;
     Client.readChallenge := inr ("challenge", Some challenge);
     Client.solve := inr "1"; Client.solveDuration := "2ms";
     Client.sendSolution := None;
     Client.readResponse :=
       inr {| Client.resp_type := Some "quote"; Client.resp_error := None;
              Client.resp_quote := Some "wisdom" |} |}.




(** A connection on which [quotes.Random] draws index 1. *)
Definition drawn : string + Z := inr 1.

Definition quoting_env : Server.Env :=
  {| Server.clientIP := Some Sample.ip; Server.allowNow := 1000;
     Server.setDeadlineOk := true;
     Server.rand := inr [x00; x01; x02; x03; x04; x05; x06; x07;
                         x08; x09; x0a; x0b; x0c; x0d; x0e; x0f];
     Server.generateNow := 1700000000; Server.sendChallengeOk := true;
     Server.received := inr {| Server.sm_Type := "solution"; Server.sm_Nonce := "1" |};
     Server.verifyNow := 1700000001;
     Server.randomQuote :=
       inr "The journey of a thousand miles begins with one step. – Lao Tzu";
     Server.sendQuoteOk := true |}.


(** An environment that asks for adaptive difficulty at four bits and
    sets no rate limit. *)
Definition getenv (key : string) : string :=
  if String.eqb key "WOW_BITS" then "4"
  else if String.eqb key "WOW_ADAPTIVE_BITS" then "true"
  else "".

(** Decimal numerals without sign, enough of [strconv.Atoi] for the
    samples. *)
Fixpoint digits (s : string) (acc : Z) : option Z :=
  match s with
  | EmptyString => Some acc
  | String a rest =>
      let d := Z.of_N (Ascii.N_of_ascii a) - 48 in
      if (0 <=? d) && (d <=? 9) then digits rest (10 * acc + d) else None
  end.

Definition atoi (s : string) : option Z :=
  match s with
  | EmptyString => None
  | _ => match digits s 0 with
         | Some n => if n <=? GoInt.int_max then Some n else None
         | None => None
         end
  end.

(** The spellings [strconv.ParseBool] accepts. *)
Definition parseBool (s : string) : option bool :=
  if existsb (String.eqb s) ["1"; "t"; "T"; "TRUE"; "true"; "True"] then Some true
  else if existsb (String.eqb s) ["0"; "f"; "F"; "FALSE"; "false"; "False"] then Some false
  else None.

End SampleSession.

(** * Properties *)

(** ** Machine integers *)

Lemma wrap_in_range (z : Z) : GoInt.in_int z -> GoInt.wrap z = z.
Proof.
  unfold GoInt.in_int, GoInt.wrap, GoInt.int_min, GoInt.int_max.
  intros Hz. rewrite Z.mod_small by lia. lia.
Qed.


Lemma add_no_overflow (a b : Z) : GoInt.in_int (a + b) -> GoInt.add a b = a + b.
Proof. apply wrap_in_range. Qed.

Lemma add_at_most (a b : Z) : GoInt.int_min <= a + b -> GoInt.add a b <= a + b.
Proof.
  unfold GoInt.add, GoInt.wrap, GoInt.int_min. intros Hlo.
  pose proof (Z.mod_le (a + b + 2 ^ 63) (2 ^ 64)). lia.
Qed.

(** ** [LeadingZeroBits] *)

(** The test [b & (1 << i) == 0] reads bit [i] of [b]. *)
Lemma mask_test_is_testbit (b : Z) (i : nat) :
  (Z.land b (Z.shiftl 1 (Z.of_nat i)) =? 0) = negb (Z.testbit b (Z.of_nat i)).
Proof.
  rewrite Z.shiftl_1_l.
  destruct (Z.testbit b (Z.of_nat i)) eqn:Hbit; simpl.
  - apply Z.eqb_neq. intros Hzero.
    assert (Hc : Z.testbit (Z.land b (2 ^ Z.of_nat i)) (Z.of_nat i) = true).
    { rewrite Z.land_spec, Hbit, Z.pow2_bits_true by lia. reflexivity. }
    rewrite Hzero, Z.bits_0 in Hc. discriminate.
  - apply Z.eqb_eq. apply Z.bits_inj'. intros n Hn.
    rewrite Z.land_spec, Z.bits_0, Z.pow2_bits_eqb by lia.
    destruct (Z.eqb_spec (Z.of_nat i) n) as [Heq|_].
    + rewrite <- Heq, Hbit. reflexivity.
    + apply andb_false_r.
Qed.

(** The inner loop adds the zero run of the bits it scans. *)
Lemma scan_bits_run (b : Z) (k : nat) (count : Z) :
  GoInt.int_min <= count -> count + Z.of_nat k <= GoInt.int_max ->
  Pow.scan_bits b k count = count + Spec.zero_run (Spec.bits_below b k).
Proof.
  revert count. induction k as [|k IH]; intros count Hlo Hhi; simpl.
  - lia.
  - rewrite mask_test_is_testbit.
    destruct (Z.testbit b (Z.of_nat k)); simpl; [lia|].
    rewrite add_no_overflow by (unfold GoInt.in_int; lia).
    rewrite IH by lia. lia.
Qed.

Lemma byte_zero_bits (b : byte) :
  Byte.eqb b x00 = true -> Spec.bits_below (SHA256.byte_val b) 8 = repeat false 8.
Proof. destruct b; intros Hb; try discriminate Hb. reflexivity. Qed.

(** A non-zero byte holds a one bit, at which every run of zero bits that
    enters the byte ends. *)
Lemma byte_nonzero_run (b : byte) (rest : list bool) :
  Byte.eqb b x00 = false ->
  Spec.zero_run (Spec.bits_below (SHA256.byte_val b) 8 ++ rest)
  = Spec.zero_run (Spec.bits_below (SHA256.byte_val b) 8).
Proof. destruct b; intros Hb; try discriminate Hb; reflexivity. Qed.

(** The outer loop, from any count that leaves room for the bits ahead. *)
Lemma count_from_run (D : list byte) (count : Z) :
  GoInt.int_min <= count -> count + 8 * Z.of_nat (length D) <= GoInt.int_max ->
  Pow.count_from D count = count + Spec.zero_run (Spec.bit_string D).
Proof.
  revert count. induction D as [|b D IH]; intros count Hlo Hhi.
  - simpl. lia.
  - cbn [Pow.count_from Spec.bit_string flat_map length] in *.
    fold (Spec.bit_string D).
    destruct (Byte.eqb b x00) eqn:Hb.
    + rewrite (byte_zero_bits b Hb).
      rewrite add_no_overflow by (unfold GoInt.in_int; lia).
      rewrite IH by lia. simpl. lia.
    + rewrite byte_nonzero_run by exact Hb.
      apply scan_bits_run; [exact Hlo | simpl; lia].
Qed.

Lemma zero_run_all_zero (D : list byte) :
  (forall b, In b D -> b = x00) ->
  Spec.zero_run (Spec.bit_string D) = 8 * Z.of_nat (length D).
Proof.
  induction D as [|b D IH]; intros Hall; [reflexivity|].
  assert (Hb : b = x00) by (apply Hall; left; reflexivity). subst b.
  cbn [Spec.bit_string flat_map length]. fold (Spec.bit_string D).
  change (Spec.bits_below (SHA256.byte_val x00) 8) with (repeat false 8).
  simpl Spec.zero_run.
  rewrite IH by (intros b' Hin; apply Hall; right; exact Hin). lia.
Qed.

(** C5. For every byte sequence [D] (whose bit length is an [int]),
    [LeadingZeroBits D] is the length of the run of zero bits that starts at
    the most significant bit of the first byte and ends before the first one
    bit; when every byte of [D] is zero it is [8 * len(D)]. *)
Theorem LeadingZeroBits_counts_leading_zero_run (D : list byte) :
  8 * Z.of_nat (length D) <= GoInt.int_max ->
  Pow.LeadingZeroBits D = Spec.zero_run (Spec.bit_string D)
  /\ ((forall b, In b D -> b = x00) ->
      Pow.LeadingZeroBits D = 8 * Z.of_nat (length D)).
Proof.
  intros Hlen.
  assert (Hrun : Pow.LeadingZeroBits D = Spec.zero_run (Spec.bit_string D)).
  { unfold Pow.LeadingZeroBits. rewrite count_from_run; [lia| |lia].
    unfold GoInt.int_min. lia. }
  split; [exact Hrun|].
  intros Hall. rewrite Hrun. apply zero_run_all_zero, Hall.
Qed.

Lemma LeadingZeroBits_counts_leading_zero_run_witness :
  8 * Z.of_nat (length [x00; x00; x1f; xff]) <= GoInt.int_max
  /\ Pow.LeadingZeroBits [x00; x00; x1f; xff] = 19.
Proof.
  assert (Hlen : 8 * Z.of_nat (length [x00; x00; x1f; xff]) <= GoInt.int_max)
    by (vm_compute; discriminate).
  split; [exact Hlen|].
  rewrite (proj1 (LeadingZeroBits_counts_leading_zero_run [x00; x00; x1f; xff] Hlen)).
  reflexivity.
Defined.

(** ** [AdaptiveDifficulty] *)

(** Without overflow the function adds the extra bits of its table. *)
Lemma AdaptiveDifficulty_extra (baseBits attempts : Z) :
  GoInt.in_int baseBits -> baseBits + 4 <= GoInt.int_max ->
  Ratelimit.AdaptiveDifficulty baseBits attempts
  = baseBits + (if attempts <=? 2 then 0
                else if attempts <=? 5 then 1
                else if attempts <=? 10 then 2
                else if attempts <=? 20 then 3 else 4).
Proof.
  intros [Hlo Hhi] Hroom. unfold Ratelimit.AdaptiveDifficulty.
  repeat (destruct (_ <=? _); [try lia; apply add_no_overflow; split; lia|]).
  apply add_no_overflow; split; lia.
Qed.

Lemma AdaptiveDifficulty_monotone (baseBits a1 a2 : Z) :
  GoInt.in_int baseBits -> baseBits + 4 <= GoInt.int_max -> a1 <= a2 ->
  Ratelimit.AdaptiveDifficulty baseBits a1 <= Ratelimit.AdaptiveDifficulty baseBits a2.
Proof.
  intros Hb Hroom Hle. rewrite !AdaptiveDifficulty_extra by assumption.
  repeat match goal with
         | |- context [?x <=? ?y] => destruct (Z.leb_spec x y)
         end; lia.
Qed.

Lemma AdaptiveDifficulty_at_most (baseBits attempts : Z) :
  GoInt.in_int baseBits ->
  Ratelimit.AdaptiveDifficulty baseBits attempts <= baseBits + 4.
Proof.
  intros [Hlo Hhi]. unfold Ratelimit.AdaptiveDifficulty.
  repeat (destruct (_ <=? _);
          [first [lia | etrans; [apply add_at_most; lia | lia]]|]).
  apply add_at_most. lia.
Qed.

(** C3. [AdaptiveDifficulty 20 attempts] is 20 for attempts 1 and 2, 21 for
    3 to 5, 22 for 6 to 10, 23 for 11 to 20 and 24 from 21 on; the result
    never decreases as attempts grow (for 20 and for every base that leaves
    room for four more bits) and never exceeds [baseBits + 4], whatever the
    base. *)
Theorem AdaptiveDifficulty_steps :
  (forall attempts, 1 <= attempts ->
     Ratelimit.AdaptiveDifficulty 20 attempts
     = if attempts <=? 2 then 20
       else if attempts <=? 5 then 21
       else if attempts <=? 10 then 22
       else if attempts <=? 20 then 23 else 24)
  /\ (forall a1 a2, a1 <= a2 ->
        Ratelimit.AdaptiveDifficulty 20 a1 <= Ratelimit.AdaptiveDifficulty 20 a2)
  /\ (forall baseBits a1 a2,
        GoInt.in_int baseBits -> baseBits + 4 <= GoInt.int_max -> a1 <= a2 ->
        Ratelimit.AdaptiveDifficulty baseBits a1
        <= Ratelimit.AdaptiveDifficulty baseBits a2)
  /\ (forall baseBits attempts, GoInt.in_int baseBits ->
        Ratelimit.AdaptiveDifficulty baseBits attempts <= baseBits + 4).
Proof.
  assert (H20 : GoInt.in_int 20 /\ 20 + 4 <= GoInt.int_max).
  { unfold GoInt.in_int, GoInt.int_min, GoInt.int_max. lia. }
  destruct H20 as [Hin Hroom].
  split; [|split; [|split]].
  - intros attempts _. rewrite AdaptiveDifficulty_extra by assumption.
    repeat (destruct (_ <=? _); [reflexivity|]). reflexivity.
  - intros a1 a2. apply AdaptiveDifficulty_monotone; assumption.
  - intros baseBits a1 a2. apply AdaptiveDifficulty_monotone.
  - intros baseBits attempts. apply AdaptiveDifficulty_at_most.
Qed.

Lemma AdaptiveDifficulty_steps_witness :
  Ratelimit.AdaptiveDifficulty 20 1 = 20
  /\ Ratelimit.AdaptiveDifficulty 20 3 = 21
  /\ Ratelimit.AdaptiveDifficulty 20 10 = 22
  /\ Ratelimit.AdaptiveDifficulty 20 11 = 23
  /\ Ratelimit.AdaptiveDifficulty 20 100 = 24
  /\ Ratelimit.AdaptiveDifficulty 20 5 <= Ratelimit.AdaptiveDifficulty 20 6
  /\ Ratelimit.AdaptiveDifficulty 7 21 <= 7 + 4.
Proof.
  destruct AdaptiveDifficulty_steps as (Htable & Hmono & _ & Hcap).
  split; [|split; [|split; [|split; [|split; [|split]]]]].
  - apply (Htable 1). lia.
  - apply (Htable 3). lia.
  - apply (Htable 10). lia.
  - apply (Htable 11). lia.
  - apply (Htable 100). lia.
  - apply (Hmono 5 6). lia.
  - apply (Hcap 7 21). unfold GoInt.in_int, GoInt.int_min, GoInt.int_max. lia.
Defined.

(** ** [Solve] and [Verify] *)

Section PowProperties.

Variable Sum256 : list byte -> list byte.

(** A nonce returned by the loop meets the difficulty. *)
Lemma Solve_loop_meets_bits (c : Pow.Challenge) (s : string) (maxIterations : Z)
    (fuel : nat) (i : Z) (nonce : string) :
  Pow.Solve_loop Sum256 c s maxIterations fuel i = Some nonce ->
  Pow.LeadingZeroBits (Pow.digest Sum256 s nonce) >= Pow.Bits c.
Proof.
  revert i. induction fuel as [|fuel IH]; intros i; simpl; [discriminate|].
  destruct (i <? maxIterations); [|discriminate].
  destruct (Pow.LeadingZeroBits (Pow.digest Sum256 s (Pow.Itoa i)) >=? Pow.Bits c) eqn:Hok.
  - intros [= <-]. apply Z.geb_le in Hok. lia.
  - apply IH.
Qed.

(** The fuel [Solve] passes is all the loop can use: with any more the
    result is the same, so the loop ends by its own test. *)
Lemma Solve_loop_fuel (c : Pow.Challenge) (s : string) (maxIterations : Z)
    (fuel extra : nat) (i : Z) :
  0 <= i -> GoInt.in_int maxIterations ->
  (Z.to_nat (maxIterations - i) <= fuel)%nat ->
  Pow.Solve_loop Sum256 c s maxIterations (fuel + extra) i
  = Pow.Solve_loop Sum256 c s maxIterations fuel i.
Proof.
  intros Hi Hmax. revert i Hi.
  induction fuel as [|fuel IH]; intros i Hi Hfuel.
  - destruct extra as [|extra]; [reflexivity|]. simpl.
    destruct (Z.ltb_spec i maxIterations); [lia|reflexivity].
  - simpl. destruct (Z.ltb_spec i maxIterations) as [Hlt|]; [|reflexivity].
    destruct (_ >=? _); [reflexivity|].
    rewrite add_no_overflow
      by (destruct Hmax; unfold GoInt.in_int, GoInt.int_min in *; lia).
    apply IH; lia.
Qed.

(** [Verify] accepts a nonce that meets the difficulty, for the
    challenge's own resource, inside the window the code computes. *)
Lemma Verify_accepts (now : Z) (c : Pow.Challenge) (nonce : string) :
  Pow.Ts c <= now <= GoInt.add (Pow.Ts c) (Pow.ExpiresIn c) ->
  Pow.LeadingZeroBits (Pow.digest Sum256 (Pow.StringForHash c) nonce) >= Pow.Bits c ->
  Pow.Verify Sum256 now c nonce (Pow.Resource c) = None.
Proof.
  intros [Hfrom Hto] Hbits. unfold Pow.Verify.
  rewrite String.eqb_refl. simpl.
  destruct (Z.ltb_spec now (Pow.Ts c)); [lia|].
  destruct (Z.gtb_spec now (GoInt.add (Pow.Ts c) (Pow.ExpiresIn c))); [lia|].
  destruct (Z.ltb_spec (Pow.LeadingZeroBits
                          (Pow.digest Sum256 (Pow.StringForHash c) nonce))
                       (Pow.Bits c)); [lia|reflexivity].
Qed.

(** A nonce [Solve] returns is accepted inside the window, when the end of
    the window, [c.Ts + c.ExpiresIn], is a value of [int64]. *)
Lemma Solve_then_Verify_integer_window (c : Pow.Challenge) (maxIterations : Z)
    (nonce : string) (now : Z) :
  GoInt.in_int (Pow.Ts c + Pow.ExpiresIn c) ->
  Pow.Solve Sum256 c maxIterations = Pow.Ok nonce ->
  Pow.Ts c <= now <= Pow.Ts c + Pow.ExpiresIn c ->
  Pow.Verify Sum256 now c nonce (Pow.Resource c) = None.
Proof.
  intros Hend Hsolve Hwindow.
  assert (Hsum : GoInt.add (Pow.Ts c) (Pow.ExpiresIn c) = Pow.Ts c + Pow.ExpiresIn c)
    by (apply add_no_overflow, Hend).
  apply (Verify_accepts now c nonce); [rewrite Hsum; exact Hwindow|].
  unfold Pow.Solve in Hsolve.
  destruct (Pow.Solve_loop Sum256 c (Pow.StringForHash c) maxIterations
              (Z.to_nat maxIterations) 0) as [n|] eqn:Hloop; [|discriminate].
  injection Hsolve as ->. eapply Solve_loop_meets_bits, Hloop.
Qed.

(** C1, amended. For every challenge [c] whose window ends at a value of
    [int64] ([c.Ts + c.ExpiresIn] does not overflow) and every iteration
    bound, a nonce returned by [Solve c maxIterations] is accepted by
    [Verify] for [c]'s own resource at every time [now] with
    [c.Ts <= now <= c.Ts + c.ExpiresIn]. *)
Theorem Solve_nonce_passes_Verify (c : Pow.Challenge) (maxIterations : Z)
    (nonce : string) (now : Z) :
  Pow.Solve Sum256 c maxIterations = Pow.Ok nonce ->
  GoInt.in_int (Pow.Ts c + Pow.ExpiresIn c) ->
  Pow.Ts c <= now <= Pow.Ts c + Pow.ExpiresIn c ->
  Pow.Verify Sum256 now c nonce (Pow.Resource c) = None.
Proof.
  intros Hsolve Hend Hwindow.
  exact (Solve_then_Verify_integer_window c maxIterations nonce now Hend Hsolve Hwindow).
Qed.

(** What the loop returns, given fuel for all its iterations: the first
    counter from [i] whose digest meets the difficulty, or nothing when no
    counter below the bound does. *)
Lemma Solve_loop_first (c : Pow.Challenge) (s : string) (maxIterations : Z)
    (fuel : nat) (i : Z) :
  0 <= i -> GoInt.in_int maxIterations ->
  (Z.to_nat (maxIterations - i) <= fuel)%nat ->
  match Pow.Solve_loop Sum256 c s maxIterations fuel i with
  | Some nonce =>
      exists n, i <= n < maxIterations /\ nonce = Pow.Itoa n
        /\ Pow.LeadingZeroBits (Pow.digest Sum256 s (Pow.Itoa n)) >= Pow.Bits c
        /\ forall k, i <= k < n ->
             Pow.LeadingZeroBits (Pow.digest Sum256 s (Pow.Itoa k)) < Pow.Bits c
  | None =>
      forall k, i <= k < maxIterations ->
        Pow.LeadingZeroBits (Pow.digest Sum256 s (Pow.Itoa k)) < Pow.Bits c
  end.
Proof.
  intros Hi Hmax. revert i Hi.
  induction fuel as [|fuel IH]; intros i Hi Hfuel; simpl.
  - intros k Hk. lia.
  - destruct (Z.ltb_spec i maxIterations) as [Hlt|Hge]; [|intros k Hk; lia].
    destruct (Z.geb_spec (Pow.LeadingZeroBits (Pow.digest Sum256 s (Pow.Itoa i)))
                (Pow.Bits c)) as [Hok|Hno].
    + exists i. split; [lia|]. split; [reflexivity|]. split; [lia|].
      intros k Hk. lia.
    + rewrite add_no_overflow
        by (destruct Hmax; unfold GoInt.in_int, GoInt.int_min in *; lia).
      specialize (IH (i + 1) ltac:(lia) ltac:(lia)).
      destruct (Pow.Solve_loop Sum256 c s maxIterations fuel (i + 1)) as [nonce|].
      * destruct IH as (n & Hn & Hnonce & Hbits & Hbefore).
        exists n. split; [lia|]. split; [exact Hnonce|]. split; [exact Hbits|].
        intros k Hk. destruct (Z.eq_dec k i) as [->|Hne]; [lia|].
        apply Hbefore. lia.
      * intros k Hk. destruct (Z.eq_dec k i) as [->|Hne]; [lia|].
        apply IH. lia.
Qed.

(** [Solve] returns the decimal form of the least counter below
    [maxIterations] whose digest has at least [c.Bits] leading zero bits;
    it fails, with the exhaustion error, exactly when there is none. *)
Theorem Solve_returns_least_nonce (c : Pow.Challenge) (maxIterations : Z) :
  GoInt.in_int maxIterations ->
  match Pow.Solve Sum256 c maxIterations with
  | Pow.Ok nonce =>
      exists n, 0 <= n < maxIterations /\ nonce = Pow.Itoa n
        /\ Pow.LeadingZeroBits (Pow.digest Sum256 (Pow.StringForHash c) (Pow.Itoa n))
           >= Pow.Bits c
        /\ forall k, 0 <= k < n ->
             Pow.LeadingZeroBits (Pow.digest Sum256 (Pow.StringForHash c) (Pow.Itoa k))
             < Pow.Bits c
  | Pow.Err e =>
      e = Pow.ErrNoSolution maxIterations
      /\ forall k, 0 <= k < maxIterations ->
           Pow.LeadingZeroBits (Pow.digest Sum256 (Pow.StringForHash c) (Pow.Itoa k))
           < Pow.Bits c
  end.
Proof.
  intros Hmax. unfold Pow.Solve.
  pose proof (Solve_loop_first c (Pow.StringForHash c) maxIterations
                (Z.to_nat maxIterations) 0 ltac:(lia) Hmax) as Hloop.
  rewrite Z.sub_0_r in Hloop. specialize (Hloop ltac:(lia)).
  destruct (Pow.Solve_loop Sum256 c (Pow.StringForHash c) maxIterations
              (Z.to_nat maxIterations) 0) as [nonce|].
  - exact Hloop.
  - split; [reflexivity|exact Hloop].
Qed.

(** When the end of the window, [c.Ts + c.ExpiresIn], is beyond the largest
    [int64], the sum [Verify] computes wraps below [c.Ts] and the challenge
    is reported expired at every time from [c.Ts] on. *)
Theorem Verify_window_beyond_int64 (now : Z) (c : Pow.Challenge) (nonce : string) :
  GoInt.in_int (Pow.Ts c) -> GoInt.in_int (Pow.ExpiresIn c) ->
  Pow.Ts c + Pow.ExpiresIn c > GoInt.int_max ->
  Pow.Ts c <= now ->
  Pow.Verify Sum256 now c nonce (Pow.Resource c)
  = Some (Pow.ErrExpired (Pow.Ts c) now (Pow.ExpiresIn c)).
Proof.
  intros [Htlo Hthi] [Helo Hehi] Hover Hfrom. unfold Pow.Verify.
  rewrite String.eqb_refl. simpl.
  destruct (Z.ltb_spec now (Pow.Ts c)); [lia|].
  assert (Hwrap : GoInt.add (Pow.Ts c) (Pow.ExpiresIn c) < Pow.Ts c).
  { unfold GoInt.add, GoInt.wrap, GoInt.int_min, GoInt.int_max in *.
    replace (Pow.Ts c + Pow.ExpiresIn c + 2 ^ 63)
      with ((Pow.Ts c + Pow.ExpiresIn c - 2 ^ 63) + 1 * 2 ^ 64) by lia.
    rewrite Z.mod_add by lia. rewrite Z.mod_small by lia. lia. }
  destruct (Z.gtb_spec now (GoInt.add (Pow.Ts c) (Pow.ExpiresIn c)));
    [reflexivity|lia].
Qed.

(** The three rejections of [Verify], each on its own condition. *)
Lemma Verify_resource_mismatch (now : Z) (c : Pow.Challenge)
    (nonce expectedResource : string) :
  Pow.Resource c <> expectedResource ->
  Pow.Verify Sum256 now c nonce expectedResource
  = Some (Pow.ErrResourceMismatch expectedResource (Pow.Resource c)).
Proof.
  intros Hne. unfold Pow.Verify.
  apply String.eqb_neq in Hne. rewrite Hne. reflexivity.
Qed.

Lemma Verify_not_yet_valid (now : Z) (c : Pow.Challenge) (nonce : string) :
  now < Pow.Ts c ->
  Pow.Verify Sum256 now c nonce (Pow.Resource c)
  = Some (Pow.ErrNotYetValid (Pow.Ts c) now).
Proof.
  intros Hearly. unfold Pow.Verify. rewrite String.eqb_refl. simpl.
  destruct (Z.ltb_spec now (Pow.Ts c)); [reflexivity|lia].
Qed.

Lemma Verify_expired (now : Z) (c : Pow.Challenge) (nonce : string) :
  0 <= Pow.ExpiresIn c -> GoInt.in_int (Pow.Ts c) -> GoInt.in_int now ->
  now > Pow.Ts c + Pow.ExpiresIn c ->
  Pow.Verify Sum256 now c nonce (Pow.Resource c)
  = Some (Pow.ErrExpired (Pow.Ts c) now (Pow.ExpiresIn c)).
Proof.
  intros Hwin [Hlo _] [_ Hhi] Hlate. unfold Pow.Verify.
  rewrite String.eqb_refl. simpl.
  destruct (Z.ltb_spec now (Pow.Ts c)); [lia|].
  rewrite add_no_overflow by (split; lia).
  destruct (Z.gtb_spec now (Pow.Ts c + Pow.ExpiresIn c)); [reflexivity|lia].
Qed.

Lemma expired_message_is_specific (ts now expiresIn ts' now' : Z) :
  Pow.Error (Pow.ErrExpired ts now expiresIn)
  <> Pow.Error (Pow.ErrNotYetValid ts' now').
Proof. simpl. discriminate. Qed.

(** C6. For a challenge whose resource is the expected one, [Verify] at a
    time before [c.Ts] returns the not-yet-valid error and at a time after
    [c.Ts + c.ExpiresIn] the expiration error, whatever the nonce and the
    digest; the two errors and their messages differ.  For a challenge
    whose resource is not the expected one it returns the resource-mismatch
    error, whatever the time and the nonce.  (For the expiration error the
    window of the challenge is not negative, as the data model has it, and
    the timestamps are values of [int64].) *)
Theorem Verify_rejects_out_of_window_and_mismatch (c : Pow.Challenge)
    (nonce expectedResource : string) (now : Z) :
  (Pow.Resource c = expectedResource -> now < Pow.Ts c ->
     Pow.Verify Sum256 now c nonce expectedResource
     = Some (Pow.ErrNotYetValid (Pow.Ts c) now))
  /\ (Pow.Resource c = expectedResource ->
      0 <= Pow.ExpiresIn c -> GoInt.in_int (Pow.Ts c) -> GoInt.in_int now ->
      now > Pow.Ts c + Pow.ExpiresIn c ->
        Pow.Verify Sum256 now c nonce expectedResource
        = Some (Pow.ErrExpired (Pow.Ts c) now (Pow.ExpiresIn c)))
  /\ (Pow.Resource c <> expectedResource ->
        Pow.Verify Sum256 now c nonce expectedResource
        = Some (Pow.ErrResourceMismatch expectedResource (Pow.Resource c)))
  /\ Pow.ErrExpired (Pow.Ts c) now (Pow.ExpiresIn c)
     <> Pow.ErrNotYetValid (Pow.Ts c) now
  /\ Pow.Error (Pow.ErrExpired (Pow.Ts c) now (Pow.ExpiresIn c))
     <> Pow.Error (Pow.ErrNotYetValid (Pow.Ts c) now).
Proof.
  split; [|split; [|split; [|split]]].
  - intros <-. apply Verify_not_yet_valid.
  - intros <-. apply Verify_expired.
  - apply Verify_resource_mismatch.
  - discriminate.
  - apply expired_message_is_specific.
Qed.

End PowProperties.

Lemma Solve_nonce_passes_Verify_witness :
  Pow.Solve SHA256.Sum256 Sample.challenge 1000 = Pow.Ok "28"
  /\ Pow.Verify SHA256.Sum256 1700000100 Sample.challenge "28" "quote" = None.
Proof.
  assert (Hsolve : Pow.Solve SHA256.Sum256 Sample.challenge 1000 = Pow.Ok "28")
    by (vm_compute; reflexivity).
  split; [exact Hsolve|].
  apply (Solve_nonce_passes_Verify SHA256.Sum256 Sample.challenge 1000 "28"
           1700000100 Hsolve).
  - vm_compute. split; discriminate.
  - vm_compute. split; discriminate.
Defined.

(** C1, as stated, fails: for a challenge whose window ends beyond the
    largest [int64], [Solve] returns a nonce, the time [now] lies in
    [c.Ts <= now <= c.Ts + c.ExpiresIn], and [Verify] reports the challenge
    expired, because the sum it compares with has wrapped. *)
Lemma Solve_nonce_fails_Verify_when_window_overflows :
  let c := {| Pow.Ver := "1"; Pow.Alg := "sha256"; Pow.Bits := 0;
              Pow.Ts := 1700000000; Pow.ExpiresIn := 9223372036854775807;
              Pow.Resource := "quote"; Pow.Salt := "testsalt" |} in
  let now := 1700000001 in
  Pow.Solve SHA256.Sum256 c 1000 = Pow.Ok "0"
  /\ Pow.Ts c <= now <= Pow.Ts c + Pow.ExpiresIn c
  /\ Pow.Verify SHA256.Sum256 now c "0" (Pow.Resource c)
     = Some (Pow.ErrExpired 1700000000 1700000001 9223372036854775807)
  /\ Pow.Verify SHA256.Sum256 now c "0" (Pow.Resource c) <> None.
Proof.
  cbv zeta. split; [vm_compute; reflexivity|].
  split; [vm_compute; split; discriminate|].
  split; [vm_compute; reflexivity|vm_compute; discriminate].
Qed.

Lemma Verify_rejects_out_of_window_and_mismatch_witness :
  Pow.Verify SHA256.Sum256 1700000301 Sample.challenge "28" "quote"
  = Some (Pow.ErrExpired 1700000000 1700000301 300)
  /\ Pow.Verify SHA256.Sum256 1699999999 Sample.challenge "28" "quote"
     = Some (Pow.ErrNotYetValid 1700000000 1699999999)
  /\ Pow.Verify SHA256.Sum256 1700000100 Sample.challenge "28" "different-resource"
     = Some (Pow.ErrResourceMismatch "different-resource" "quote").
Proof.
  split; [|split].
  - apply (Verify_rejects_out_of_window_and_mismatch SHA256.Sum256
             Sample.challenge "28" "quote" 1700000301).
    + reflexivity.
    + simpl; lia.
    + vm_compute; split; discriminate.
    + vm_compute; split; discriminate.
    + simpl; lia.
  - apply (Verify_rejects_out_of_window_and_mismatch SHA256.Sum256
             Sample.challenge "28" "quote" 1699999999).
    + reflexivity.
    + simpl; lia.
  - apply (Verify_rejects_out_of_window_and_mismatch SHA256.Sum256
             Sample.challenge "28" "different-resource" 1700000100).
    simpl. discriminate.
Defined.

(** ** Durations *)

Lemma Sub_same (t : Z) : Time.Sub t t = 0.
Proof.
  unfold Time.Sub, GoInt.sub. rewrite Z.sub_diag.
  change (GoInt.wrap 0) with 0. reflexivity.
Qed.


(** ** IEEE-754 binary64 *)

(** The arithmetic of [Floats.SpecFloat] at precision 53: what rounding
    does to a mantissa and an exponent, and from it the facts about
    conversions, sums, products, quotients and comparisons that the
    limiter relies on. *)
Module Binary64.

Local Abbreviation fexp := (SpecFloat.fexp IEEE.prec IEEE.emax).
Local Abbreviation digits := SpecFloat.Zdigits2.
Local Abbreviation round_aux := (SpecFloat.binary_round_aux IEEE.prec IEEE.emax).
Local Abbreviation round := (SpecFloat.binary_round IEEE.prec IEEE.emax).
Local Abbreviation normalize := (SpecFloat.binary_normalize IEEE.prec IEEE.emax).
Local Abbreviation valid := (SpecFloat.valid_binary IEEE.prec IEEE.emax).
Local Abbreviation leb := SpecFloat.SFleb.
Local Abbreviation ltb := SpecFloat.SFltb.
Local Abbreviation add := (SpecFloat.SFadd IEEE.prec IEEE.emax).
Local Abbreviation sub := (SpecFloat.SFsub IEEE.prec IEEE.emax).
Local Abbreviation mul := (SpecFloat.SFmul IEEE.prec IEEE.emax).
Local Abbreviation div := (SpecFloat.SFdiv IEEE.prec IEEE.emax).
Local Abbreviation rounded := IEEE.rounded.
Local Abbreviation sign_is := IEEE.sign_is.
Local Abbreviation finite := IEEE.finite.
Local Abbreviation below := IEEE.below.

Lemma fexp_eq (e : Z) : fexp e = Z.max (e - 53) (-1074).
Proof. reflexivity. Qed.


(** *** Binary digits *)

Lemma digits2_pos_size (p : positive) : SpecFloat.digits2_pos p = Pos.size p.
Proof. induction p as [p IH|p IH|]; cbn; [rewrite IH..|]; reflexivity. Qed.

Lemma digits_log2 (m : Z) : 0 < m -> digits m = Z.log2 m + 1.
Proof.
  destruct m as [|p|p]; try lia. intros _. cbn [SpecFloat.Zdigits2].
  rewrite digits2_pos_size. destruct p as [p|p|]; cbn; try reflexivity; lia.
Qed.

Lemma digits_zero : digits 0 = 0.
Proof. reflexivity. Qed.

Lemma digits_bounds (m : Z) : 0 < m -> 2 ^ (digits m - 1) <= m < 2 ^ digits m.
Proof.
  intros Hm. rewrite digits_log2 by exact Hm.
  replace (Z.log2 m + 1 - 1) with (Z.log2 m) by lia.
  replace (Z.log2 m + 1) with (Z.succ (Z.log2 m)) by lia.
  apply Z.log2_spec, Hm.
Qed.

Lemma digits_pos (m : Z) : 0 < m -> 0 < digits m.
Proof.
  intros Hm. rewrite digits_log2 by exact Hm. pose proof (Z.log2_nonneg m). lia.
Qed.

Lemma digits_nonneg (m : Z) : 0 <= m -> 0 <= digits m.
Proof.
  intros Hm. destruct (Z.eq_dec m 0) as [->|Hne]; [cbn; lia|].
  pose proof (digits_pos m ltac:(lia)). lia.
Qed.

Lemma digits_unique (m d : Z) : 2 ^ (d - 1) <= m < 2 ^ d -> 0 < d -> digits m = d.
Proof.
  intros Hm Hd.
  assert (Hpos : 0 < m).
  { assert (0 < 2 ^ (d - 1)) by (apply Z.pow_pos_nonneg; lia). lia. }
  rewrite digits_log2 by exact Hpos.
  assert (Z.log2 m = d - 1); [|lia].
  apply Z.log2_unique; [lia|]. replace (Z.succ (d - 1)) with d by lia. exact Hm.
Qed.

Lemma digits_le (a b : Z) : 0 <= a <= b -> digits a <= digits b.
Proof.
  intros [Ha Hab]. destruct (Z.eq_dec a 0) as [->|Hne].
  - cbn. apply digits_nonneg. lia.
  - rewrite !digits_log2 by lia. pose proof (Z.log2_le_mono a b Hab). lia.
Qed.

Lemma digits_lt_pow (m d : Z) : 0 <= m -> 0 <= d -> m < 2 ^ d -> digits m <= d.
Proof.
  intros Hm Hd Hlt. destruct (Z.eq_dec m 0) as [->|Hne]; [cbn; lia|].
  destruct (Z_lt_le_dec d (digits m)) as [Hgt|]; [|lia].
  pose proof (digits_bounds m ltac:(lia)) as [Hlo _].
  assert (2 ^ d <= 2 ^ (digits m - 1)) by (apply Z.pow_le_mono_r; lia). lia.
Qed.

Lemma digits_ge_pow (m d : Z) : 0 <= d -> 2 ^ d <= m -> d + 1 <= digits m.
Proof.
  intros Hd Hle.
  assert (Hpos : 0 < m) by (pose proof (Z.pow_pos_nonneg 2 d); lia).
  destruct (Z_lt_le_dec (digits m) (d + 1)) as [Hlt|]; [|lia].
  pose proof (digits_bounds m Hpos) as [_ Hhi]. pose proof (digits_pos m Hpos).
  assert (2 ^ digits m <= 2 ^ d) by (apply Z.pow_le_mono_r; lia). lia.
Qed.

Lemma digits_mul_pow (m k : Z) : 0 < m -> 0 <= k -> digits (m * 2 ^ k) = digits m + k.
Proof.
  intros Hm Hk. pose proof (digits_bounds m Hm) as [Hlo Hhi].
  pose proof (digits_pos m Hm).
  apply digits_unique; [|lia].
  replace (digits m + k - 1) with (digits m - 1 + k) by lia.
  rewrite !Z.pow_add_r by lia.
  assert (0 < 2 ^ k) by (apply Z.pow_pos_nonneg; lia). nia.
Qed.

Lemma digits_div_pow (m n : Z) :
  0 < m -> 0 <= n < digits m -> digits (m / 2 ^ n) = digits m - n.
Proof.
  intros Hm Hn. pose proof (digits_bounds m Hm) as [Hlo Hhi].
  assert (Hp : 0 < 2 ^ n) by (apply Z.pow_pos_nonneg; lia).
  apply digits_unique; [|lia]. split.
  - apply Z.div_le_lower_bound; [exact Hp|].
    rewrite <- Z.pow_add_r by lia. replace (n + (digits m - n - 1)) with (digits m - 1) by lia.
    exact Hlo.
  - apply Z.div_lt_upper_bound; [exact Hp|].
    rewrite <- Z.pow_add_r by lia. replace (n + (digits m - n)) with (digits m) by lia.
    exact Hhi.
Qed.

Lemma div_pow_small (m n : Z) : 0 <= m -> digits m <= n -> m / 2 ^ n = 0.
Proof.
  intros Hm Hn. apply Z.div_small. split; [exact Hm|].
  destruct (Z.eq_dec m 0) as [->|Hne]; [cbn in Hn; apply Z.pow_pos_nonneg; lia|].
  pose proof (digits_bounds m ltac:(lia)) as [_ Hhi]. pose proof (digits_pos m ltac:(lia)).
  assert (2 ^ digits m <= 2 ^ n) by (apply Z.pow_le_mono_r; lia). lia.
Qed.

Lemma digits_succ (m : Z) : 0 <= m -> digits (m + 1) <= digits m + 1.
Proof.
  intros Hm. destruct (Z.eq_dec m 0) as [->|Hne]; [vm_compute; discriminate|].
  pose proof (digits_bounds m ltac:(lia)) as [_ Hhi]. pose proof (digits_pos m ltac:(lia)).
  apply digits_lt_pow; [lia|lia|].
  rewrite Z.pow_add_r by lia. lia.
Qed.

(** *** Shifting a mantissa *)

Lemma iter_xO (p d : positive) : Z.pos (Pos.iter xO p d) = Z.pos p * 2 ^ Z.pos d.
Proof.
  induction d as [|d IH] using Pos.peano_ind.
  - cbn. lia.
  - rewrite Pos.iter_succ, Pos2Z.inj_xO, IH, Pos2Z.inj_succ, Z.pow_succ_r by lia. lia.
Qed.

(** [shl_align] lowers the exponent to [e'] when [e'] is below [e], and
    leaves the number as it is otherwise. *)
Lemma shl_align_spec (p : positive) (e e' : Z) :
  Z.pos (fst (SpecFloat.shl_align p e e')) = Z.pos p * 2 ^ Z.max 0 (e - e')
  /\ snd (SpecFloat.shl_align p e e') = Z.min e e'.
Proof.
  unfold SpecFloat.shl_align. destruct (e' - e) as [|d|d] eqn:Hd; cbn [fst snd].
  - replace (Z.max 0 (e - e')) with 0 by lia. cbn. lia.
  - replace (Z.max 0 (e - e')) with 0 by lia. cbn. lia.
  - rewrite iter_xO. replace (Z.max 0 (e - e')) with (Z.pos d) by lia. lia.
Qed.

Lemma iter_pos_iter {A : Type} (f : A -> A) (n : positive) (x : A) :
  SpecFloat.iter_pos f n x = Pos.iter f x n.
Proof.
  revert x. induction n as [n IH|n IH|]; intros x; cbn [SpecFloat.iter_pos Pos.iter].
  - rewrite !IH, !Pos.iter_swap. reflexivity.
  - rewrite !IH. reflexivity.
  - reflexivity.
Qed.

Lemma shr_1_m (mrs : SpecFloat.shr_record) :
  0 <= SpecFloat.shr_m mrs ->
  SpecFloat.shr_m (SpecFloat.shr_1 mrs) = SpecFloat.shr_m mrs / 2.
Proof.
  destruct mrs as [m r s]. cbn [SpecFloat.shr_m]. intros Hm.
  rewrite <- Z.div2_div. destruct m as [|[p|p|]|p]; try lia; reflexivity.
Qed.

(** The mantissa after [n] right shifts. *)
Lemma shr_iter_m (n : positive) (mrs : SpecFloat.shr_record) :
  0 <= SpecFloat.shr_m mrs ->
  SpecFloat.shr_m (SpecFloat.iter_pos SpecFloat.shr_1 n mrs)
  = SpecFloat.shr_m mrs / 2 ^ Z.pos n.
Proof.
  intros Hm. rewrite iter_pos_iter.
  induction n as [|n IH] using Pos.peano_ind.
  - cbn [Pos.iter]. rewrite shr_1_m by exact Hm. reflexivity.
  - rewrite Pos.iter_succ, shr_1_m.
    + rewrite IH, Pos2Z.inj_succ, Z.pow_succ_r, Z.div_div by lia.
      f_equal. lia.
    + rewrite IH. apply Z.div_pos; [exact Hm|]. apply Z.pow_pos_nonneg; lia.
Qed.

(** Shifting out zero bits only loses nothing. *)
Lemma shr_iter_exact (n : positive) (k : Z) :
  0 <= k ->
  SpecFloat.iter_pos SpecFloat.shr_1 n
    {| SpecFloat.shr_m := k * 2 ^ Z.pos n; SpecFloat.shr_r := false;
       SpecFloat.shr_s := false |}
  = {| SpecFloat.shr_m := k; SpecFloat.shr_r := false; SpecFloat.shr_s := false |}.
Proof.
  intros Hk. rewrite iter_pos_iter. revert k Hk.
  assert (Hone : forall k, 0 <= k ->
            SpecFloat.shr_1 {| SpecFloat.shr_m := k * 2; SpecFloat.shr_r := false;
                               SpecFloat.shr_s := false |}
            = {| SpecFloat.shr_m := k; SpecFloat.shr_r := false;
                 SpecFloat.shr_s := false |}).
  { intros k Hk. rewrite Z.mul_comm. destruct k as [|p|p]; try lia; reflexivity. }
  induction n as [|n IH] using Pos.peano_ind; intros k Hk.
  - cbn [Pos.iter]. change (2 ^ 1) with 2. apply Hone, Hk.
  - rewrite Pos.iter_succ, Pos2Z.inj_succ, Z.pow_succ_r by lia.
    replace (k * (2 * 2 ^ Z.pos n)) with (k * 2 * 2 ^ Z.pos n) by ring.
    rewrite IH by lia. apply Hone, Hk.
Qed.

Lemma shr_record_of_loc_m (m : Z) (l : SpecFloat.location) :
  SpecFloat.shr_m (SpecFloat.shr_record_of_loc m l) = m.
Proof. destruct l as [|[]]; reflexivity. Qed.

Lemma loc_of_shr_record_of_loc (m : Z) (l : SpecFloat.location) :
  SpecFloat.loc_of_shr_record (SpecFloat.shr_record_of_loc m l) = l.
Proof. destruct l as [|[]]; reflexivity. Qed.

Lemma round_nearest_even_bounds (m : Z) (l : SpecFloat.location) :
  m <= SpecFloat.round_nearest_even m l <= m + 1.
Proof.
  unfold SpecFloat.round_nearest_even.
  destruct l as [|[]]; try lia. destruct (Z.even m); lia.
Qed.

(** What [shr] leaves of a mantissa shifted by [n] places, and its exponent;
    when the places shifted out are all zero and nothing was lost before,
    the result is exact. *)
Lemma shr_spec (m e n : Z) (l : SpecFloat.location) :
  0 <= m ->
  let k := Z.max 0 n in
  let out := SpecFloat.shr (SpecFloat.shr_record_of_loc m l) e n in
  SpecFloat.shr_m (fst out) = m / 2 ^ k
  /\ snd out = e + k
  /\ (l = SpecFloat.loc_Exact -> m mod 2 ^ k = 0 ->
      SpecFloat.loc_of_shr_record (fst out) = SpecFloat.loc_Exact).
Proof.
  intros Hm k out. subst k out. unfold SpecFloat.shr.
  destruct n as [|p|p]; cbn [fst snd].
  - change (Z.max 0 0) with 0. rewrite shr_record_of_loc_m, Z.pow_0_r, Z.div_1_r.
    split; [reflexivity|]. split; [lia|]. intros -> _. reflexivity.
  - replace (Z.max 0 (Z.pos p)) with (Z.pos p) by lia.
    rewrite shr_iter_m by (rewrite shr_record_of_loc_m; exact Hm).
    rewrite shr_record_of_loc_m. split; [reflexivity|]. split; [reflexivity|].
    intros -> Hmod. cbn [SpecFloat.shr_record_of_loc].
    assert (Hdiv : m = m / 2 ^ Z.pos p * 2 ^ Z.pos p).
    { pose proof (Z.div_mod m (2 ^ Z.pos p)) as Hdm.
      assert (2 ^ Z.pos p <> 0) by (pose proof (Z.pow_pos_nonneg 2 (Z.pos p)); lia).
      lia. }
    rewrite Hdiv at 1. rewrite shr_iter_exact; [reflexivity|].
    apply Z.div_pos; [exact Hm|]. apply Z.pow_pos_nonneg; lia.
  - replace (Z.max 0 (Z.neg p)) with 0 by lia.
    rewrite shr_record_of_loc_m, Z.pow_0_r, Z.div_1_r.
    split; [reflexivity|]. split; [lia|]. intros -> _. reflexivity.
Qed.

(** *** Rounding *)

(** [binary_round_aux] in arithmetic: the mantissa is shifted to the
    exponent of its format, rounded to [m1], one of the two integers
    around the quotient, and shifted once more if the rounding carried. *)
Lemma round_aux_spec (sx : bool) (mx ex : Z) (lx : SpecFloat.location) :
  0 <= mx ->
  let e1 := Z.max ex (fexp (digits mx + ex)) in
  let f := mx / 2 ^ (e1 - ex) in
  exists m1,
    f <= m1 <= f + 1
    /\ (lx = SpecFloat.loc_Exact -> mx mod 2 ^ (e1 - ex) = 0 -> m1 = f)
    /\ let e2 := Z.max e1 (fexp (digits m1 + e1)) in
       round_aux sx mx ex lx = rounded sx (m1 / 2 ^ (e2 - e1)) e2.
Proof.
  intros Hmx e1 f. unfold SpecFloat.binary_round_aux, SpecFloat.shr_fexp.
  pose proof (shr_spec mx ex (fexp (digits mx + ex) - ex) lx Hmx) as Hfirst.
  cbv zeta in Hfirst.
  replace (Z.max 0 (fexp (digits mx + ex) - ex)) with (e1 - ex) in Hfirst by (unfold e1; lia).
  destruct (SpecFloat.shr (SpecFloat.shr_record_of_loc mx lx) ex
              (fexp (digits mx + ex) - ex)) as [mrs1 e1'].
  cbn [fst snd] in Hfirst. destruct Hfirst as (Hm1 & He1 & Hexact).
  replace (ex + (e1 - ex)) with e1 in He1 by lia. subst e1'.
  set (m1 := SpecFloat.round_nearest_even (SpecFloat.shr_m mrs1)
               (SpecFloat.loc_of_shr_record mrs1)).
  pose proof (round_nearest_even_bounds (SpecFloat.shr_m mrs1)
                (SpecFloat.loc_of_shr_record mrs1)) as Hround.
  fold m1 in Hround. rewrite Hm1 in Hround. fold f in Hround.
  assert (Hf : 0 <= f).
  { apply Z.div_pos; [exact Hmx|]. apply Z.pow_pos_nonneg; unfold e1; lia. }
  exists m1. split; [exact Hround|]. split.
  - intros Hlx Hmod. unfold m1. rewrite (Hexact Hlx Hmod). cbn. exact Hm1.
  - cbv zeta.
    pose proof (shr_spec m1 e1 (fexp (digits m1 + e1) - e1) SpecFloat.loc_Exact
                  ltac:(lia)) as Hsecond.
    cbv zeta in Hsecond.
    replace (Z.max 0 (fexp (digits m1 + e1) - e1))
      with (Z.max e1 (fexp (digits m1 + e1)) - e1) in Hsecond by lia.
    destruct (SpecFloat.shr (SpecFloat.shr_record_of_loc m1 SpecFloat.loc_Exact) e1
                (fexp (digits m1 + e1) - e1)) as [mrs2 e2'].
    cbn [fst snd] in Hsecond. destruct Hsecond as (Hm2 & He2 & _).
    replace (e1 + (Z.max e1 (fexp (digits m1 + e1)) - e1))
      with (Z.max e1 (fexp (digits m1 + e1))) in He2 by lia.
    subst e2'. rewrite Hm2. reflexivity.
Qed.

Lemma rounded_sign (sx : bool) (m e : Z) : 0 <= m -> sign_is sx (rounded sx m e).
Proof.
  intros Hm. destruct m as [|p|p]; cbn [rounded sign_is]; [reflexivity| |lia].
  destruct (e <=? 971); reflexivity.
Qed.

Lemma rounded_finite (sx : bool) (m e : Z) : 0 <= m -> e <= 971 -> finite (rounded sx m e).
Proof.
  intros Hm He. destruct m as [|p|p]; cbn [rounded finite]; [exact I| |lia].
  destruct (Z.leb_spec e 971); [exact I|lia].
Qed.


Lemma round_aux_sign (sx : bool) (mx ex : Z) (lx : SpecFloat.location) :
  0 <= mx -> sign_is sx (round_aux sx mx ex lx).
Proof.
  intros Hmx. destruct (round_aux_spec sx mx ex lx Hmx) as (m1 & Hm1 & _ & ->).
  apply rounded_sign. apply Z.div_pos; [|apply Z.pow_pos_nonneg; lia].
  assert (0 <= mx / 2 ^ (Z.max ex (fexp (digits mx + ex)) - ex)); [|lia].
  apply Z.div_pos; [exact Hmx|]. apply Z.pow_pos_nonneg; lia.
Qed.

(** No overflow for a number below [2^1023]. *)
Lemma round_aux_finite (sx : bool) (mx ex : Z) (lx : SpecFloat.location) :
  0 <= mx -> ex <= 971 -> digits mx + ex <= 1023 -> finite (round_aux sx mx ex lx).
Proof.
  intros Hmx Hex Hmag. destruct (round_aux_spec sx mx ex lx Hmx) as (m1 & Hm1 & _ & ->).
  set (e1 := Z.max ex (fexp (digits mx + ex))) in *.
  set (f := mx / 2 ^ (e1 - ex)) in *.
  assert (Hp : 0 < 2 ^ (e1 - ex)) by (apply Z.pow_pos_nonneg; unfold e1; lia).
  assert (Hf : 0 <= f) by (apply Z.div_pos; [exact Hmx|exact Hp]).
  apply rounded_finite.
  - apply Z.div_pos; [lia|apply Z.pow_pos_nonneg; lia].
  - assert (Hd1 : digits m1 + e1 <= Z.max (digits mx + ex) e1 + 1).
    { assert (Hdm : digits m1 <= digits f + 1).
      { etransitivity; [apply (digits_le m1 (f + 1)); lia|apply digits_succ, Hf]. }
      destruct (Z_lt_le_dec (e1 - ex) (digits mx)) as [Hlt|Hge].
      - assert (Hpos : 0 < mx) by (destruct (Z.eq_dec mx 0) as [->|]; [cbn in Hlt; unfold e1 in *; lia|lia]).
        unfold f in Hdm. rewrite digits_div_pow in Hdm by (unfold e1 in *; lia). lia.
      - unfold f in Hdm. rewrite div_pow_small in Hdm by lia. cbn in Hdm. lia. }
    unfold e1 in *. rewrite !fexp_eq in *. lia.
Qed.


(** [binary_round] in arithmetic: the mantissa is brought to the exponent
    [E] of its format, by a left shift that is exact or by a right shift
    that is rounded. *)
Lemma round_spec (sx : bool) (p : positive) (e : Z) :
  let E := fexp (digits (Z.pos p) + e) in
  let f := Z.pos p * 2 ^ Z.max 0 (e - E) / 2 ^ Z.max 0 (E - e) in
  exists m1,
    f <= m1 <= f + 1
    /\ ((Z.pos p * 2 ^ Z.max 0 (e - E)) mod 2 ^ Z.max 0 (E - e) = 0 -> m1 = f)
    /\ let e2 := Z.max E (fexp (digits m1 + E)) in
       round sx p e = rounded sx (m1 / 2 ^ (e2 - E)) e2.
Proof.
  intros E f. unfold SpecFloat.binary_round.
  change (Z.pos (SpecFloat.digits2_pos p)) with (digits (Z.pos p)). fold E.
  pose proof (shl_align_spec p e E) as Halign.
  destruct (SpecFloat.shl_align p e E) as [mz ez]. cbn [fst snd] in Halign.
  destruct Halign as [Hmz Hez].
  assert (Hdz : digits (Z.pos mz) + ez = digits (Z.pos p) + e).
  { rewrite Hmz, digits_mul_pow by lia. lia. }
  destruct (round_aux_spec sx (Z.pos mz) ez SpecFloat.loc_Exact ltac:(lia))
    as (m1 & Hm1 & Hexact & Hout).
  cbv zeta in Hout. rewrite Hout. clear Hout.
  rewrite Hdz in *. fold E in Hm1, Hexact |- *.
  replace (Z.max ez E) with E in * by lia.
  replace (E - ez) with (Z.max 0 (E - e)) in * by lia.
  rewrite Hmz in Hm1, Hexact. fold f in Hm1, Hexact.
  exists m1. split; [exact Hm1|]. split; [exact (Hexact eq_refl)|reflexivity].
Qed.

Lemma round_sign (sx : bool) (p : positive) (e : Z) : sign_is sx (round sx p e).
Proof.
  unfold SpecFloat.binary_round. destruct (SpecFloat.shl_align _ _ _) as [mz ez].
  apply round_aux_sign. lia.
Qed.


Lemma round_finite (sx : bool) (p : positive) (e : Z) :
  digits (Z.pos p) + e <= 1023 -> finite (round sx p e).
Proof.
  intros Hmag. unfold SpecFloat.binary_round.
  pose proof (shl_align_spec p e (fexp (Z.pos (SpecFloat.digits2_pos p) + e))) as Halign.
  change (Z.pos (SpecFloat.digits2_pos p)) with (digits (Z.pos p)) in *.
  destruct (SpecFloat.shl_align p e _) as [mz ez]. cbn [fst snd] in Halign.
  destruct Halign as [Hmz Hez].
  assert (Hdz : digits (Z.pos mz) + ez = digits (Z.pos p) + e).
  { rewrite Hmz, digits_mul_pow by lia. lia. }
  apply round_aux_finite; [lia| |lia].
  rewrite fexp_eq in Hez. lia.
Qed.

Lemma normalize_sign (m e : Z) : 0 <= m -> sign_is false (normalize m e false).
Proof.
  intros Hm. destruct m as [|p|p]; cbn [SpecFloat.binary_normalize]; try lia.
  - reflexivity.
  - apply round_sign.
Qed.


Lemma normalize_finite (m e : Z) (sz : bool) :
  digits m + e <= 1023 -> finite (normalize m e sz).
Proof.
  destruct m as [|p|p]; cbn [SpecFloat.binary_normalize]; intros Hmag;
    [exact I|apply round_finite; exact Hmag..].
Qed.

(** *** Numbers in canonical form *)



(** *** Comparisons *)


Lemma leb_finite (m1 : positive) (e1 : Z) (m2 : positive) (e2 : Z) :
  leb (SpecFloat.S754_finite false m1 e1) (SpecFloat.S754_finite false m2 e2) = true
  <-> e1 < e2 \/ (e1 = e2 /\ Z.pos m1 <= Z.pos m2).
Proof.
  unfold SpecFloat.SFleb, SpecFloat.SFcompare.
  change (Pos.compare_cont Eq m1 m2) with (Pos.compare m1 m2).
  destruct (Z.compare_spec e1 e2) as [Heq|Hlt|Hgt].
  - destruct (Pos.compare_spec m1 m2) as [Hm|Hm|Hm]; split; intros H; try reflexivity;
      try discriminate H; try lia.
  - split; [lia|reflexivity].
  - split; [discriminate|lia].
Qed.

Lemma ltb_finite (m1 : positive) (e1 : Z) (m2 : positive) (e2 : Z) :
  ltb (SpecFloat.S754_finite false m1 e1) (SpecFloat.S754_finite false m2 e2) = true
  <-> e1 < e2 \/ (e1 = e2 /\ Z.pos m1 < Z.pos m2).
Proof.
  unfold SpecFloat.SFltb, SpecFloat.SFcompare.
  change (Pos.compare_cont Eq m1 m2) with (Pos.compare m1 m2).
  destruct (Z.compare_spec e1 e2) as [Heq|Hlt|Hgt].
  - destruct (Pos.compare_spec m1 m2) as [Hm|Hm|Hm]; split; intros H; try reflexivity;
      try discriminate H; try lia.
  - split; [lia|reflexivity].
  - split; [discriminate|lia].
Qed.

(** A number that is not negative is at least zero. *)
Lemma zero_leb (x : SpecFloat.spec_float) :
  sign_is false x -> leb (SpecFloat.S754_zero false) x = true.
Proof. destruct x as [s|s| |s m e]; cbn; intros Hs; try subst s; try reflexivity; contradiction. Qed.

Lemma leb_refl (x : SpecFloat.spec_float) : sign_is false x -> leb x x = true.
Proof.
  destruct x as [s|s| |s m e]; cbn [sign_is]; intros Hs; try subst s; try reflexivity;
    try contradiction.
  apply leb_finite. right. split; [reflexivity|lia].
Qed.



(** *** Rounding does not pass a number of the format *)



(** *** Exact cases and magnitudes *)

(** The second shift of [binary_round_aux], taken when the rounding
    carried into one more digit, keeps the number positive and of the
    same magnitude. *)
Lemma renorm (m1 E : Z) :
  0 < m1 -> -1074 <= E ->
  let e2 := Z.max E (fexp (digits m1 + E)) in
  0 < m1 / 2 ^ (e2 - E) /\ digits (m1 / 2 ^ (e2 - E)) + e2 = digits m1 + E.
Proof.
  intros Hm1 HE e2. pose proof (digits_pos m1 Hm1) as Hd.
  assert (Hk : 0 <= e2 - E < digits m1) by (unfold e2; rewrite fexp_eq; lia).
  pose proof (digits_div_pow m1 (e2 - E) Hm1 Hk) as Hdd.
  split; [|lia].
  destruct (Z_lt_le_dec 0 (m1 / 2 ^ (e2 - E))) as [|Hle]; [assumption|].
  assert (Hz : m1 / 2 ^ (e2 - E) = 0).
  { assert (0 <= m1 / 2 ^ (e2 - E))
      by (apply Z.div_pos; [lia|apply Z.pow_pos_nonneg; lia]). lia. }
  rewrite Hz in Hdd. cbn in Hdd. lia.
Qed.

(** The magnitude after the first shift and the rounding. *)
Lemma first_shift_digits (mx ex m1 : Z) :
  0 <= mx ->
  let e1 := Z.max ex (fexp (digits mx + ex)) in
  mx / 2 ^ (e1 - ex) <= m1 <= mx / 2 ^ (e1 - ex) + 1 ->
  digits m1 + e1 <= Z.max (digits mx + ex) e1 + 1.
Proof.
  intros Hmx e1 Hm1. set (f := mx / 2 ^ (e1 - ex)) in *.
  assert (Hp : 0 < 2 ^ (e1 - ex)) by (apply Z.pow_pos_nonneg; unfold e1; lia).
  assert (Hf : 0 <= f) by (apply Z.div_pos; [exact Hmx|exact Hp]).
  assert (Hdm : digits m1 <= digits f + 1).
  { etransitivity; [apply (digits_le m1 (f + 1)); lia|apply digits_succ, Hf]. }
  destruct (Z_lt_le_dec (e1 - ex) (digits mx)) as [Hlt|Hge].
  - assert (Hpos : 0 < mx).
    { destruct (Z.eq_dec mx 0) as [->|]; [cbn in Hlt; unfold e1 in *; lia|lia]. }
    unfold f in Hdm. rewrite digits_div_pow in Hdm by (unfold e1 in *; lia). lia.
  - unfold f in Hdm. rewrite div_pow_small in Hdm by lia. cbn in Hdm. lia.
Qed.

(** The magnitude of a rounded number is at most one digit above the
    magnitude of what was rounded. *)
Lemma round_aux_magnitude (sx : bool) (mx ex : Z) (lx : SpecFloat.location)
    (s : bool) (m : positive) (e : Z) :
  0 <= mx ->
  round_aux sx mx ex lx = SpecFloat.S754_finite s m e ->
  digits (Z.pos m) + e <= Z.max (digits mx + ex) (Z.max ex (fexp (digits mx + ex))) + 1.
Proof.
  intros Hmx Hout.
  destruct (round_aux_spec sx mx ex lx Hmx) as (m1 & Hm1 & _ & Hspec).
  cbv zeta in Hspec. rewrite Hspec in Hout. clear Hspec.
  pose proof (first_shift_digits mx ex m1 Hmx Hm1) as Hmag. cbv zeta in Hmag.
  set (e1 := Z.max ex (fexp (digits mx + ex))) in *.
  assert (HE : -1074 <= e1) by (unfold e1; rewrite fexp_eq; lia).
  destruct (Z_lt_le_dec 0 m1) as [Hpos|Hz].
  - destruct (renorm m1 e1 Hpos HE) as [Hm2 Hd2]. cbv zeta in Hm2, Hd2.
    destruct (m1 / 2 ^ (Z.max e1 (fexp (digits m1 + e1)) - e1)) as [|p|p] eqn:Hq;
      cbn [rounded] in Hout; try discriminate Hout.
    destruct (Z.max e1 (fexp (digits m1 + e1)) <=? 971); [|discriminate Hout].
    injection Hout as _ <- <-. lia.
  - assert (Hm0 : m1 = 0).
    { assert (0 <= mx / 2 ^ (e1 - ex)); [|lia].
      apply Z.div_pos; [exact Hmx|apply Z.pow_pos_nonneg; unfold e1; lia]. }
    rewrite Hm0, Zdiv_0_l in Hout. discriminate Hout.
Qed.

(** Rounding is exact when the mantissa fits the format: only zero bits
    are shifted out. *)
Lemma round_exact (sx : bool) (p : positive) (e : Z) :
  let E := fexp (digits (Z.pos p) + e) in
  (Z.pos p * 2 ^ Z.max 0 (e - E)) mod 2 ^ Z.max 0 (E - e) = 0 ->
  E <= 971 ->
  exists m : positive,
    Z.pos m = Z.pos p * 2 ^ Z.max 0 (e - E) / 2 ^ Z.max 0 (E - e)
    /\ round sx p e = SpecFloat.S754_finite sx m E.
Proof.
  intros E Hmod HE.
  destruct (round_spec sx p e) as (m1 & _ & Hexact & Hout). cbv zeta in *. fold E in Hexact, Hout.
  specialize (Hexact Hmod). rewrite Hout. clear Hout.
  set (j := Z.max 0 (e - E)) in *. set (n := Z.max 0 (E - e)) in *.
  assert (Hpn : 0 < 2 ^ n) by (apply Z.pow_pos_nonneg; lia).
  assert (Hpj : 0 < 2 ^ j) by (apply Z.pow_pos_nonneg; lia).
  assert (Hmul : m1 * 2 ^ n = Z.pos p * 2 ^ j).
  { pose proof (Z.div_mod (Z.pos p * 2 ^ j) (2 ^ n) ltac:(lia)) as Hdm.
    rewrite Hmod in Hdm. rewrite Hexact. lia. }
  assert (Hpos : 0 < m1) by nia.
  assert (Hd : digits m1 + E = digits (Z.pos p) + e).
  { pose proof (digits_mul_pow m1 n Hpos ltac:(lia)) as H1.
    pose proof (digits_mul_pow (Z.pos p) j ltac:(lia) ltac:(lia)) as H2.
    rewrite Hmul in H1. lia. }
  rewrite Hd. fold E. rewrite Z.max_id, Z.sub_diag, Z.pow_0_r, Z.div_1_r.
  destruct m1 as [|m|m]; try lia.
  exists m. split; [exact Hexact|].
  cbn [rounded]. destruct (Z.leb_spec E 971); [reflexivity|lia].
Qed.

(** A positive number well above the subnormal range rounds to a
    positive number, with an exponent that is at least the one of its
    format. *)
Lemma round_lower (p : positive) (e : Z) :
  -1021 <= digits (Z.pos p) + e ->
  match round false p e with
  | SpecFloat.S754_finite s _ e2 => s = false /\ fexp (digits (Z.pos p) + e) <= e2
  | SpecFloat.S754_infinity s => s = false
  | _ => False
  end.
Proof.
  intros Hnormal.
  destruct (round_spec false p e) as (m1 & Hm1 & _ & ->). cbv zeta in *.
  set (E := fexp (digits (Z.pos p) + e)) in *.
  assert (HE : E = digits (Z.pos p) + e - 53) by (unfold E; rewrite fexp_eq; lia).
  pose proof (digits_pos (Z.pos p) ltac:(lia)) as Hdp.
  assert (Hf : 0 < Z.pos p * 2 ^ Z.max 0 (e - E) / 2 ^ Z.max 0 (E - e)).
  { destruct (Z_le_gt_dec E e) as [Hcase|Hcase].
    - replace (Z.max 0 (E - e)) with 0 by lia. rewrite Z.pow_0_r, Z.div_1_r.
      apply Z.mul_pos_pos; [lia|apply Z.pow_pos_nonneg; lia].
    - replace (Z.max 0 (e - E)) with 0 by lia. rewrite Z.pow_0_r, Z.mul_1_r.
      replace (Z.max 0 (E - e)) with (E - e) by lia.
      pose proof (digits_div_pow (Z.pos p) (E - e) ltac:(lia) ltac:(lia)) as Hd.
      destruct (Z_lt_le_dec 0 (Z.pos p / 2 ^ (E - e))) as [|Hle]; [assumption|].
      assert (Hz : Z.pos p / 2 ^ (E - e) = 0).
      { assert (0 <= Z.pos p / 2 ^ (E - e))
          by (apply Z.div_pos; [lia|apply Z.pow_pos_nonneg; lia]). lia. }
      rewrite Hz in Hd. change (digits 0) with 0 in Hd. lia. }
  destruct (renorm m1 E ltac:(lia) ltac:(lia)) as [Hm2 _]. cbv zeta in Hm2.
  destruct (m1 / 2 ^ (Z.max E (fexp (digits m1 + E)) - E)) as [|m2|m2]; try lia.
  cbn [rounded]. destruct (Z.max E (fexp (digits m1 + E)) <=? 971).
  - split; [reflexivity|lia].
  - reflexivity.
Qed.



(** *** The operations on numbers that are not negative *)

Lemma below_finite (K : Z) (x : SpecFloat.spec_float) : below K x -> finite x.
Proof. destruct x; cbn; trivial. Qed.





Lemma round_magnitude (sx : bool) (p : positive) (e : Z) (s : bool) (m : positive) (e2 : Z) :
  round sx p e = SpecFloat.S754_finite s m e2 ->
  digits (Z.pos m) + e2
  <= Z.max (digits (Z.pos p) + e) (fexp (digits (Z.pos p) + e)) + 1.
Proof.
  unfold SpecFloat.binary_round.
  pose proof (shl_align_spec p e (fexp (Z.pos (SpecFloat.digits2_pos p) + e))) as Halign.
  change (Z.pos (SpecFloat.digits2_pos p)) with (digits (Z.pos p)) in *.
  destruct (SpecFloat.shl_align p e _) as [mz ez]. cbn [fst snd] in Halign.
  destruct Halign as [Hmz Hez]. intros Hout.
  pose proof (round_aux_magnitude sx (Z.pos mz) ez SpecFloat.loc_Exact s m e2
                ltac:(lia) Hout) as Hmag.
  assert (Hd : digits (Z.pos mz) + ez = digits (Z.pos p) + e).
  { rewrite Hmz, digits_mul_pow by lia. lia. }
  rewrite Hd in Hmag. lia.
Qed.

Lemma normalize_below (K m e : Z) (sz : bool) :
  digits m + e < K -> fexp (digits m + e) < K -> K <= 1024 ->
  below K (normalize m e sz).
Proof.
  intros Hmag Hexp HK.
  pose proof (normalize_finite m e sz ltac:(lia)) as Hfin.
  destruct m as [|p|p]; cbn [SpecFloat.binary_normalize] in *; [exact I| |].
  - pose proof (round_magnitude false p e) as Hbound.
    destruct (round false p e) as [s|s| |s m2 e2]; cbn [below finite] in *;
      try contradiction; [exact I|].
    specialize (Hbound s m2 e2 eq_refl). lia.
  - pose proof (round_magnitude true p e) as Hbound.
    change (digits (Z.neg p)) with (digits (Z.pos p)) in *.
    destruct (round true p e) as [s|s| |s m2 e2]; cbn [below finite] in *;
      try contradiction; [exact I|].
    specialize (Hbound s m2 e2 eq_refl). lia.
Qed.

(** *** Converted integers *)


Lemma of_int_sign (z : Z) : 0 <= z -> sign_is false (IEEE.of_int z).
Proof. apply normalize_sign. Qed.

Lemma int_digits (z : Z) : GoInt.in_int z -> digits z <= 64.
Proof.
  unfold GoInt.in_int, GoInt.int_min, GoInt.int_max. intros Hz.
  destruct z as [|p|p]; [cbn; lia| |].
  - apply digits_lt_pow; lia.
  - change (digits (Z.neg p)) with (digits (Z.pos p)). apply digits_lt_pow; lia.
Qed.

Lemma of_int_below (z : Z) : GoInt.in_int z -> below 65 (IEEE.of_int z).
Proof.
  intros Hz. pose proof (int_digits z Hz). apply normalize_below; [lia| |lia].
  rewrite fexp_eq. lia.
Qed.

Lemma of_int_finite (z : Z) : GoInt.in_int z -> finite (IEEE.of_int z).
Proof. intros Hz. eapply below_finite, of_int_below, Hz. Qed.

(** An integer below [2^53] is converted exactly: to the normal number
    with the integer's bits at the top of the mantissa. *)
Lemma of_int_exact (z : Z) :
  0 < z < 2 ^ 53 ->
  exists m : positive,
    Z.pos m = z * 2 ^ (53 - digits z)
    /\ IEEE.of_int z = SpecFloat.S754_finite false m (digits z - 53).
Proof.
  intros Hz. destruct z as [|p|p]; try lia.
  pose proof (digits_pos (Z.pos p) ltac:(lia)) as Hd0.
  pose proof (digits_lt_pow (Z.pos p) 53 ltac:(lia) ltac:(lia) ltac:(lia)) as Hd.
  assert (HE : fexp (digits (Z.pos p) + 0) = digits (Z.pos p) - 53)
    by (rewrite fexp_eq; lia).
  destruct (round_exact false p 0) as (m & Hm & Hout); cbv zeta.
  - rewrite HE. replace (Z.max 0 (digits (Z.pos p) - 53 - 0)) with 0 by lia.
    change (2 ^ 0) with 1. apply Z.mod_1_r.
  - rewrite HE. lia.
  - rewrite HE in Hm, Hout. exists m. split; [|exact Hout].
    rewrite Hm. replace (Z.max 0 (digits (Z.pos p) - 53 - 0)) with 0 by lia.
    change (2 ^ 0) with 1. rewrite Z.div_1_r. f_equal. f_equal. lia.
Qed.


Lemma of_int_zero : IEEE.of_int 0 = SpecFloat.S754_zero false.
Proof. reflexivity. Qed.

Lemma of_int_one : IEEE.of_int 1 = SpecFloat.S754_finite false 4503599627370496 (-52).
Proof. vm_compute. reflexivity. Qed.

(** A positive integer is converted to a number that is at least one. *)
Lemma one_leb_of_int (c : Z) : 1 <= c -> leb (IEEE.of_int 1) (IEEE.of_int c) = true.
Proof.
  intros Hc. destruct (Z.eq_dec c 1) as [->|Hne]; [vm_compute; reflexivity|].
  rewrite of_int_one. destruct c as [|p|p]; try lia.
  pose proof (digits_ge_pow (Z.pos p) 1 ltac:(lia) ltac:(change (2 ^ 1) with 2; lia)) as Hd.
  pose proof (round_lower p 0 ltac:(lia)) as Hlow.
  change (IEEE.of_int (Z.pos p)) with (round false p 0).
  destruct (round false p 0) as [s|s| |s m e]; try contradiction.
  - subst s. reflexivity.
  - destruct Hlow as [-> Hexp]. rewrite fexp_eq in Hexp. apply leb_finite. lia.
Qed.

(** A positive integer is converted to a positive number or to infinity. *)
Lemma of_int_positive (c : Z) :
  1 <= c ->
  match IEEE.of_int c with
  | SpecFloat.S754_finite s _ _ | SpecFloat.S754_infinity s => s = false
  | _ => False
  end.
Proof.
  intros Hc. pose proof (one_leb_of_int c Hc) as Hle.
  pose proof (of_int_sign c ltac:(lia)) as Hs. rewrite of_int_one in Hle.
  destruct (IEEE.of_int c) as [s|s| |s m e]; cbn [sign_is] in Hs; try contradiction;
    try exact Hs. subst s. discriminate Hle.
Qed.

(** *** Elapsed seconds *)

Lemma Seconds_zero :
  Time.Seconds (float64 := IEEE.binary64) 0 = SpecFloat.S754_zero false.
Proof. vm_compute. reflexivity. Qed.


(** *** Taking one token *)


(** *** Whole tokens *)

Lemma leb_not_ltb (x y : SpecFloat.spec_float) :
  sign_is false x -> sign_is false y -> leb x y = true -> ltb y x = false.
Proof.
  destruct x as [sx|sx| |sx mx ex], y as [sy|sy| |sy my ey]; cbn [sign_is];
    intros Hx Hy; try contradiction; subst; try reflexivity; try discriminate.
  intros Hle. apply leb_finite in Hle.
  destruct (ltb (SpecFloat.S754_finite false my ey) (SpecFloat.S754_finite false mx ex))
    eqn:Hlt; [|reflexivity].
  apply ltb_finite in Hlt. lia.
Qed.

(** No time has passed: nothing is added to the tokens. *)
Lemma nothing_earned (x : SpecFloat.spec_float) (r : Z) :
  sign_is false x -> GoInt.in_int r ->
  add x (mul (Time.Seconds (float64 := IEEE.binary64) 0) (IEEE.of_int r)) = x.
Proof.
  intros Hx Hr. rewrite Seconds_zero. pose proof (of_int_finite r Hr) as Hfin.
  destruct (IEEE.of_int r) as [s|s| |s m e]; cbn [finite] in Hfin; try contradiction;
    destruct x as [sx|sx| |sx mx ex]; cbn [sign_is] in Hx; try contradiction; subst;
    try reflexivity; destruct s; reflexivity.
Qed.

Lemma of_int_top : IEEE.of_int (2 ^ 53) = SpecFloat.S754_finite false 4503599627370496 1.
Proof. vm_compute. reflexivity. Qed.

Lemma of_int_mono_small (a b : Z) :
  0 <= a <= b -> b <= 2 ^ 53 -> leb (IEEE.of_int a) (IEEE.of_int b) = true.
Proof.
  intros [Ha Hab] Hb.
  destruct (Z.eq_dec a b) as [->|Hne]; [apply leb_refl, of_int_sign; lia|].
  destruct (Z.eq_dec a 0) as [->|Ha0]; [apply zero_leb, of_int_sign; lia|].
  destruct (of_int_exact a) as (ma & Hma & ->); [lia|].
  pose proof (digits_lt_pow a 53 ltac:(lia) ltac:(lia) ltac:(lia)) as Hda.
  destruct (Z.eq_dec b (2 ^ 53)) as [->|Hb53].
  - rewrite of_int_top. apply leb_finite. lia.
  - destruct (of_int_exact b) as (mb & Hmb & ->); [lia|].
    pose proof (digits_le a b ltac:(lia)) as Hd. apply leb_finite.
    destruct (Z.eq_dec (digits a) (digits b)) as [Heq|Hlt]; [right|lia].
    split; [lia|]. rewrite Hma, Hmb, Heq.
    apply Z.mul_le_mono_nonneg_r; [apply Z.pow_nonneg|]; lia.
Qed.

Lemma one_not_leb_zero : leb (IEEE.of_int 1) (IEEE.of_int 0) = false.
Proof. reflexivity. Qed.

(** Taking one token from a whole number of tokens is exact. *)
Lemma sub_one_exact (k : Z) :
  1 <= k <= 2 ^ 53 -> sub (IEEE.of_int k) (IEEE.of_int 1) = IEEE.of_int (k - 1).
Proof.
  intros Hk.
  destruct (Z.eq_dec k 1) as [->|Hk1]; [vm_compute; reflexivity|].
  destruct (Z.eq_dec k (2 ^ 53)) as [->|Hk53]; [vm_compute; reflexivity|].
  destruct (of_int_exact k) as (mk & Hmk & ->); [lia|].
  destruct (of_int_exact (k - 1)) as (mj & Hmj & ->); [lia|].
  rewrite of_int_one.
  pose proof (digits_ge_pow k 1 ltac:(lia) ltac:(change (2 ^ 1) with 2; lia)) as Hdk.
  pose proof (digits_lt_pow k 53 ltac:(lia) ltac:(lia) ltac:(lia)) as Hdk53.
  pose proof (digits_pos (k - 1) ltac:(lia)) as Hdj.
  pose proof (digits_le (k - 1) k ltac:(lia)) as Hdjk.
  unfold SpecFloat.SFsub. cbn [SpecFloat.cond_Zopp].
  change (IntDef.Z.min (digits k - 53) (-52)) with (Z.min (digits k - 53) (-52)).
  replace (Z.min (digits k - 53) (-52)) with (-52) by lia.
  destruct (shl_align_spec mk (digits k - 53) (-52)) as [-> _].
  destruct (shl_align_spec 4503599627370496 (-52) (-52)) as [-> _].
  change (2 ^ Z.max 0 (-52 - -52)) with 1. rewrite Z.mul_1_r, Hmk.
  replace (Z.max 0 (digits k - 53 - -52)) with (digits k - 1) by lia.
  rewrite <- Z.mul_assoc, <- Z.pow_add_r by lia.
  replace (53 - digits k + (digits k - 1)) with 52 by lia.
  replace (k * 2 ^ 52 - 4503599627370496) with ((k - 1) * 2 ^ 52)
    by (change (2 ^ 52) with 4503599627370496; lia).
  destruct ((k - 1) * 2 ^ 52) as [|p|p] eqn:Hp;
    [change (2 ^ 52) with 4503599627370496 in Hp; lia|
    |change (2 ^ 52) with 4503599627370496 in Hp; lia].
  cbn [SpecFloat.binary_normalize].
  assert (Hdp : digits (Z.pos p) = digits (k - 1) + 52)
    by (rewrite <- Hp; apply digits_mul_pow; lia).
  assert (HE : fexp (digits (Z.pos p) + -52) = digits (k - 1) - 53)
    by (rewrite fexp_eq; lia).
  destruct (round_exact false p (-52)) as (m & Hm & ->); cbv zeta.
  - rewrite HE.
    replace (Z.max 0 (-52 - (digits (k - 1) - 53))) with 0 by lia.
    replace (Z.max 0 (digits (k - 1) - 53 - -52)) with (digits (k - 1) - 1) by lia.
    change (2 ^ 0) with 1. rewrite Z.mul_1_r, <- Hp.
    replace 52 with (53 - digits (k - 1) + (digits (k - 1) - 1)) at 1 by lia.
    rewrite Z.pow_add_r, Z.mul_assoc by lia. apply Z.mod_mul.
    pose proof (Z.pow_pos_nonneg 2 (digits (k - 1) - 1)). lia.
  - rewrite HE. lia.
  - rewrite HE. f_equal. apply Pos2Z.inj. rewrite Hm, Hmj, HE.
    replace (Z.max 0 (-52 - (digits (k - 1) - 53))) with 0 by lia.
    replace (Z.max 0 (digits (k - 1) - 53 - -52)) with (digits (k - 1) - 1) by lia.
    change (2 ^ 0) with 1. rewrite Z.mul_1_r, <- Hp.
    replace 52 with (53 - digits (k - 1) + (digits (k - 1) - 1)) at 1 by lia.
    rewrite Z.pow_add_r, Z.mul_assoc by lia. apply Z.div_mul.
    pose proof (Z.pow_pos_nonneg 2 (digits (k - 1) - 1)). lia.
Qed.

End Binary64.

(** ** The rate limiter *)

Section LimiterProperties.

Context {F : Type} {float64 : Float64 F}.
Variable IP_String : list byte -> string.

Local Abbreviation Allow := (Ratelimit.Allow IP_String).
Local Abbreviation Reset := (Ratelimit.Reset IP_String).
Local Abbreviation Limiter := (Ratelimit.Limiter F).
Local Abbreviation bucket := (Ratelimit.bucket F).

(** C8. For every limiter state, [Allow] on the nil address returns
    [(true, 0)] and [Reset] on the nil address returns: neither creates,
    changes or removes a bucket. *)
Theorem nil_address_is_allowed_and_untracked (l : Limiter) (now : Z) :
  Allow l None now = (l, (true, 0))
  /\ Ratelimit.buckets (fst (Allow l None now)) = Ratelimit.buckets l
  /\ Reset l None = l.
Proof. split; [|split]; reflexivity. Qed.

(** The refill step is the minimum of the capacity and the tokens owned
    plus those earned. *)
Lemma refill_is_fmin (l : Limiter) (b : bucket) (now : Z) :
  Ratelimit.refill l b now
  = Spec.fmin (f_of_int (Ratelimit.capacity l))
      (f_add (Ratelimit.tokens b)
         (f_mul (Time.Seconds (Time.Sub now (Ratelimit.lastCheck b)))
            (f_of_int (Ratelimit.rate l)))).
Proof. reflexivity. Qed.

(** [Allow] on a non-nil address, as one equation. *)
Lemma Allow_unfold (l : Limiter) (addr : list byte) (now : Z) :
  let key := IP_String addr in
  let b := Ratelimit.lookup_or_create l key now in
  let t := Ratelimit.refill l b now in
  let allowed := f_leb (f_of_int 1) t in
  let n := GoInt.add (Ratelimit.attempts b) 1 in
  Allow l (Some addr) now
  = (Ratelimit.with_buckets l
       (<[key := {| Ratelimit.tokens := if allowed then f_sub t (f_of_int 1) else t;
                    Ratelimit.lastCheck := now;
                    Ratelimit.attempts := n |}]> (Ratelimit.buckets l)),
     (allowed, n)).
Proof.
  intros key b t allowed n. unfold Ratelimit.Allow.
  fold key. fold b. fold t. fold allowed.
  destruct allowed; reflexivity.
Qed.

(** C4. For every non-nil address, [Allow] works on the bucket the table
    holds under the address, or, when the table holds none, on a new one
    that is full and has no attempts: it refills it to the minimum of the
    capacity and [tokens + elapsedSeconds * rate] and sets the last-refill
    time to [now]; the call is allowed exactly when the refilled count is
    at least 1, and then one token is taken; allowed or not, the attempts
    counter is incremented, stored and returned, so the stored counter
    grows by exactly one on every call (short of the largest [int]) and is
    1 after the first.  No other bucket changes. *)
Theorem Allow_refills_consumes_and_counts (l : Limiter) (addr : list byte) (now : Z) :
  let key := IP_String addr in
  let b :=
    match Ratelimit.buckets l !! key with
    | Some stored => stored
    | None => {| Ratelimit.tokens := f_of_int (Ratelimit.capacity l);
                 Ratelimit.lastCheck := now; Ratelimit.attempts := 0 |}
    end in
  let refilled :=
    Spec.fmin (f_of_int (Ratelimit.capacity l))
      (f_add (Ratelimit.tokens b)
         (f_mul (Time.Seconds (Time.Sub now (Ratelimit.lastCheck b)))
            (f_of_int (Ratelimit.rate l)))) in
  let n := GoInt.add (Ratelimit.attempts b) 1 in
  exists (l' : Limiter) (allowed : bool),
    Allow l (Some addr) now = (l', (allowed, n))
    /\ allowed = f_leb (f_of_int 1) refilled
    /\ Ratelimit.buckets l' !! key
       = Some {| Ratelimit.tokens :=
                   if allowed then f_sub refilled (f_of_int 1) else refilled;
                 Ratelimit.lastCheck := now;
                 Ratelimit.attempts := n |}
    /\ (forall k, k <> key -> Ratelimit.buckets l' !! k = Ratelimit.buckets l !! k)
    /\ Ratelimit.rate l' = Ratelimit.rate l
    /\ Ratelimit.capacity l' = Ratelimit.capacity l
    /\ (forall stored, Ratelimit.buckets l !! key = Some stored ->
        GoInt.int_min <= Ratelimit.attempts stored < GoInt.int_max ->
        n = Ratelimit.attempts stored + 1)
    /\ (Ratelimit.buckets l !! key = None -> n = 1).
Proof.
  intros key b refilled n.
  pose proof (Allow_unfold l addr now) as Heq. cbv zeta in Heq.
  unfold Ratelimit.lookup_or_create in Heq.
  fold key in Heq. fold b in Heq. rewrite refill_is_fmin in Heq.
  fold refilled in Heq. fold n in Heq.
  eexists _, _. split; [exact Heq|].
  split; [reflexivity|]. split; [|split; [|split; [|split; [|split]]]].
  - simpl. apply lookup_insert_eq.
  - intros k Hk. simpl. apply lookup_insert_ne. congruence.
  - reflexivity.
  - reflexivity.
  - intros stored Hstored Hroom. subst n b. rewrite Hstored.
    apply add_no_overflow. unfold GoInt.in_int. lia.
  - intros Hnone. subst n b. rewrite Hnone. reflexivity.
Qed.


End LimiterProperties.

(** ** The rate limiter on binary64 *)

Section LimiterOnBinary64.

Variable IP_String : list byte -> string.

Local Existing Instance IEEE.binary64.

Local Abbreviation Allow := (Ratelimit.Allow IP_String).
Local Abbreviation Reset := (Ratelimit.Reset IP_String).
Local Abbreviation Limiter := (Ratelimit.Limiter SpecFloat.spec_float).
Local Abbreviation bucket := (Ratelimit.bucket SpecFloat.spec_float).
Local Abbreviation leb := SpecFloat.SFleb.
Local Abbreviation ltb := SpecFloat.SFltb.
Local Abbreviation sub := (SpecFloat.SFsub IEEE.prec IEEE.emax).

(** The operations of the interface, read at binary64. *)
Ltac at_binary64 :=
  change (@f_of_int _ IEEE.binary64) with IEEE.of_int in *;
  change (@f_add _ IEEE.binary64) with (SpecFloat.SFadd IEEE.prec IEEE.emax) in *;
  change (@f_sub _ IEEE.binary64) with (SpecFloat.SFsub IEEE.prec IEEE.emax) in *;
  change (@f_mul _ IEEE.binary64) with (SpecFloat.SFmul IEEE.prec IEEE.emax) in *;
  change (@f_ltb _ IEEE.binary64) with SpecFloat.SFltb in *;
  change (@f_leb _ IEEE.binary64) with SpecFloat.SFleb in *.

(** *** Reset, then Allow *)


(** A bucket read at the instant it was last checked holds what it held,
    up to the capacity. *)
Lemma refill_at_once (l : Limiter) (b : bucket) :
  IEEE.sign_is false (Ratelimit.tokens b) -> GoInt.in_int (Ratelimit.rate l) ->
  leb (Ratelimit.tokens b) (IEEE.of_int (Ratelimit.capacity l)) = true ->
  0 <= Ratelimit.capacity l ->
  Ratelimit.refill l b (Ratelimit.lastCheck b) = Ratelimit.tokens b.
Proof.
  intros Hsign Hr Hle Hc. unfold Ratelimit.refill.
  at_binary64.
  rewrite Sub_same, Binary64.nothing_earned by assumption.
  rewrite Binary64.leb_not_ltb;
    [reflexivity|exact Hsign|apply Binary64.of_int_sign, Hc|exact Hle].
Qed.

(** A new bucket read at the instant it is created is full. *)
Lemma refill_new_bucket (l : Limiter) (now : Z) :
  0 <= Ratelimit.capacity l -> GoInt.in_int (Ratelimit.rate l) ->
  Ratelimit.refill l
    {| Ratelimit.tokens := IEEE.of_int (Ratelimit.capacity l);
       Ratelimit.lastCheck := now; Ratelimit.attempts := 0 |} now
  = IEEE.of_int (Ratelimit.capacity l).
Proof.
  intros Hc Hr.
  apply (refill_at_once l
           {| Ratelimit.tokens := IEEE.of_int (Ratelimit.capacity l);
              Ratelimit.lastCheck := now; Ratelimit.attempts := 0 |});
    cbn [Ratelimit.tokens]; try assumption.
  - apply Binary64.of_int_sign, Hc.
  - apply Binary64.leb_refl, Binary64.of_int_sign, Hc.
Qed.

(** [Allow] on an address with no bucket, when the capacity is at least
    one: allowed, first attempt, one token taken from a full bucket. *)
Lemma Allow_unseen (l : Limiter) (addr : list byte) (now : Z) :
  GoInt.in_int (Ratelimit.rate l) -> 1 <= Ratelimit.capacity l ->
  Ratelimit.buckets l !! IP_String addr = None ->
  Allow l (Some addr) now
  = (Ratelimit.with_buckets l
       (<[IP_String addr :=
            {| Ratelimit.tokens := sub (IEEE.of_int (Ratelimit.capacity l)) (IEEE.of_int 1);
               Ratelimit.lastCheck := now; Ratelimit.attempts := 1 |}]>
          (Ratelimit.buckets l)),
     (true, 1)).
Proof.
  intros Hr Hone Hnone.
  pose proof (Allow_unfold IP_String l addr now) as Heq. cbv zeta in Heq.
  unfold Ratelimit.lookup_or_create in Heq. rewrite Hnone in Heq.
  at_binary64.
  rewrite refill_new_bucket in Heq by (try assumption; lia).
  rewrite (Binary64.one_leb_of_int _ Hone) in Heq. exact Heq.
Qed.

(** C7. For every limiter state with capacity at least 1 and every
    non-nil address: [Reset] deletes the address's bucket, and the next
    [Allow] on the address returns [(true, 1)] and stores a bucket with
    one token taken from a full one, as [Allow] does on a limiter that
    has never seen the address.  The numbers are those of binary64. *)
Theorem Reset_then_Allow_starts_afresh (l : Limiter) (addr : list byte) (now : Z) :
  GoInt.in_int (Ratelimit.rate l) ->
  1 <= Ratelimit.capacity l ->
  let key := IP_String addr in
  let fresh := Ratelimit.NewLimiter (Ratelimit.rate l) (Ratelimit.capacity l) in
  Ratelimit.buckets (Reset l (Some addr)) !! key = None
  /\ snd (Allow (Reset l (Some addr)) (Some addr) now) = (true, 1)
  /\ Ratelimit.buckets (fst (Allow (Reset l (Some addr)) (Some addr) now)) !! key
     = Some {| Ratelimit.tokens := f_sub (f_of_int (Ratelimit.capacity l)) (f_of_int 1);
               Ratelimit.lastCheck := now; Ratelimit.attempts := 1 |}
  /\ snd (Allow (Reset l (Some addr)) (Some addr) now)
     = snd (Allow fresh (Some addr) now)
  /\ Ratelimit.buckets (fst (Allow (Reset l (Some addr)) (Some addr) now)) !! key
     = Ratelimit.buckets (fst (Allow fresh (Some addr) now)) !! key.
Proof.
  intros Hr Hone key fresh.
  assert (Hgone : Ratelimit.buckets (Reset l (Some addr)) !! key = None).
  { simpl. apply lookup_delete_eq. }
  assert (Hreset : Allow (Reset l (Some addr)) (Some addr) now = _)
    by (apply Allow_unseen; [exact Hr|exact Hone|exact Hgone]).
  assert (Hfresh : Allow fresh (Some addr) now = _)
    by (apply Allow_unseen; [exact Hr|exact Hone|apply lookup_empty]).
  rewrite Hreset, Hfresh. cbn [fst snd Ratelimit.buckets Ratelimit.with_buckets].
  split; [exact Hgone|]. split; [reflexivity|].
  split; [apply lookup_insert_eq|]. split; [reflexivity|].
  fold key. rewrite !lookup_insert_eq. reflexivity.
Qed.

(** *** The bucket invariant *)









End LimiterOnBinary64.

Lemma Allow_refills_consumes_and_counts_witness :
  let l : Ratelimit.Limiter SpecFloat.spec_float :=
    {| Ratelimit.buckets :=
         {[ "192.168.1.1" := {| Ratelimit.tokens := IEEE.of_int 0;
                                Ratelimit.lastCheck := 1000;
                                Ratelimit.attempts := 6 |} ]};
       Ratelimit.rate := 10; Ratelimit.capacity := 5;
       Ratelimit.cleanup := 300000000000 |} in
  exists l' allowed,
    Ratelimit.Allow (float64 := IEEE.binary64) Sample.dotted l (Some Sample.ip) 250001000
    = (l', (allowed, 7))
    /\ allowed = true
    /\ Ratelimit.buckets l' !! "192.168.1.1"
       = Some {| Ratelimit.tokens :=
                   SpecFloat.SFsub IEEE.prec IEEE.emax
                     (SpecFloat.SFdiv IEEE.prec IEEE.emax (IEEE.of_int 5) (IEEE.of_int 2))
                     (IEEE.of_int 1);
                 Ratelimit.lastCheck := 250001000; Ratelimit.attempts := 7 |}.
Proof.
  intros l.
  destruct (Allow_refills_consumes_and_counts (float64 := IEEE.binary64)
              Sample.dotted l Sample.ip 250001000)
    as (l' & allowed & Hcall & Hallowed & Hbucket & _).
  exists l', allowed. split; [exact Hcall|].
  assert (Htrue : allowed = true) by (rewrite Hallowed; vm_compute; reflexivity).
  split; [exact Htrue|].
  change ("192.168.1.1"%string) with (Sample.dotted Sample.ip).
  rewrite Hbucket, Htrue. vm_compute. reflexivity.
Defined.

Lemma Reset_then_Allow_starts_afresh_witness :
  let l : Ratelimit.Limiter SpecFloat.spec_float :=
    {| Ratelimit.buckets :=
         {[ "192.168.1.1" := {| Ratelimit.tokens := IEEE.of_int 0;
                                Ratelimit.lastCheck := 900;
                                Ratelimit.attempts := 6 |} ]};
       Ratelimit.rate := 5; Ratelimit.capacity := 5;
       Ratelimit.cleanup := 300000000000 |} in
  Ratelimit.buckets (Ratelimit.Reset Sample.dotted l (Some Sample.ip))
    !! "192.168.1.1" = None
  /\ snd (Ratelimit.Allow (float64 := IEEE.binary64) Sample.dotted
            (Ratelimit.Reset Sample.dotted l (Some Sample.ip))
            (Some Sample.ip) 1000) = (true, 1)
  /\ Ratelimit.buckets
       (fst (Ratelimit.Allow (float64 := IEEE.binary64) Sample.dotted
               (Ratelimit.Reset Sample.dotted l (Some Sample.ip))
               (Some Sample.ip) 1000)) !! "192.168.1.1"
     = Some {| Ratelimit.tokens := IEEE.of_int 4;
               Ratelimit.lastCheck := 1000; Ratelimit.attempts := 1 |}.
Proof.
  intros l.
  assert (Hr : GoInt.in_int (Ratelimit.rate l)) by (vm_compute; split; discriminate).
  assert (Hone : 1 <= Ratelimit.capacity l) by (simpl; lia).
  destruct (Reset_then_Allow_starts_afresh Sample.dotted l Sample.ip 1000 Hr Hone)
    as (Hgone & Hfirst & Hstored & _).
  split; [exact Hgone|]. split; [exact Hfirst|].
  change ("192.168.1.1"%string) with (Sample.dotted Sample.ip).
  rewrite Hstored. vm_compute. reflexivity.
Defined.


(** ** The connection handler *)

Section HandlerProperties.

Context {F : Type} {float64 : Float64 F}.
Variable IP_String : list byte -> string.
Variable Sum256 : list byte -> list byte.

Local Abbreviation handleConnection := (Server.handleConnection IP_String Sum256).
Local Abbreviation checkRateLimit := (Server.checkRateLimit IP_String).

(** [Generate] copies its arguments into the challenge. *)
Lemma Generate_fields (rand : string + list byte) (now bits expiresIn : Z)
    (resource : string) (c : Pow.Challenge) :
  Pow.Generate rand now bits expiresIn resource = Pow.Ok c ->
  Pow.Bits c = bits /\ Pow.Ts c = now /\ Pow.ExpiresIn c = expiresIn
  /\ Pow.Resource c = resource.
Proof.
  unfold Pow.Generate. destruct (Pow.generateSalt rand); [discriminate|].
  intros [= <-]. repeat split.
Qed.

(** Everything the handler can write to the connection. *)
Lemma handleConnection_sends (cfg : Server.Config)
    (limiter : option (Ratelimit.Limiter F)) (env : Server.Env) (s : Server.sent) :
  In s (snd (handleConnection cfg limiter env)) ->
  s = Server.SendError "rate limit exceeded, please try again later"
  \/ s = Server.SendError "internal server error"
  \/ exists c,
       Pow.Generate (Server.rand env) (Server.generateNow env)
         (Server.effectiveBits cfg (snd (checkRateLimit limiter env)))
         (Server.ExpiresIn cfg) "quote" = Pow.Ok c
       /\ (s = Server.SentChallenge
                 {| Server.cm_Type := Server.TypeChallenge; Server.cm_Challenge := c |}
           \/ s = Server.SendError "invalid solution format"
           \/ s = Server.SendError "expected solution message"
           \/ (exists nonce err,
                 Pow.Verify Sum256 (Server.verifyNow env) c nonce "quote" = Some err
                 /\ s = Server.SendError ("invalid solution: " +:+ Pow.Error err))
           \/ s = Server.SendError "failed to generate quote"
           \/ exists q, s = Server.SentQuote
                              {| Server.qm_Type := Server.TypeQuote; Server.qm_Quote := q |}).
Proof.
  unfold Server.handleConnection.
  destruct (checkRateLimit limiter env) as [[limiter1 allowed] attempts].
  cbn [snd].
  destruct allowed; cbn [negb]; [|cbn; intuition].
  destruct (Server.setDeadlineOk env); cbn [negb]; [|cbn; intuition].
  destruct (Pow.Generate _ _ _ _ _) as [c|e] eqn:Hgen; [|cbn; intuition].
  intros Hin. right. right. exists c. split; [reflexivity|].
  destruct (Server.sendChallengeOk env); cbn [negb] in Hin; [|destruct Hin].
  destruct (Server.received env) as [err|solutionMsg].
  { cbn in Hin. intuition. }
  destruct (String.eqb _ _); cbn [negb] in Hin.
  2: { cbn in Hin. intuition. }
  destruct (Pow.Verify _ _ _ _ _) as [err|] eqn:Hverify.
  { cbn in Hin. destruct Hin as [<-|[<-|[]]]; [left; reflexivity|].
    right. right. right. left. exists (Server.sm_Nonce solutionMsg), err.
    split; [exact Hverify|reflexivity]. }
  destruct (Server.randomQuote env) as [err|quote].
  { cbn in Hin. intuition. }
  destruct (Server.sendQuoteOk env); cbn in Hin.
  - destruct Hin as [<-|[<-|[]]]; [left; reflexivity|].
    do 5 right. exists quote. reflexivity.
  - intuition.
Qed.

(** C2, as the code has it. The difficulty of every challenge the handler
    sends is [AdaptiveDifficulty baseBits attempts] when adaptive
    difficulty is enabled and the attempt count is positive, and
    [baseBits] otherwise; [AdaptiveDifficulty] already includes the base,
    so the first is [baseBits] plus zero to four extra bits and nothing is
    added to it. *)
Theorem challenge_bits_are_the_adaptive_difficulty (cfg : Server.Config)
    (limiter : option (Ratelimit.Limiter F)) (env : Server.Env)
    (m : Server.ChallengeMessage) :
  In (Server.SentChallenge m) (snd (handleConnection cfg limiter env)) ->
  let baseBits := Server.Bits cfg in
  let attempts := snd (checkRateLimit limiter env) in
  (Server.AdaptiveBits cfg = true -> attempts > 0 ->
     Pow.Bits (Server.cm_Challenge m) = Ratelimit.AdaptiveDifficulty baseBits attempts)
  /\ (Server.AdaptiveBits cfg = false \/ attempts <= 0 ->
        Pow.Bits (Server.cm_Challenge m) = baseBits)
  /\ (Server.AdaptiveBits cfg = true -> attempts > 0 ->
      GoInt.in_int baseBits -> baseBits + 4 <= GoInt.int_max ->
        baseBits <= Pow.Bits (Server.cm_Challenge m) <= baseBits + 4).
Proof.
  intros Hin baseBits attempts.
  assert (Hbits : Pow.Bits (Server.cm_Challenge m) = Server.effectiveBits cfg attempts).
  { destruct (handleConnection_sends cfg limiter env _ Hin)
      as [Hs|[Hs|(c & Hgen & [Hs|[Hs|[Hs|[(n & e & _ & Hs)|[Hs|(q & Hs)]]]]])]];
      try discriminate Hs.
    injection Hs as ->. apply Generate_fields in Hgen as [Hgen _]. exact Hgen. }
  rewrite Hbits. unfold Server.effectiveBits. fold baseBits.
  split; [|split].
  - intros -> Hpos. destruct (Z.gtb_spec attempts 0); [reflexivity|lia].
  - intros [->|Hzero]; [reflexivity|].
    destruct (Z.gtb_spec attempts 0); [lia|]. rewrite andb_false_r. reflexivity.
  - intros -> Hpos Hbase Hroom.
    destruct (Z.gtb_spec attempts 0); [|lia]. cbn [andb].
    rewrite AdaptiveDifficulty_extra by assumption.
    repeat (destruct (_ <=? _); [lia|]). lia.
Qed.

(** A challenge made for ["quote"] fails verification for ["quote"] only
    on time or on work. *)
Lemma Verify_own_challenge (rand : string + list byte) (now bits expiresIn : Z)
    (c : Pow.Challenge) (vnow : Z) (nonce : string) (e : Pow.error) :
  Pow.Generate rand now bits expiresIn "quote" = Pow.Ok c ->
  Pow.Verify Sum256 vnow c nonce "quote" = Some e ->
  Spec.temporal_or_insufficient e.
Proof.
  intros Hgen. apply Generate_fields in Hgen as (_ & _ & _ & Hres).
  unfold Pow.Verify. rewrite Hres. cbn [String.eqb Ascii.eqb Bool.eqb negb andb].
  repeat (destruct (_ <? _) || destruct (_ >? _)); intros [= <-]; exact I.
Qed.

(** C10. The handler makes every challenge for the resource ["quote"] and
    verifies it against ["quote"]: the resource-mismatch branch of
    [Verify] is not reached, so the reason of every "invalid solution"
    message the handler sends is a not-yet-valid, an expired or an
    insufficient-work error, never a resource mismatch. *)
Theorem handler_never_reports_resource_mismatch (cfg : Server.Config)
    (limiter : option (Ratelimit.Limiter F)) (env : Server.Env) :
  let out := snd (handleConnection cfg limiter env) in
  (forall m, In (Server.SentChallenge m) out ->
     Pow.Resource (Server.cm_Challenge m) = "quote")
  /\ (forall m nonce e, In (Server.SentChallenge m) out ->
        Pow.Verify Sum256 (Server.verifyNow env) (Server.cm_Challenge m) nonce "quote"
          = Some e ->
        Spec.temporal_or_insufficient e)
  /\ (forall text, In (Server.SendError ("invalid solution: " +:+ text)) out ->
        exists e, text = Pow.Error e /\ Spec.temporal_or_insufficient e)
  /\ (forall expected got,
        ~ In (Server.SendError
                ("invalid solution: "
                   +:+ Pow.Error (Pow.ErrResourceMismatch expected got))) out).
Proof.
  intros out.
  assert (Hmade : forall m, In (Server.SentChallenge m) out ->
            exists rand now bits expiresIn,
              Pow.Generate rand now bits expiresIn "quote"
              = Pow.Ok (Server.cm_Challenge m)).
  { intros m Hin.
    destruct (handleConnection_sends cfg limiter env _ Hin)
      as [Hs|[Hs|(c & Hgen & [Hs|[Hs|[Hs|[(n & e & _ & Hs)|[Hs|(q & Hs)]]]]])]];
      try discriminate Hs.
    injection Hs as ->. eauto. }
  assert (Hreason : forall text,
            In (Server.SendError ("invalid solution: " +:+ text)) out ->
            exists e, text = Pow.Error e /\ Spec.temporal_or_insufficient e).
  { intros text Hin.
    destruct (handleConnection_sends cfg limiter env _ Hin)
      as [Hs|[Hs|(c & Hgen & [Hs|[Hs|[Hs|[(n & e & Hv & Hs)|[Hs|(q & Hs)]]]]])]];
      unfold Server.SendError in Hs; cbn in Hs; try discriminate Hs.
    injection Hs as Hs. cbv [String.append] in Hs. subst text. exists e. split; [reflexivity|].
    eapply Verify_own_challenge; [exact Hgen|exact Hv]. }
  split; [|split; [|split]].
  - intros m Hin. destruct (Hmade m Hin) as (rand & now & bits & expiresIn & Hgen).
    apply Generate_fields in Hgen. tauto.
  - intros m nonce e Hin Hv.
    destruct (Hmade m Hin) as (rand & now & bits & expiresIn & Hgen).
    eapply Verify_own_challenge; [exact Hgen|exact Hv].
  - exact Hreason.
  - intros expected got Hin. destruct (Hreason _ Hin) as (e & Heq & He).
    destruct e; try contradiction; discriminate Heq.
Qed.

(** A connection the limiter disallows gets the rate-limit error and
    nothing else: no challenge is made for it. *)
Theorem rate_limited_connection_gets_no_challenge (cfg : Server.Config)
    (l : Ratelimit.Limiter F) (env : Server.Env) (addr : list byte) :
  Server.clientIP env = Some addr ->
  fst (snd (Ratelimit.Allow IP_String l (Some addr) (Server.allowNow env))) = false ->
  handleConnection cfg (Some l) env
  = (Some (fst (Ratelimit.Allow IP_String l (Some addr) (Server.allowNow env))),
     [Server.SendError "rate limit exceeded, please try again later"]).
Proof.
  intros Hip Hblocked. unfold Server.handleConnection, Server.checkRateLimit.
  rewrite Hip.
  destruct (Ratelimit.Allow IP_String l (Some addr) (Server.allowNow env))
    as [l' [allowed attemptCount]].
  cbn [fst snd] in *. subst allowed. reflexivity.
Qed.

(** A connection that is sent the quote has had its bucket removed from
    the limiter. *)
Theorem served_connection_has_its_bucket_reset (cfg : Server.Config)
    (l : Ratelimit.Limiter F) (env : Server.Env) (addr : list byte)
    (m : Server.QuoteMessage) :
  Server.clientIP env = Some addr ->
  In (Server.SentQuote m) (snd (handleConnection cfg (Some l) env)) ->
  exists l', fst (handleConnection cfg (Some l) env) = Some l'
    /\ Ratelimit.buckets l' !! IP_String addr = None.
Proof.
  intros Hip. unfold Server.handleConnection, Server.checkRateLimit.
  rewrite Hip.
  destruct (Ratelimit.Allow IP_String l (Some addr) (Server.allowNow env))
    as [l1 [allowed attemptCount]].
  destruct allowed; cbn [negb]; [|cbn; intros [Hs|[]]; discriminate Hs].
  destruct (Server.setDeadlineOk env); cbn [negb]; [|intros []].
  destruct (Pow.Generate _ _ _ _ _) as [c|e];
    [|cbn; intros [Hs|[]]; discriminate Hs].
  destruct (Server.sendChallengeOk env); cbn [negb]; [|intros []].
  destruct (Server.received env) as [err|solutionMsg];
    [cbn; intros [Hs|[Hs|[]]]; discriminate Hs|].
  destruct (String.eqb _ _); cbn [negb];
    [|cbn; intros [Hs|[Hs|[]]]; discriminate Hs].
  destruct (Pow.Verify _ _ _ _ _) as [err|];
    [cbn; intros [Hs|[Hs|[]]]; discriminate Hs|].
  destruct (Server.randomQuote env) as [err|quote];
    [cbn; intros [Hs|[Hs|[]]]; discriminate Hs|].
  intros _. exists (Ratelimit.Reset IP_String l1 (Some addr)).
  split.
  - destruct (Server.sendQuoteOk env); reflexivity.
  - cbn [Ratelimit.Reset Ratelimit.buckets Ratelimit.with_buckets].
    apply lookup_delete_eq.
Qed.

End HandlerProperties.

(** C2, as stated, fails: on a first connection with adaptive difficulty
    enabled the attempt count is 1 and the challenge asks for 20 bits, the
    base, not for the base plus [AdaptiveDifficulty 20 1] (40 bits). *)
Lemma challenge_bits_are_not_base_plus_adaptive_difficulty :
  let limiter : option (Ratelimit.Limiter SpecFloat.spec_float) :=
    Server.startLimiter Sample.config in
  let out := snd (Server.handleConnection (float64 := IEEE.binary64) Sample.dotted SHA256.Sum256
                    Sample.config limiter Sample.env) in
  let attempts := snd (Server.checkRateLimit (float64 := IEEE.binary64) Sample.dotted limiter Sample.env) in
  Server.AdaptiveBits Sample.config = true
  /\ attempts > 0
  /\ In (Server.SentChallenge Sample.issued) out
  /\ Pow.Bits (Server.cm_Challenge Sample.issued)
     <> Server.Bits Sample.config
        + Ratelimit.AdaptiveDifficulty (Server.Bits Sample.config) attempts.
Proof.
  cbv zeta. split; [reflexivity|]. split; [vm_compute; reflexivity|].
  split; [vm_compute; left; reflexivity|]. vm_compute. discriminate.
Qed.

Lemma challenge_bits_are_the_adaptive_difficulty_witness :
  let limiter : option (Ratelimit.Limiter SpecFloat.spec_float) :=
    Server.startLimiter Sample.config in
  In (Server.SentChallenge Sample.issued)
    (snd (Server.handleConnection (float64 := IEEE.binary64) Sample.dotted SHA256.Sum256
            Sample.config limiter Sample.env))
  /\ Pow.Bits (Server.cm_Challenge Sample.issued)
     = Ratelimit.AdaptiveDifficulty (Server.Bits Sample.config)
         (snd (Server.checkRateLimit (float64 := IEEE.binary64) Sample.dotted limiter Sample.env)).
Proof.
  intros limiter.
  assert (Hin : In (Server.SentChallenge Sample.issued)
                  (snd (Server.handleConnection (float64 := IEEE.binary64) Sample.dotted SHA256.Sum256
                          Sample.config limiter Sample.env)))
    by (vm_compute; left; reflexivity).
  split; [exact Hin|].
  pose proof (challenge_bits_are_the_adaptive_difficulty (float64 := IEEE.binary64)
                Sample.dotted
                SHA256.Sum256 Sample.config limiter Sample.env Sample.issued Hin)
    as Hbits.
  cbv zeta in Hbits. destruct Hbits as [Hadaptive _].
  apply Hadaptive; [reflexivity|vm_compute; reflexivity].
Defined.

Lemma handler_never_reports_resource_mismatch_witness :
  exists e,
    "insufficient PoW: expected 20 leading zero bits, got 0"%string = Pow.Error e
    /\ Spec.temporal_or_insufficient e.
Proof.
  pose proof (handler_never_reports_resource_mismatch (float64 := IEEE.binary64)
                Sample.dotted SHA256.Sum256 Sample.config
                (Server.startLimiter Sample.config) Sample.env) as Hhandler.
  cbv zeta in Hhandler. destruct Hhandler as (_ & _ & Hreason & _).
  apply Hreason. vm_compute. right. left. reflexivity.
Defined.

(** ** The embedding on the package's own tests *)

Example sha256_abc :
  Pow.hex_encode (SHA256.Sum256 (list_byte_of_string "abc"))
  = "ba7816bf8f01cfea414140de5dae2223b00361a396177a9cb410ff61f20015ad"%string.
Proof. vm_compute. reflexivity. Qed.

Example test_StringForHash :
  Pow.StringForHash
    {| Pow.Ver := "1"; Pow.Alg := "sha256"; Pow.Bits := 20; Pow.Ts := 1234567890;
       Pow.ExpiresIn := 300; Pow.Resource := "quote";
       Pow.Salt := "abcdef1234567890" |}
  = "1:sha256:20:1234567890:300:quote:abcdef1234567890"%string.
Proof. vm_compute. reflexivity. Qed.

Example test_LeadingZeroBits :
  map Pow.LeadingZeroBits
    [ [x00; x00; x00; x00]; [xff; xff; xff; xff]; [x0f; xff; xff; xff];
      [x00; xff; xff; xff]; [x00; x00; xff; xff]; [x7f; xff; xff; xff];
      [x1f; xff; xff; xff] ]
  = [32; 0; 4; 8; 16; 1; 3].
Proof. vm_compute. reflexivity. Qed.

Example test_AdaptiveDifficulty :
  map (Ratelimit.AdaptiveDifficulty 20) [1; 2; 3; 5; 6; 10; 11; 20; 21; 100]
  = [20; 20; 21; 21; 22; 22; 23; 23; 24; 24].
Proof. vm_compute. reflexivity. Qed.

Example test_Solve_NoSolutionFound :
  Pow.Solve SHA256.Sum256
    {| Pow.Ver := "1"; Pow.Alg := "sha256"; Pow.Bits := 30; Pow.Ts := 1700000000;
       Pow.ExpiresIn := 300; Pow.Resource := "quote"; Pow.Salt := "testsalt" |} 10
  = Pow.Err (Pow.ErrNoSolution 10).
Proof. vm_compute. reflexivity. Qed.

(** Ten requests pass on a burst of ten, the eleventh is blocked; every one
    is counted.  On IEEE-754 binary64. *)
Example test_Limiter_Allow_SingleIP :
  snd (Sample.burst (float64 := IEEE.binary64) 11 (Ratelimit.NewLimiter 10 10) 1000)
  = [ (true, 1); (true, 2); (true, 3); (true, 4); (true, 5); (true, 6);
      (true, 7); (true, 8); (true, 9); (true, 10); (false, 11) ].
Proof. vm_compute. reflexivity. Qed.

(** After the burst, 200 ms at 10 tokens per second earn two requests. *)
Example test_Limiter_Allow_Refill :
  let l := fst (Sample.burst (float64 := IEEE.binary64) 6 (Ratelimit.NewLimiter 10 5) 1000) in
  map fst (snd (Sample.burst (float64 := IEEE.binary64) 3 l (1000 + 200000000)))
  = [true; true; false].
Proof. vm_compute. reflexivity. Qed.

Example test_Limiter_Reset :
  let l := fst (Sample.burst (float64 := IEEE.binary64) 6 (Ratelimit.NewLimiter 5 5) 1000) in
  snd (Ratelimit.Allow (float64 := IEEE.binary64) Sample.dotted
         (Ratelimit.Reset Sample.dotted l (Some Sample.ip)) (Some Sample.ip) 1001)
  = (true, 1).
Proof. vm_compute. reflexivity. Qed.

Lemma Solve_returns_least_nonce_witness :
  exists n, 0 <= n < 1000 /\ "28"%string = Pow.Itoa n
    /\ forall k, 0 <= k < n ->
         Pow.LeadingZeroBits
           (Pow.digest SHA256.Sum256 (Pow.StringForHash Sample.challenge) (Pow.Itoa k))
         < Pow.Bits Sample.challenge.
Proof.
  assert (Hmax : GoInt.in_int 1000) by (vm_compute; split; discriminate).
  pose proof (Solve_returns_least_nonce SHA256.Sum256 Sample.challenge 1000 Hmax)
    as Hleast.
  assert (Hsolve : Pow.Solve SHA256.Sum256 Sample.challenge 1000 = Pow.Ok "28")
    by (vm_compute; reflexivity).
  rewrite Hsolve in Hleast. destruct Hleast as (n & Hn & Hnonce & _ & Hbefore).
  exists n. split; [exact Hn|]. split; [exact Hnonce|exact Hbefore].
Defined.

Lemma Verify_window_beyond_int64_witness :
  Pow.Verify SHA256.Sum256 1700000000
    {| Pow.Ver := "1"; Pow.Alg := "sha256"; Pow.Bits := 0; Pow.Ts := 1700000000;
       Pow.ExpiresIn := 9223372036854775807; Pow.Resource := "quote";
       Pow.Salt := "testsalt" |} "0" "quote"
  = Some (Pow.ErrExpired 1700000000 1700000000 9223372036854775807).
Proof.
  apply (Verify_window_beyond_int64 SHA256.Sum256 1700000000
           {| Pow.Ver := "1"; Pow.Alg := "sha256"; Pow.Bits := 0; Pow.Ts := 1700000000;
              Pow.ExpiresIn := 9223372036854775807; Pow.Resource := "quote";
              Pow.Salt := "testsalt" |} "0").
  - vm_compute; split; discriminate.
  - vm_compute; split; discriminate.
  - vm_compute; reflexivity.
  - simpl; lia.
Defined.

Lemma rate_limited_connection_gets_no_challenge_witness :
  snd (Server.handleConnection (float64 := Exact.rational) Sample.dotted
         SHA256.Sum256 Sample.config (Some Sample.exhausted) Sample.env)
  = [Server.SendError "rate limit exceeded, please try again later"].
Proof.
  rewrite (rate_limited_connection_gets_no_challenge (float64 := Exact.rational)
             Sample.dotted SHA256.Sum256 Sample.config Sample.exhausted Sample.env
             Sample.ip).
  - reflexivity.
  - reflexivity.
  - vm_compute. reflexivity.
Defined.

Lemma served_connection_has_its_bucket_reset_witness :
  exists l',
    fst (Server.handleConnection (float64 := IEEE.binary64) Sample.dotted
           SHA256.Sum256 Sample.easy_config
           (Server.startLimiter Sample.easy_config) Sample.solving_env) = Some l'
    /\ Ratelimit.buckets l' !! "192.168.1.1" = None.
Proof.
  assert (Hlimiter : Server.startLimiter Sample.easy_config
                     = Some (Ratelimit.NewLimiter 5 10
                             : Ratelimit.Limiter SpecFloat.spec_float))
    by (vm_compute; reflexivity).
  rewrite Hlimiter.
  apply (served_connection_has_its_bucket_reset (float64 := IEEE.binary64)
           Sample.dotted SHA256.Sum256 Sample.easy_config (Ratelimit.NewLimiter 5 10)
           Sample.solving_env Sample.ip
           {| Server.qm_Type := "quote"; Server.qm_Quote := "wisdom" |}).
  - reflexivity.
  - vm_compute. right. left. reflexivity.
Defined.

(** ** More about [Verify], [Solve] and [LeadingZeroBits] *)

Lemma zero_run_at_most_length (bs : list bool) :
  0 <= Spec.zero_run bs <= Z.of_nat (length bs).
Proof. induction bs as [|[] bs IH]; simpl length; simpl Spec.zero_run; lia. Qed.

Lemma bit_string_length (D : list byte) :
  length (Spec.bit_string D) = (8 * length D)%nat.
Proof.
  induction D as [|b D IH]; [reflexivity|].
  cbn [Spec.bit_string flat_map]. fold (Spec.bit_string D).
  rewrite length_app, IH. simpl. lia.
Qed.

(** The count lies between zero and the number of bits of the digest. *)
Lemma LeadingZeroBits_bounds (D : list byte) :
  8 * Z.of_nat (length D) <= GoInt.int_max ->
  0 <= Pow.LeadingZeroBits D <= 8 * Z.of_nat (length D).
Proof.
  intros Hlen. unfold Pow.LeadingZeroBits.
  rewrite count_from_run; [| unfold GoInt.int_min; lia | lia].
  pose proof (zero_run_at_most_length (Spec.bit_string D)) as Hrun.
  rewrite bit_string_length in Hrun. lia.
Qed.

Section MorePow.

Variable Sum256 : list byte -> list byte.

(** X8: [Verify] accepts exactly the valid solutions: it returns no error
    if and only if the resource is the challenge's, the clock is inside
    the window from [Ts] to [Ts + ExpiresIn] as [Verify] computes it, and
    the digest of the challenge string and the nonce has at least [Bits]
    leading zero bits. *)
Theorem Verify_accepts_exactly (now : Z) (c : Pow.Challenge)
    (solution resource : string) :
  Pow.Verify Sum256 now c solution resource = None
  <-> Pow.Resource c = resource
      /\ Pow.Ts c <= now <= GoInt.add (Pow.Ts c) (Pow.ExpiresIn c)
      /\ Pow.LeadingZeroBits (Pow.digest Sum256 (Pow.StringForHash c) solution)
         >= Pow.Bits c.
Proof.
  unfold Pow.Verify.
  destruct (String.eqb_spec (Pow.Resource c) resource) as [Hres|Hres]; cbn [negb].
  2: { split; [discriminate|]. intros [Heq _]. contradiction. }
  destruct (Z.ltb_spec now (Pow.Ts c)).
  { split; [discriminate|]. lia. }
  destruct (Z.gtb_spec now (GoInt.add (Pow.Ts c) (Pow.ExpiresIn c))).
  { split; [discriminate|]. lia. }
  cbv zeta.
  destruct (Z.ltb_spec
              (Pow.LeadingZeroBits (Pow.digest Sum256 (Pow.StringForHash c) solution))
              (Pow.Bits c)).
  - split; [discriminate|]. lia.
  - split; [|reflexivity]. intros _. split; [exact Hres|]. lia.
Qed.

(** X9: raising the iteration bound does not change a nonce already
    found: if [Solve] returns a nonce within [maxIterations], it returns
    the same nonce within any larger bound. *)
Theorem Solve_keeps_nonce_under_larger_bound (c : Pow.Challenge)
    (maxIterations maxIterations' : Z) (nonce : string) :
  GoInt.in_int maxIterations -> GoInt.in_int maxIterations' ->
  maxIterations <= maxIterations' ->
  Pow.Solve Sum256 c maxIterations = Pow.Ok nonce ->
  Pow.Solve Sum256 c maxIterations' = Pow.Ok nonce.
Proof.
  intros Hm Hm' Hle. unfold Pow.Solve.
  pose proof (Solve_loop_first Sum256 c (Pow.StringForHash c) maxIterations
                (Z.to_nat maxIterations) 0 ltac:(lia) Hm) as H1.
  pose proof (Solve_loop_first Sum256 c (Pow.StringForHash c) maxIterations'
                (Z.to_nat maxIterations') 0 ltac:(lia) Hm') as H2.
  rewrite Z.sub_0_r in H1, H2.
  specialize (H1 ltac:(lia)). specialize (H2 ltac:(lia)).
  destruct (Pow.Solve_loop Sum256 c (Pow.StringForHash c) maxIterations
              (Z.to_nat maxIterations) 0) as [n1|]; [|discriminate].
  intros [= ->].
  destruct H1 as (k1 & Hk1 & -> & Hok1 & Hbefore1).
  destruct (Pow.Solve_loop Sum256 c (Pow.StringForHash c) maxIterations'
              (Z.to_nat maxIterations') 0) as [n2|].
  - destruct H2 as (k2 & Hk2 & -> & Hok2 & Hbefore2).
    destruct (Z.lt_trichotomy k1 k2) as [Hlt|[->|Hgt]]; [|reflexivity|].
    + specialize (Hbefore2 k1 ltac:(lia)). lia.
    + specialize (Hbefore1 k2 ltac:(lia)). lia.
  - specialize (H2 k1 ltac:(lia)). lia.
Qed.

(** X10: with a hash of 32 bytes, a challenge that asks for more than 256
    bits has no solution: [Verify] rejects every nonce and [Solve] gives
    up, whatever the bound. *)
Theorem more_than_256_bits_is_unsolvable (c : Pow.Challenge) :
  (forall msg, length (Sum256 msg) = 32%nat) ->
  Pow.Bits c > 256 ->
  (forall now nonce resource, Pow.Verify Sum256 now c nonce resource <> None)
  /\ (forall maxIterations,
        Pow.Solve Sum256 c maxIterations = Pow.Err (Pow.ErrNoSolution maxIterations)).
Proof.
  intros Hlen Hbits.
  assert (Hshort : forall s nonce,
            Pow.LeadingZeroBits (Pow.digest Sum256 s nonce) < Pow.Bits c).
  { intros s nonce.
    pose proof (LeadingZeroBits_bounds (Pow.digest Sum256 s nonce)) as Hb.
    unfold Pow.digest in *. rewrite Hlen in Hb.
    specialize (Hb ltac:(unfold GoInt.int_max; lia)). lia. }
  split.
  - intros now nonce resource Hnone. apply Verify_accepts_exactly in Hnone.
    destruct Hnone as (_ & _ & Hok). specialize (Hshort (Pow.StringForHash c) nonce). lia.
  - intros maxIterations. unfold Pow.Solve.
    destruct (Pow.Solve_loop Sum256 c (Pow.StringForHash c) maxIterations
                (Z.to_nat maxIterations) 0) as [nonce|] eqn:Hloop; [|reflexivity].
    apply Solve_loop_meets_bits in Hloop.
    specialize (Hshort (Pow.StringForHash c) nonce). lia.
Qed.

(** X11: with a hash of 32 bytes, a challenge that asks for no bits is
    solved by the first nonce, ["0"], and every nonce verifies inside the
    window. *)
Theorem zero_bits_is_no_work (c : Pow.Challenge) :
  (forall msg, length (Sum256 msg) = 32%nat) ->
  Pow.Bits c <= 0 ->
  (forall maxIterations, 1 <= maxIterations ->
     Pow.Solve Sum256 c maxIterations = Pow.Ok "0")
  /\ (forall now nonce,
        Pow.Ts c <= now <= GoInt.add (Pow.Ts c) (Pow.ExpiresIn c) ->
        Pow.Verify Sum256 now c nonce (Pow.Resource c) = None).
Proof.
  intros Hlen Hbits.
  assert (Hany : forall s nonce,
            Pow.LeadingZeroBits (Pow.digest Sum256 s nonce) >= Pow.Bits c).
  { intros s nonce.
    pose proof (LeadingZeroBits_bounds (Pow.digest Sum256 s nonce)) as Hb.
    unfold Pow.digest in *. rewrite Hlen in Hb.
    specialize (Hb ltac:(unfold GoInt.int_max; lia)). lia. }
  split.
  - intros maxIterations Hmax. unfold Pow.Solve.
    destruct (Z.to_nat maxIterations) as [|fuel] eqn:Hfuel; [lia|].
    cbn [Pow.Solve_loop].
    destruct (Z.ltb_spec 0 maxIterations); [|lia].
    specialize (Hany (Pow.StringForHash c) (Pow.Itoa 0)).
    destruct (Z.geb_spec (Pow.LeadingZeroBits
                            (Pow.digest Sum256 (Pow.StringForHash c) (Pow.Itoa 0)))
                (Pow.Bits c)); [reflexivity|lia].
  - intros now nonce Hwindow. apply Verify_accepts_exactly.
    split; [reflexivity|]. split; [exact Hwindow|apply Hany].
Qed.

End MorePow.

(** ** The canonical string of a generated challenge *)

Lemma colon_free_app (a b : string) :
  Notions.colon_free a -> Notions.colon_free b -> Notions.colon_free (a +:+ b).
Proof.
  induction a as [|x a IH]; intros Ha Hb; [exact Hb|].
  destruct Ha as [Hx Ha]. split; [exact Hx|]. apply IH; assumption.
Qed.

Lemma colon_free_no_colon_inside (a b : string) :
  ~ Notions.colon_free (a +:+ String ":" b).
Proof.
  induction a as [|x a IH]; intros Hfree.
  - destruct Hfree as [Hcolon _]. apply Hcolon. reflexivity.
  - destruct Hfree as [_ Hrest]. exact (IH Hrest).
Qed.

Lemma pretty_N_char_not_colon (n : N) : pretty_N_char n <> ":"%char.
Proof. unfold pretty_N_char. repeat case_match; discriminate. Qed.

Lemma pretty_N_go_colon_free (x : N) (s : string) :
  Notions.colon_free s -> Notions.colon_free (pretty_N_go x s).
Proof.
  revert s. induction (N.lt_wf_0 x) as [x _ IH]; intros s Hs.
  destruct (N.eq_dec x 0%N) as [->|Hx]; [rewrite pretty_N_go_0; exact Hs|].
  rewrite pretty_N_go_step by lia.
  apply IH; [apply N.div_lt; lia|].
  split; [apply pretty_N_char_not_colon|exact Hs].
Qed.

(** A decimal numeral holds no colon. *)
Lemma Itoa_colon_free (n : Z) : Notions.colon_free (Pow.Itoa n).
Proof.
  unfold Pow.Itoa, pretty, pretty_Z.
  assert (HN : forall m : N, Notions.colon_free (pretty m)).
  { intros m. unfold pretty, pretty_N. case_decide; [split; [discriminate|exact I]|].
    apply pretty_N_go_colon_free. exact I. }
  destruct n as [|p|p]; [apply (HN 0%N)|apply HN|].
  apply colon_free_app; [split; [discriminate|exact I]|apply HN].
Qed.

Lemma hex_digit_not_colon (n : N) : Pow.hex_digit n <> ":"%char.
Proof. unfold Pow.hex_digit. repeat case_match; discriminate. Qed.

(** A hexadecimal salt holds no colon. *)
Lemma hex_encode_colon_free (bs : list byte) : Notions.colon_free (Pow.hex_encode bs).
Proof.
  induction bs as [|b bs IH]; [exact I|].
  cbn [Pow.hex_encode]. repeat split; try apply hex_digit_not_colon. exact IH.
Qed.

(** A colon-free field followed by a colon is read back in one way only,
    from the left. *)
Lemma field_then_colon_unique (a b r r' : string) :
  Notions.colon_free a -> Notions.colon_free b ->
  a +:+ String ":" r = b +:+ String ":" r' -> a = b /\ r = r'.
Proof.
  revert b. induction a as [|x a IH]; intros [|y b] Ha Hb Heq; cbn in Heq.
  - injection Heq as ->. split; reflexivity.
  - injection Heq as <- _. destruct Hb as [Hy _]. contradiction Hy. reflexivity.
  - injection Heq as -> _. destruct Ha as [Hx _]. contradiction Hx. reflexivity.
  - injection Heq as -> Heq. destruct Ha as [_ Ha], Hb as [_ Hb].
    destruct (IH b Ha Hb Heq) as [-> ->]. split; reflexivity.
Qed.

(** A colon followed by a colon-free field is read back in one way only,
    from the right. *)
Lemma colon_then_field_unique (a b s s' : string) :
  Notions.colon_free s -> Notions.colon_free s' ->
  a +:+ String ":" s = b +:+ String ":" s' -> a = b /\ s = s'.
Proof.
  revert b. induction a as [|x a IH]; intros [|y b] Hs Hs' Heq; cbn in Heq.
  - injection Heq as ->. split; reflexivity.
  - injection Heq as _ ->. exfalso. exact (colon_free_no_colon_inside _ _ Hs).
  - injection Heq as _ <-. exfalso. exact (colon_free_no_colon_inside _ _ Hs').
  - injection Heq as -> Heq.
    destruct (IH b Hs Hs' Heq) as [-> ->]. split; reflexivity.
Qed.

(** [Generate] fails exactly when the entropy source does; the salt of
    the challenge it returns is two lower-case hexadecimal digits per
    random byte. *)
Lemma hex_encode_length (bs : list byte) :
  String.length (Pow.hex_encode bs) = (2 * length bs)%nat.
Proof. induction bs as [|b bs IH]; [reflexivity|]. cbn. rewrite IH. lia. Qed.

Lemma hex_digit_inj (n m : N) :
  (n < 16)%N -> (m < 16)%N -> Pow.hex_digit n = Pow.hex_digit m -> n = m.
Proof.
  intros Hn Hm Heq.
  pose (nibbles := map N.of_nat (seq 0 16)).
  assert (Hall : forallb (fun i =>
                   forallb (fun j =>
                     implb (Ascii.eqb (Pow.hex_digit i) (Pow.hex_digit j)) (N.eqb i j))
                     nibbles) nibbles = true) by (vm_compute; reflexivity).
  assert (Hin : forall k, (k < 16)%N -> In k nibbles).
  { intros k Hk. unfold nibbles. rewrite <- (N2Nat.id k).
    apply in_map, in_seq. lia. }
  rewrite forallb_forall in Hall. specialize (Hall n (Hin n Hn)).
  rewrite forallb_forall in Hall. specialize (Hall m (Hin m Hm)).
  rewrite Heq, Ascii.eqb_refl in Hall. cbn [implb] in Hall.
  apply N.eqb_eq, Hall.
Qed.

(** Distinct random bytes give distinct salts. *)
Lemma hex_encode_inj (bs bs' : list byte) :
  Pow.hex_encode bs = Pow.hex_encode bs' -> bs = bs'.
Proof.
  revert bs'. induction bs as [|b bs IH]; intros [|b' bs'] Heq; cbn in Heq;
    try discriminate Heq; [reflexivity|].
  injection Heq as Hhi Hlo Hrest.
  assert (Hb : forall x : byte, (Byte.to_N x < 256)%N) by (intros x; destruct x; cbv; reflexivity).
  apply hex_digit_inj in Hhi;
    [|apply N.Div0.div_lt_upper_bound; apply (Hb b)
     |apply N.Div0.div_lt_upper_bound; apply (Hb b')].
  apply hex_digit_inj in Hlo; [|apply N.mod_lt; discriminate|apply N.mod_lt; discriminate].
  assert (HN : Byte.to_N b = Byte.to_N b').
  { rewrite (N.div_mod (Byte.to_N b) 16), (N.div_mod (Byte.to_N b') 16) by discriminate.
    rewrite Hhi, Hlo. reflexivity. }
  assert (Hbb : Some b = Some b') by (rewrite <- !Byte.of_to_N, HN; reflexivity).
  injection Hbb as ->. f_equal. apply IH, Hrest.
Qed.

Lemma colon_app (x : string) : ":" +:+ x = String ":" x.
Proof. reflexivity. Qed.

(** Two challenges whose version, algorithm and salt hold no colon have
    the same canonical string only when they are the same challenge. *)
Lemma StringForHash_inj (c1 c2 : Pow.Challenge) :
  Notions.colon_free (Pow.Ver c1) -> Notions.colon_free (Pow.Alg c1) ->
  Notions.colon_free (Pow.Salt c1) ->
  Notions.colon_free (Pow.Ver c2) -> Notions.colon_free (Pow.Alg c2) ->
  Notions.colon_free (Pow.Salt c2) ->
  Pow.StringForHash c1 = Pow.StringForHash c2 -> c1 = c2.
Proof.
  destruct c1 as [v1 a1 b1 t1 e1 r1 s1], c2 as [v2 a2 b2 t2 e2 r2 s2].
  unfold Pow.StringForHash. cbn [Pow.Ver Pow.Alg Pow.Bits Pow.Ts Pow.ExpiresIn
                                  Pow.Resource Pow.Salt].
  intros Hv1 Ha1 Hs1 Hv2 Ha2 Hs2 Heq. rewrite !colon_app in Heq.
  apply field_then_colon_unique in Heq as [-> Heq]; [|assumption..].
  apply field_then_colon_unique in Heq as [-> Heq]; [|assumption..].
  apply field_then_colon_unique in Heq as [Hb Heq]; [|apply Itoa_colon_free..].
  apply field_then_colon_unique in Heq as [Ht Heq]; [|apply Itoa_colon_free..].
  apply field_then_colon_unique in Heq as [He Heq]; [|apply Itoa_colon_free..].
  apply colon_then_field_unique in Heq as [-> ->]; [|assumption..].
  unfold Pow.Itoa in Hb, Ht, He.
  apply (inj pretty) in Hb, Ht, He. subst. reflexivity.
Qed.

Lemma Generate_colon_free (rand : string + list byte) (now bits expiresIn : Z)
    (resource : string) (c : Pow.Challenge) :
  Pow.Generate rand now bits expiresIn resource = Pow.Ok c ->
  Notions.colon_free (Pow.Ver c) /\ Notions.colon_free (Pow.Alg c)
  /\ Notions.colon_free (Pow.Salt c).
Proof.
  unfold Pow.Generate, Pow.generateSalt. destruct rand as [err|b]; [discriminate|].
  intros [= <-]. cbn. split; [|split]; [repeat split; discriminate..|].
  apply hex_encode_colon_free.
Qed.

(** X5: the canonical string identifies a generated challenge: two
    challenges returned by [Generate], whatever the entropy, clock,
    difficulty, lifetime and resource they were made from, have the same
    string to hash only if they agree in every field. *)
Theorem canonical_string_identifies_generated_challenge
    (rand1 rand2 : string + list byte) (now1 now2 bits1 bits2 expiresIn1 expiresIn2 : Z)
    (resource1 resource2 : string) (c1 c2 : Pow.Challenge) :
  Pow.Generate rand1 now1 bits1 expiresIn1 resource1 = Pow.Ok c1 ->
  Pow.Generate rand2 now2 bits2 expiresIn2 resource2 = Pow.Ok c2 ->
  Pow.StringForHash c1 = Pow.StringForHash c2 ->
  c1 = c2.
Proof.
  intros H1 H2 Heq.
  destruct (Generate_colon_free _ _ _ _ _ _ H1) as (Hv1 & Ha1 & Hs1).
  destruct (Generate_colon_free _ _ _ _ _ _ H2) as (Hv2 & Ha2 & Hs2).
  apply StringForHash_inj; assumption.
Qed.

Lemma canonical_string_identifies_generated_challenge_witness :
  Pow.Generate (inr [x01; x02]) 5 6 60 "quote"
  = Pow.Ok {| Pow.Ver := "1"; Pow.Alg := "sha256"; Pow.Bits := 6; Pow.Ts := 5;
              Pow.ExpiresIn := 60; Pow.Resource := "quote"; Pow.Salt := "0102" |}
  /\ {| Pow.Ver := "1"; Pow.Alg := "sha256"; Pow.Bits := 6; Pow.Ts := 5;
        Pow.ExpiresIn := 60; Pow.Resource := "quote"; Pow.Salt := "0102" |}
     = {| Pow.Ver := "1"; Pow.Alg := "sha256"; Pow.Bits := 6; Pow.Ts := 5;
          Pow.ExpiresIn := 60; Pow.Resource := "quote"; Pow.Salt := "0102" |}.
Proof.
  split; [reflexivity|].
  apply (canonical_string_identifies_generated_challenge
           (inr [x01; x02]) (inr [x01; x02]) 5 5 6 6 60 60 "quote" "quote");
    reflexivity.
Defined.

(** X6: the salt keeps challenges apart: two challenges generated from
    different random bytes never have the same string to hash, whatever
    the other arguments. *)
Theorem distinct_entropy_gives_distinct_canonical_strings
    (b1 b2 : list byte) (now1 now2 bits1 bits2 expiresIn1 expiresIn2 : Z)
    (resource1 resource2 : string) :
  b1 <> b2 ->
  exists c1 c2,
    Pow.Generate (inr b1) now1 bits1 expiresIn1 resource1 = Pow.Ok c1
    /\ Pow.Generate (inr b2) now2 bits2 expiresIn2 resource2 = Pow.Ok c2
    /\ Pow.StringForHash c1 <> Pow.StringForHash c2.
Proof.
  intros Hne. eexists _, _. split; [reflexivity|]. split; [reflexivity|].
  intros Heq. apply StringForHash_inj in Heq;
    try (cbn; repeat split; discriminate); try (cbn; apply hex_encode_colon_free).
  apply Hne, hex_encode_inj. injection Heq as _ _ _ _ Hsalt. exact Hsalt.
Qed.

Lemma distinct_entropy_gives_distinct_canonical_strings_witness :
  exists c1 c2,
    Pow.Generate (inr [x01]) 5 6 60 "quote" = Pow.Ok c1
    /\ Pow.Generate (inr [x02]) 5 6 60 "quote" = Pow.Ok c2
    /\ Pow.StringForHash c1 <> Pow.StringForHash c2.
Proof.
  apply (distinct_entropy_gives_distinct_canonical_strings [x01] [x02] 5 5 6 6 60 60
           "quote" "quote").
  discriminate.
Defined.

Lemma string_app_assoc (a b c : string) : (a +:+ b) +:+ c = a +:+ (b +:+ c).
Proof.
  induction a as [|x a IH]; [reflexivity|].
  change (String x ((a +:+ b) +:+ c) = String x (a +:+ (b +:+ c))). rewrite IH. reflexivity.
Qed.

Lemma string_length_app (a b : string) :
  String.length (a +:+ b) = (String.length a + String.length b)%nat.
Proof.
  induction a as [|x a IH]; [reflexivity|].
  change (S (String.length (a +:+ b)) = S (String.length a + String.length b)).
  rewrite IH. reflexivity.
Qed.

(** X7: outside what [Generate] produces the canonical string is
    ambiguous: a colon may move between the resource and the salt without
    changing the string that is hashed. *)
Theorem canonical_string_is_ambiguous_between_resource_and_salt
    (c : Pow.Challenge) (left middle right : string) :
  let c1 := {| Pow.Ver := Pow.Ver c; Pow.Alg := Pow.Alg c; Pow.Bits := Pow.Bits c;
               Pow.Ts := Pow.Ts c; Pow.ExpiresIn := Pow.ExpiresIn c;
               Pow.Resource := left +:+ ":" +:+ middle; Pow.Salt := right |} in
  let c2 := {| Pow.Ver := Pow.Ver c; Pow.Alg := Pow.Alg c; Pow.Bits := Pow.Bits c;
               Pow.Ts := Pow.Ts c; Pow.ExpiresIn := Pow.ExpiresIn c;
               Pow.Resource := left; Pow.Salt := middle +:+ ":" +:+ right |} in
  Pow.StringForHash c1 = Pow.StringForHash c2 /\ c1 <> c2.
Proof.
  cbv zeta. split.
  - unfold Pow.StringForHash.
    cbn [Pow.Ver Pow.Alg Pow.Bits Pow.Ts Pow.ExpiresIn Pow.Resource Pow.Salt].
    rewrite !string_app_assoc. reflexivity.
  - intros Heq. injection Heq as Hres _.
    assert (Hlen : String.length (left +:+ ":" +:+ middle) = String.length left)
      by (rewrite Hres; reflexivity).
    rewrite !string_length_app in Hlen. cbn in Hlen. lia.
Qed.

(** ** The digest of [sha256.Sum256] *)

Lemma compress_length (h block : list Z) : length (SHA256.compress h block) = 8%nat.
Proof. reflexivity. Qed.

Lemma blocks_length (n : nat) (h bs : list Z) :
  length h = 8%nat -> length (SHA256.blocks n h bs) = 8%nat.
Proof.
  revert h bs. induction n as [|n IH]; intros h bs Hh; [exact Hh|].
  cbn [SHA256.blocks]. apply IH, compress_length.
Qed.

(** A SHA-256 digest is 32 bytes long. *)
Lemma Sum256_length (msg : list byte) : length (SHA256.Sum256 msg) = 32%nat.
Proof.
  unfold SHA256.Sum256. rewrite length_map.
  pose proof (blocks_length
                (Nat.div (length (SHA256.pad (map SHA256.byte_val msg))) 64)
                SHA256.H0 (SHA256.pad (map SHA256.byte_val msg)) eq_refl) as Hlen.
  destruct (SHA256.blocks _ _ _) as [|h0 [|h1 [|h2 [|h3 [|h4 [|h5 [|h6 [|h7 [|h8 t]]]]]]]]];
    try discriminate Hlen.
  reflexivity.
Qed.

Lemma Solve_keeps_nonce_under_larger_bound_witness :
  Pow.Solve SHA256.Sum256 Sample.challenge 40 = Pow.Ok "28"
  /\ Pow.Solve SHA256.Sum256 Sample.challenge 1000000 = Pow.Ok "28".
Proof.
  assert (Hsolve : Pow.Solve SHA256.Sum256 Sample.challenge 40 = Pow.Ok "28")
    by (vm_compute; reflexivity).
  split; [exact Hsolve|].
  apply (Solve_keeps_nonce_under_larger_bound SHA256.Sum256 Sample.challenge 40 1000000);
    [vm_compute; split; discriminate | vm_compute; split; discriminate | lia | exact Hsolve].
Defined.

Lemma more_than_256_bits_is_unsolvable_witness :
  let c := {| Pow.Ver := "1"; Pow.Alg := "sha256"; Pow.Bits := 257; Pow.Ts := 1700000000;
              Pow.ExpiresIn := 300; Pow.Resource := "quote"; Pow.Salt := "testsalt" |} in
  (forall now nonce resource, Pow.Verify SHA256.Sum256 now c nonce resource <> None)
  /\ (forall maxIterations,
        Pow.Solve SHA256.Sum256 c maxIterations = Pow.Err (Pow.ErrNoSolution maxIterations)).
Proof.
  cbv zeta. apply (more_than_256_bits_is_unsolvable SHA256.Sum256);
    [exact Sum256_length | reflexivity].
Defined.

Lemma zero_bits_is_no_work_witness :
  let c := {| Pow.Ver := "1"; Pow.Alg := "sha256"; Pow.Bits := 0; Pow.Ts := 1700000000;
              Pow.ExpiresIn := 300; Pow.Resource := "quote"; Pow.Salt := "testsalt" |} in
  (forall maxIterations, 1 <= maxIterations ->
     Pow.Solve SHA256.Sum256 c maxIterations = Pow.Ok "0")
  /\ (forall now nonce, Pow.Ts c <= now <= GoInt.add (Pow.Ts c) (Pow.ExpiresIn c) ->
        Pow.Verify SHA256.Sum256 now c nonce (Pow.Resource c) = None).
Proof.
  cbv zeta. apply (zero_bits_is_no_work SHA256.Sum256);
    [exact Sum256_length | cbn; lia].
Defined.

(** ** More about the limiter *)

Section MoreLimiter.

Context {F : Type} {float64 : Float64 F}.
Variable IP_String : list byte -> string.

Local Abbreviation Allow := (Ratelimit.Allow IP_String).
Local Abbreviation run := (Ratelimit.run IP_String).
Local Abbreviation Limiter := (Ratelimit.Limiter F).
Local Abbreviation bucket := (Ratelimit.bucket F).

(** The attempts recorded for [key], zero when it has no bucket. *)
Local Abbreviation recorded l key :=
  (match Ratelimit.buckets l !! key with
   | Some b => Ratelimit.attempts b
   | None => 0
   end).


Lemma lookup_or_create_elsewhere (l : Limiter) (k key : string) (b : bucket) (now : Z) :
  k <> key ->
  Ratelimit.lookup_or_create
    (Ratelimit.with_buckets l (<[k := b]> (Ratelimit.buckets l))) key now
  = Ratelimit.lookup_or_create l key now.
Proof.
  intros Hne. unfold Ratelimit.lookup_or_create.
  cbn [Ratelimit.buckets Ratelimit.with_buckets Ratelimit.capacity].
  rewrite lookup_insert_ne by exact Hne. reflexivity.
Qed.



(** X13: addresses do not interfere: two [Allow] calls for addresses with
    different strings give the same answers and leave the same limiter in
    either order. *)
Theorem Allow_on_distinct_addresses_commutes (l : Limiter) (a1 a2 : list byte)
    (t1 t2 : Z) :
  IP_String a1 <> IP_String a2 ->
  snd (Allow (fst (Allow l (Some a1) t1)) (Some a2) t2) = snd (Allow l (Some a2) t2)
  /\ snd (Allow (fst (Allow l (Some a2) t2)) (Some a1) t1) = snd (Allow l (Some a1) t1)
  /\ fst (Allow (fst (Allow l (Some a1) t1)) (Some a2) t2)
     = fst (Allow (fst (Allow l (Some a2) t2)) (Some a1) t1).
Proof.
  intros Hne.
  rewrite (Allow_unfold IP_String l a1 t1), (Allow_unfold IP_String l a2 t2). cbn [fst].
  rewrite !Allow_unfold. cbn [fst snd].
  rewrite !lookup_or_create_elsewhere by congruence.
  unfold Ratelimit.refill, Ratelimit.with_buckets.
  cbn [Ratelimit.buckets Ratelimit.rate Ratelimit.capacity Ratelimit.cleanup].
  split; [reflexivity|]. split; [reflexivity|].
  f_equal. apply insert_insert_ne. congruence.
Qed.

Lemma run_keeps_cleanup (cs : list Ratelimit.call) (l : Limiter) :
  Ratelimit.cleanup (run l cs) = Ratelimit.cleanup l.
Proof.
  revert l. induction cs as [|c cs IH]; intros l; [reflexivity|].
  cbn [Ratelimit.run fold_left]. fold (run (Ratelimit.step IP_String l c) cs).
  rewrite IH.
  destruct c as [[addr|] now|[addr|]|now]; cbn [Ratelimit.step]; try reflexivity.
  rewrite Allow_unfold. reflexivity.
Qed.

(** Against a bound that fits, the saturated difference of two clock
    readings compares as their difference over the integers. *)
Lemma Sub_exceeds (t u bound : Z) :
  GoInt.in_int t -> GoInt.in_int u -> 0 <= bound < GoInt.int_max ->
  Time.Sub t u > bound <-> t - u > bound.
Proof.
  unfold GoInt.in_int, GoInt.int_min, GoInt.int_max. intros Ht Hu Hb.
  unfold Time.Sub, GoInt.sub, GoInt.wrap, Time.maxDuration, Time.minDuration,
    GoInt.int_min, GoInt.int_max.
  assert (Hcases : t - u < - 2 ^ 63 \/ - 2 ^ 63 <= t - u <= 2 ^ 63 - 1 \/ 2 ^ 63 - 1 < t - u)
    by lia.
  destruct Hcases as [Hlow|[Hmid|Hhigh]].
  - assert (Hw : (t - u + 2 ^ 63) mod 2 ^ 64 = t - u + 2 ^ 63 + 2 ^ 64)
      by (symmetry; apply (Z.mod_unique _ _ (-1)); lia).
    rewrite Hw.
    destruct (Z.ltb_spec (t - u + 2 ^ 63 + 2 ^ 64 - 2 ^ 63) 0); [lia|].
    destruct (Z.gtb_spec (t - u + 2 ^ 63 + 2 ^ 64 - 2 ^ 63) 0); [|lia].
    destruct (Z.ltb_spec t u); [|lia]. cbn [andb]. lia.
  - rewrite Z.mod_small by lia.
    destruct (Z.ltb_spec (t - u + 2 ^ 63 - 2 ^ 63) 0);
      destruct (Z.gtb_spec t u); cbn [andb]; try lia;
      destruct (Z.gtb_spec (t - u + 2 ^ 63 - 2 ^ 63) 0);
      destruct (Z.ltb_spec t u); cbn [andb]; lia.
  - assert (Hw : (t - u + 2 ^ 63) mod 2 ^ 64 = t - u + 2 ^ 63 - 2 ^ 64)
      by (symmetry; apply (Z.mod_unique _ _ 1); lia).
    rewrite Hw.
    destruct (Z.ltb_spec (t - u + 2 ^ 63 - 2 ^ 64 - 2 ^ 63) 0); [|lia].
    destruct (Z.gtb_spec t u); [|lia]. cbn [andb]. lia.
Qed.

(** X14: the clean-up forgets exactly the addresses idle for more than
    ten minutes: in a limiter made by [NewLimiter], after any calls, a
    tick of [cleanupLoop] at [now] removes a bucket last checked more than
    600 seconds before [now] and keeps any other bucket as it is. *)
Theorem cleanup_forgets_addresses_idle_over_ten_minutes (rate capacity : Z)
    (cs : list Ratelimit.call) (now : Z) (key : string) (b : bucket) :
  let l := run (Ratelimit.NewLimiter rate capacity) cs in
  Ratelimit.buckets l !! key = Some b ->
  GoInt.in_int now -> GoInt.in_int (Ratelimit.lastCheck b) ->
  Ratelimit.buckets (Ratelimit.cleanupTick l now) !! key
  = if now - Ratelimit.lastCheck b >? 600 * Time.Second then None else Some b.
Proof.
  intros l Hb Hnow Hlast.
  assert (Hbound : GoInt.mul 2 (Ratelimit.cleanup l) = 600 * Time.Second).
  { unfold l. rewrite run_keeps_cleanup. vm_compute. reflexivity. }
  unfold Ratelimit.cleanupTick. cbn [Ratelimit.buckets Ratelimit.with_buckets].
  rewrite Hbound.
  pose proof (Sub_exceeds now (Ratelimit.lastCheck b) (600 * Time.Second) Hnow Hlast
                ltac:(vm_compute; split; [discriminate|reflexivity])) as Hsub.
  destruct (Z.gtb_spec (now - Ratelimit.lastCheck b) (600 * Time.Second)) as [Hold|Hnew].
  - apply map_lookup_filter_None. right. intros b' Hb' Hkeep.
    rewrite Hb in Hb'. injection Hb' as <-. cbn in Hkeep. apply Hkeep, Hsub. lia.
  - apply map_lookup_filter_Some. split; [exact Hb|].
    cbn. intros Hgone. apply Hsub in Hgone. lia.
Qed.

End MoreLimiter.

(** *** A burst at one instant *)

Section BurstOnBinary64.

Variable IP_String : list byte -> string.

Local Existing Instance IEEE.binary64.

Local Abbreviation Allow := (Ratelimit.Allow IP_String).
Local Abbreviation run := (Ratelimit.run IP_String).
Local Abbreviation Limiter := (Ratelimit.Limiter SpecFloat.spec_float).

(** [Allow] at the instant [now] on a bucket checked at [now] that holds
    [m] whole tokens: allowed when [m] is at least one, and one token
    fewer afterwards. *)
Lemma Allow_whole_tokens (l : Limiter) (addr : list byte) (now m : Z) :
  let b := Ratelimit.lookup_or_create l (IP_String addr) now in
  Ratelimit.tokens b = IEEE.of_int m -> Ratelimit.lastCheck b = now ->
  0 <= m <= Ratelimit.capacity l -> Ratelimit.capacity l <= 2 ^ 53 ->
  GoInt.in_int (Ratelimit.rate l) ->
  let l' := fst (Allow l (Some addr) now) in
  let b' := Ratelimit.lookup_or_create l' (IP_String addr) now in
  fst (snd (Allow l (Some addr) now)) = (1 <=? m)
  /\ Ratelimit.tokens b' = IEEE.of_int (Z.max (m - 1) 0)
  /\ Ratelimit.lastCheck b' = now
  /\ Ratelimit.capacity l' = Ratelimit.capacity l
  /\ Ratelimit.rate l' = Ratelimit.rate l.
Proof.
  intros b Htok Hlast Hm Hcap Hrate l' b'.
  assert (Hrefill : Ratelimit.refill l b now = IEEE.of_int m).
  { replace (Ratelimit.refill l b now)
      with (Ratelimit.refill l b (Ratelimit.lastCheck b)) by (rewrite Hlast; reflexivity).
    rewrite <- Htok. apply refill_at_once.
    - rewrite Htok. apply Binary64.of_int_sign. lia.
    - exact Hrate.
    - rewrite Htok. apply Binary64.of_int_mono_small; lia.
    - lia. }
  assert (Hallowed : SpecFloat.SFleb (IEEE.of_int 1) (IEEE.of_int m) = (1 <=? m)).
  { destruct (Z.leb_spec 1 m) as [Hone|Hzero].
    - apply Binary64.one_leb_of_int, Hone.
    - assert (Hm0 : m = 0) by lia. subst m. apply Binary64.one_not_leb_zero. }
  subst l' b'. rewrite Allow_unfold. fold b. rewrite Hrefill.
  change (@f_leb _ IEEE.binary64 (@f_of_int _ IEEE.binary64 1) (IEEE.of_int m))
    with (SpecFloat.SFleb (IEEE.of_int 1) (IEEE.of_int m)).
  rewrite Hallowed.
  cbn [fst snd]. split; [reflexivity|].
  unfold Ratelimit.lookup_or_create at 1 2.
  cbn [Ratelimit.buckets Ratelimit.with_buckets]. rewrite lookup_insert_eq.
  cbn [Ratelimit.tokens Ratelimit.lastCheck]. split; [|repeat split].
  destruct (Z.leb_spec 1 m) as [Hone|Hzero].
  - change (@f_sub _ IEEE.binary64 (IEEE.of_int m) (@f_of_int _ IEEE.binary64 1))
      with (SpecFloat.SFsub IEEE.prec IEEE.emax (IEEE.of_int m) (IEEE.of_int 1)).
    rewrite Binary64.sub_one_exact by lia. f_equal. lia.
  - f_equal. lia.
Qed.

Lemma burst_tokens (l : Limiter) (addr : list byte) (now m : Z) (n : nat) :
  let b := Ratelimit.lookup_or_create l (IP_String addr) now in
  Ratelimit.tokens b = IEEE.of_int m -> Ratelimit.lastCheck b = now ->
  0 <= m <= Ratelimit.capacity l -> Ratelimit.capacity l <= 2 ^ 53 ->
  GoInt.in_int (Ratelimit.rate l) ->
  fst (snd (Allow (run l (repeat (Ratelimit.CallAllow (Some addr) now) n))
              (Some addr) now))
  = (Z.of_nat n <? m).
Proof.
  revert l m. induction n as [|n IH]; intros l m b Htok Hlast Hm Hcap Hrate.
  - cbn [repeat Ratelimit.run fold_left].
    destruct (Allow_whole_tokens l addr now m Htok Hlast Hm Hcap Hrate) as [-> _].
    destruct (Z.leb_spec 1 m), (Z.ltb_spec (Z.of_nat 0) m); lia.
  - cbn [repeat Ratelimit.run fold_left Ratelimit.step].
    fold (run (fst (Allow l (Some addr) now))
            (repeat (Ratelimit.CallAllow (Some addr) now) n)).
    destruct (Allow_whole_tokens l addr now m Htok Hlast Hm Hcap Hrate)
      as (_ & Htok' & Hlast' & Hcap' & Hrate').
    rewrite (IH (fst (Allow l (Some addr) now)) (Z.max (m - 1) 0) Htok' Hlast');
      [|rewrite Hcap'; lia|rewrite Hcap'; exact Hcap|rewrite Hrate'; exact Hrate].
    destruct (Z.ltb_spec (Z.of_nat n) (Z.max (m - 1) 0)),
             (Z.ltb_spec (Z.of_nat (S n)) m); lia.
Qed.

(** X15: the burst is the capacity: for an address that has no bucket,
    of the [Allow] calls made at one instant the first [capacity] are
    allowed and every later one is refused, for a capacity between 0 and
    [2^53], which binary64 counts exactly. *)
Theorem burst_at_one_instant_is_the_capacity (l : Limiter) (addr : list byte)
    (now : Z) (n : nat) :
  Ratelimit.buckets l !! IP_String addr = None ->
  0 <= Ratelimit.capacity l <= 2 ^ 53 ->
  GoInt.in_int (Ratelimit.rate l) ->
  fst (snd (Allow (run l (repeat (Ratelimit.CallAllow (Some addr) now) n))
              (Some addr) now))
  = (Z.of_nat n <? Ratelimit.capacity l).
Proof.
  intros Hnone Hcap Hrate.
  apply burst_tokens; try assumption; try lia;
    unfold Ratelimit.lookup_or_create; rewrite Hnone; reflexivity.
Qed.

End BurstOnBinary64.


Lemma Allow_on_distinct_addresses_commutes_witness :
  let l : Ratelimit.Limiter SpecFloat.spec_float := Ratelimit.NewLimiter 10 5 in
  let Allow := Ratelimit.Allow (float64 := IEEE.binary64) Sample.dotted in
  let a1 := Sample.ip in
  let a2 := [x0a; x00; x00; x01] in
  snd (Allow (fst (Allow l (Some a1) 1000)) (Some a2) 2000) = snd (Allow l (Some a2) 2000)
  /\ snd (Allow (fst (Allow l (Some a2) 2000)) (Some a1) 1000) = snd (Allow l (Some a1) 1000)
  /\ fst (Allow (fst (Allow l (Some a1) 1000)) (Some a2) 2000)
     = fst (Allow (fst (Allow l (Some a2) 2000)) (Some a1) 1000).
Proof.
  cbv zeta.
  apply (Allow_on_distinct_addresses_commutes (float64 := IEEE.binary64) Sample.dotted).
  vm_compute. discriminate.
Defined.

Lemma cleanup_forgets_addresses_idle_over_ten_minutes_witness :
  let l := Ratelimit.run (float64 := IEEE.binary64) Sample.dotted
             (Ratelimit.NewLimiter 10 5) [Ratelimit.CallAllow (Some Sample.ip) 1000] in
  Ratelimit.buckets (Ratelimit.cleanupTick l 601000001000) !! "192.168.1.1" = None
  /\ Ratelimit.buckets (Ratelimit.cleanupTick l 600000001000) !! "192.168.1.1"
     = Ratelimit.buckets l !! "192.168.1.1".
Proof.
  cbv zeta.
  assert (Hb : Ratelimit.buckets
                 (Ratelimit.run (float64 := IEEE.binary64) Sample.dotted
                    (Ratelimit.NewLimiter 10 5)
                    [Ratelimit.CallAllow (Some Sample.ip) 1000]) !! "192.168.1.1"
               = Some {| Ratelimit.tokens := IEEE.of_int 4;
                         Ratelimit.lastCheck := 1000; Ratelimit.attempts := 1 |})
    by (vm_compute; reflexivity).
  split.
  - apply (cleanup_forgets_addresses_idle_over_ten_minutes (float64 := IEEE.binary64)
             Sample.dotted 10 5 [Ratelimit.CallAllow (Some Sample.ip) 1000]
             601000001000 "192.168.1.1" _ Hb);
      vm_compute; split; discriminate.
  - rewrite Hb.
    apply (cleanup_forgets_addresses_idle_over_ten_minutes (float64 := IEEE.binary64)
             Sample.dotted 10 5 [Ratelimit.CallAllow (Some Sample.ip) 1000]
             600000001000 "192.168.1.1" _ Hb);
      vm_compute; split; discriminate.
Defined.

Lemma burst_at_one_instant_is_the_capacity_witness :
  let l : Ratelimit.Limiter SpecFloat.spec_float := Ratelimit.NewLimiter 10 3 in
  let Allow := Ratelimit.Allow (float64 := IEEE.binary64) Sample.dotted in
  let run := Ratelimit.run (float64 := IEEE.binary64) Sample.dotted in
  fst (snd (Allow (run l (repeat (Ratelimit.CallAllow (Some Sample.ip) 1000) 2))
              (Some Sample.ip) 1000)) = true
  /\ fst (snd (Allow (run l (repeat (Ratelimit.CallAllow (Some Sample.ip) 1000) 3))
                 (Some Sample.ip) 1000)) = false.
Proof.
  cbv zeta.
  assert (Hcap : 0 <= 3 <= 2 ^ 53) by (vm_compute; split; discriminate).
  assert (Hrate : GoInt.in_int 10) by (vm_compute; split; discriminate).
  split.
  - apply (burst_at_one_instant_is_the_capacity Sample.dotted
             (Ratelimit.NewLimiter 10 3) Sample.ip 1000 2 eq_refl Hcap Hrate).
  - apply (burst_at_one_instant_is_the_capacity Sample.dotted
             (Ratelimit.NewLimiter 10 3) Sample.ip 1000 3 eq_refl Hcap Hrate).
Defined.

(** ** More about the connection handler *)

Section MoreHandler.

Context {F : Type} {float64 : Float64 F}.
Variable IP_String : list byte -> string.
Variable Sum256 : list byte -> list byte.

Local Abbreviation handleConnection := (Server.handleConnection IP_String Sum256).
Local Abbreviation checkRateLimit := (Server.checkRateLimit IP_String).

(** What [Verify] has checked when it returns no error. *)
Lemma Verify_None_checks (now : Z) (c : Pow.Challenge) (solution resource : string) :
  Pow.Verify Sum256 now c solution resource = None ->
  Pow.Resource c = resource
  /\ Pow.Ts c <= now <= GoInt.add (Pow.Ts c) (Pow.ExpiresIn c)
  /\ Pow.LeadingZeroBits (Pow.digest Sum256 (Pow.StringForHash c) solution) >= Pow.Bits c.
Proof.
  unfold Pow.Verify.
  destruct (String.eqb_spec (Pow.Resource c) resource) as [Hres|Hres];
    cbn [negb]; [|discriminate].
  destruct (Z.ltb_spec now (Pow.Ts c)); [discriminate|].
  destruct (Z.gtb_spec now (GoInt.add (Pow.Ts c) (Pow.ExpiresIn c))); [discriminate|].
  cbv zeta.
  destruct (Z.ltb_spec
              (Pow.LeadingZeroBits (Pow.digest Sum256 (Pow.StringForHash c) solution))
              (Pow.Bits c)); [discriminate|].
  intros _. split; [exact Hres|]. lia.
Qed.

(** What has happened on a connection on which a quote was sent. *)
Lemma sent_quote_verified (cfg : Server.Config)
    (limiter : option (Ratelimit.Limiter F)) (env : Server.Env)
    (m : Server.QuoteMessage) :
  In (Server.SentQuote m) (snd (handleConnection cfg limiter env)) ->
  exists c nonce,
    snd (fst (checkRateLimit limiter env)) = true
    /\ Pow.Generate (Server.rand env) (Server.generateNow env)
         (Server.effectiveBits cfg (snd (checkRateLimit limiter env)))
         (Server.ExpiresIn cfg) "quote" = Pow.Ok c
    /\ Server.received env
       = inr {| Server.sm_Type := Server.TypeSolution; Server.sm_Nonce := nonce |}
    /\ Pow.LeadingZeroBits (Pow.digest Sum256 (Pow.StringForHash c) nonce)
       >= Server.effectiveBits cfg (snd (checkRateLimit limiter env))
    /\ Server.generateNow env <= Server.verifyNow env
       <= GoInt.add (Server.generateNow env) (Server.ExpiresIn cfg)
    /\ Server.randomQuote env = inr (Server.qm_Quote m)
    /\ Server.qm_Type m = Server.TypeQuote.
Proof.
  unfold Server.handleConnection.
  destruct (checkRateLimit limiter env) as [[l1 allowed] attempts]. cbn [fst snd].
  destruct allowed; cbn [negb]; [|cbn; intros [Hs|[]]; discriminate Hs].
  destruct (Server.setDeadlineOk env); cbn [negb]; [|intros []].
  destruct (Pow.Generate _ _ _ _ _) as [c|e] eqn:Hgen;
    [|cbn; intros [Hs|[]]; discriminate Hs].
  destruct (Server.sendChallengeOk env); cbn [negb]; [|intros []].
  destruct (Server.received env) as [err|[type nonce]];
    [cbn; intros [Hs|[Hs|[]]]; discriminate Hs|].
  cbn [Server.sm_Type Server.sm_Nonce].
  destruct (String.eqb_spec type Server.TypeSolution) as [->|Htype]; cbn [negb];
    [|cbn; intros [Hs|[Hs|[]]]; discriminate Hs].
  destruct (Pow.Verify _ _ _ _ _) as [err|] eqn:Hverify;
    [cbn; intros [Hs|[Hs|[]]]; discriminate Hs|].
  apply Verify_None_checks in Hverify as (_ & Hwindow & Hbits).
  destruct (Generate_fields _ _ _ _ _ _ Hgen) as (Hb & Hts & Hexp & _).
  rewrite Hb in Hbits. rewrite Hts, Hexp in Hwindow.
  destruct (Server.randomQuote env) as [err|quote];
    [cbn; intros [Hs|[Hs|[]]]; discriminate Hs|].
  destruct (Server.sendQuoteOk env); [|cbn; intros [Hs|[]]; discriminate Hs].
  cbn. intros [Hs|[Hs|[]]]; [discriminate Hs|]. injection Hs as <-.
  exists c, nonce. cbn. repeat split; try assumption; lia.
Qed.

(** X16: no quote without work: whenever the handler sends a quote, the
    connection was allowed, the client's message was a solution message,
    its nonce has at least the required leading zero bits on the challenge
    that was generated for this connection, the clock was inside the
    challenge's window, and the quote is the one [quotes.Random] gave. *)
Theorem quote_is_sent_only_for_a_verified_solution (cfg : Server.Config)
    (limiter : option (Ratelimit.Limiter F)) (env : Server.Env)
    (m : Server.QuoteMessage) :
  In (Server.SentQuote m) (snd (handleConnection cfg limiter env)) ->
  exists c nonce,
    snd (fst (checkRateLimit limiter env)) = true
    /\ Pow.Generate (Server.rand env) (Server.generateNow env)
         (Server.effectiveBits cfg (snd (checkRateLimit limiter env)))
         (Server.ExpiresIn cfg) "quote" = Pow.Ok c
    /\ Server.received env
       = inr {| Server.sm_Type := Server.TypeSolution; Server.sm_Nonce := nonce |}
    /\ Pow.LeadingZeroBits (Pow.digest Sum256 (Pow.StringForHash c) nonce)
       >= Server.effectiveBits cfg (snd (checkRateLimit limiter env))
    /\ Server.generateNow env <= Server.verifyNow env
       <= GoInt.add (Server.generateNow env) (Server.ExpiresIn cfg)
    /\ Server.randomQuote env = inr (Server.qm_Quote m)
    /\ Server.qm_Type m = Server.TypeQuote.
Proof. apply sent_quote_verified. Qed.

(** X17: work is rewarded: when the connection is allowed and the
    network, the entropy source and [quotes.Random] do not fail, a client
    that answers with the nonce [Solve] finds for the challenge it was
    sent, while the challenge is valid, is sent the challenge and then the
    quote, and nothing else. *)
Theorem solved_challenge_is_served (cfg : Server.Config)
    (limiter : option (Ratelimit.Limiter F)) (env : Server.Env)
    (c : Pow.Challenge) (maxIterations : Z) (nonce quote : string) :
  snd (fst (checkRateLimit limiter env)) = true ->
  Server.setDeadlineOk env = true ->
  Pow.Generate (Server.rand env) (Server.generateNow env)
    (Server.effectiveBits cfg (snd (checkRateLimit limiter env)))
    (Server.ExpiresIn cfg) "quote" = Pow.Ok c ->
  Server.sendChallengeOk env = true ->
  Pow.Solve Sum256 c maxIterations = Pow.Ok nonce ->
  Server.received env
  = inr {| Server.sm_Type := Server.TypeSolution; Server.sm_Nonce := nonce |} ->
  GoInt.in_int (Server.generateNow env + Server.ExpiresIn cfg) ->
  Server.generateNow env <= Server.verifyNow env
  <= Server.generateNow env + Server.ExpiresIn cfg ->
  Server.randomQuote env = inr quote ->
  Server.sendQuoteOk env = true ->
  snd (handleConnection cfg limiter env)
  = [Server.SentChallenge
       {| Server.cm_Type := Server.TypeChallenge; Server.cm_Challenge := c |};
     Server.SentQuote {| Server.qm_Type := Server.TypeQuote; Server.qm_Quote := quote |}].
Proof.
  intros Hallowed Hdeadline Hgen Hsend Hsolve Hrecv Hend Hwindow Hquote Hsent.
  destruct (Generate_fields _ _ _ _ _ _ Hgen) as (_ & Hts & Hexp & Hres).
  assert (Hverify : Pow.Verify Sum256 (Server.verifyNow env) c nonce "quote" = None).
  { rewrite <- Hres.
    apply (Solve_then_Verify_integer_window Sum256 c maxIterations nonce);
      [rewrite Hts, Hexp; exact Hend|exact Hsolve|rewrite Hts, Hexp; exact Hwindow]. }
  unfold Server.handleConnection. revert Hallowed Hgen.
  destruct (checkRateLimit limiter env) as [[l1 allowed] attempts]. cbn [fst snd].
  intros -> Hgen. cbn [negb].
  rewrite Hdeadline, Hgen, Hsend, Hrecv. cbn [negb Server.sm_Type Server.sm_Nonce].
  rewrite String.eqb_refl, Hverify, Hquote, Hsent. reflexivity.
Qed.

(** X18: the shape of every exchange: the handler writes nothing, one
    error, or the challenge followed by at most one reply, which is the
    quote or an error; never two challenges, and never a quote first. *)
Theorem handler_sends_a_challenge_then_at_most_one_reply (cfg : Server.Config)
    (limiter : option (Ratelimit.Limiter F)) (env : Server.Env) :
  match snd (handleConnection cfg limiter env) with
  | [] | [Server.SentError _] | [Server.SentChallenge _]
  | [Server.SentChallenge _; Server.SentError _]
  | [Server.SentChallenge _; Server.SentQuote _] => True
  | _ => False
  end.
Proof.
  unfold Server.handleConnection.
  destruct (checkRateLimit limiter env) as [[l1 allowed] attempts].
  destruct allowed; cbn [negb]; [|exact I].
  destruct (Server.setDeadlineOk env); cbn [negb]; [|exact I].
  destruct (Pow.Generate _ _ _ _ _) as [c|e]; [|exact I].
  destruct (Server.sendChallengeOk env); cbn [negb]; [|exact I].
  destruct (Server.received env) as [err|solutionMsg]; [exact I|].
  destruct (String.eqb _ _); cbn [negb]; [|exact I].
  destruct (Pow.Verify _ _ _ _ _) as [err|]; [exact I|].
  destruct (Server.randomQuote env) as [err|quote]; [exact I|].
  destruct (Server.sendQuoteOk env); exact I.
Qed.

(** Without a limiter, or without a client address, the connection is
    allowed with no attempts and the limiter is not touched. *)
Lemma checkRateLimit_untracked (cfg : Server.Config) (env : Server.Env) :
  Server.RateLimit cfg <= 0 \/ Server.clientIP env = None ->
  checkRateLimit (Server.startLimiter cfg) env = (Server.startLimiter cfg, true, 0).
Proof.
  intros [Hoff|Hnil]; unfold Server.checkRateLimit, Server.startLimiter.
  - destruct (Z.gtb_spec (Server.RateLimit cfg) 0); [lia|reflexivity].
  - rewrite Hnil. destruct (Server.RateLimit cfg >? 0); reflexivity.
Qed.

Lemma effectiveBits_no_attempts (cfg : Server.Config) :
  Server.effectiveBits cfg 0 = Server.Bits cfg.
Proof. unfold Server.effectiveBits. rewrite andb_false_r. reflexivity. Qed.

(** X19: adaptive difficulty needs the rate limiter: when rate limiting
    is disabled ([RateLimit <= 0], so [Start] creates no limiter) or the
    client has no TCP address, every challenge asks for the base
    difficulty, whatever [AdaptiveBits] says. *)
Theorem adaptive_bits_need_the_rate_limiter (cfg : Server.Config) (env : Server.Env)
    (m : Server.ChallengeMessage) :
  Server.RateLimit cfg <= 0 \/ Server.clientIP env = None ->
  In (Server.SentChallenge m)
     (snd (handleConnection cfg (Server.startLimiter cfg) env)) ->
  Pow.Bits (Server.cm_Challenge m) = Server.Bits cfg.
Proof.
  intros Hoff. unfold Server.handleConnection.
  rewrite (checkRateLimit_untracked cfg env Hoff), effectiveBits_no_attempts.
  cbn [negb].
  destruct (Server.setDeadlineOk env); cbn [negb]; [|intros []].
  destruct (Pow.Generate _ _ _ _ _) as [c|e] eqn:Hgen;
    [|cbn; intros [Hs|[]]; discriminate Hs].
  destruct (Generate_fields _ _ _ _ _ _ Hgen) as (Hb & _).
  assert (Hfirst : forall rest,
             In (Server.SentChallenge m)
                (Server.SentChallenge
                   {| Server.cm_Type := Server.TypeChallenge; Server.cm_Challenge := c |}
                 :: rest) ->
             (forall s, In s rest -> s <> Server.SentChallenge m) ->
             Pow.Bits (Server.cm_Challenge m) = Server.Bits cfg).
  { intros rest [Hs|Hin] Hrest; [injection Hs as <-; exact Hb|].
    contradiction (Hrest _ Hin). reflexivity. }
  assert (Hone : forall r : Server.sent,
             (forall m', r <> Server.SentChallenge m') ->
             forall s, In s [r] -> s <> Server.SentChallenge m).
  { intros r Hr s [<-|[]]. apply Hr. }
  destruct (Server.sendChallengeOk env); cbn [negb]; [|intros []].
  destruct (Server.received env) as [err|solutionMsg];
    [intros Hin; apply (Hfirst _ Hin), Hone; discriminate|].
  destruct (String.eqb _ _); cbn [negb];
    [|intros Hin; apply (Hfirst _ Hin), Hone; discriminate].
  destruct (Pow.Verify _ _ _ _ _) as [err|];
    [intros Hin; apply (Hfirst _ Hin), Hone; discriminate|].
  destruct (Server.randomQuote env) as [err|quote];
    [intros Hin; apply (Hfirst _ Hin), Hone; discriminate|].
  destruct (Server.sendQuoteOk env);
    [intros Hin; apply (Hfirst _ Hin), Hone; discriminate|].
  intros Hin. apply (Hfirst _ Hin). intros s [].
Qed.

(** X20: a connection touches its own bucket only: whatever happens on a
    connection, the limiter keeps its rate, capacity and clean-up
    interval, and the bucket of every address other than the client's is
    left as it was. *)
Theorem handler_touches_only_the_clients_bucket (cfg : Server.Config)
    (l : Ratelimit.Limiter F) (env : Server.Env) (key : string) :
  (forall addr, Server.clientIP env = Some addr -> IP_String addr <> key) ->
  exists l',
    fst (handleConnection cfg (Some l) env) = Some l'
    /\ Ratelimit.buckets l' !! key = Ratelimit.buckets l !! key
    /\ Ratelimit.rate l' = Ratelimit.rate l
    /\ Ratelimit.capacity l' = Ratelimit.capacity l
    /\ Ratelimit.cleanup l' = Ratelimit.cleanup l.
Proof.
  intros Hother. unfold Server.handleConnection, Server.checkRateLimit.
  destruct (Server.clientIP env) as [addr|] eqn:Hip.
  - specialize (Hother addr eq_refl).
    rewrite Allow_unfold. cbv zeta.
    set (l1 := Ratelimit.with_buckets l _).
    assert (H1 : Ratelimit.buckets l1 !! key = Ratelimit.buckets l !! key).
    { unfold l1. cbn [Ratelimit.buckets Ratelimit.with_buckets].
      apply lookup_insert_ne. exact Hother. }
    assert (H2 : Ratelimit.buckets (Ratelimit.Reset IP_String l1 (Some addr)) !! key
                 = Ratelimit.buckets l !! key).
    { cbn [Ratelimit.Reset Ratelimit.buckets Ratelimit.with_buckets].
      rewrite lookup_delete_ne by exact Hother. exact H1. }
    destruct (f_leb _ _); cbn [negb];
      [|exists l1; repeat split; assumption].
    destruct (Server.setDeadlineOk env); cbn [negb];
      [|exists l1; repeat split; assumption].
    destruct (Pow.Generate _ _ _ _ _) as [c|e];
      [|exists l1; repeat split; assumption].
    destruct (Server.sendChallengeOk env); cbn [negb];
      [|exists l1; repeat split; assumption].
    destruct (Server.received env) as [err|solutionMsg];
      [exists l1; repeat split; assumption|].
    destruct (String.eqb _ _); cbn [negb];
      [|exists l1; repeat split; assumption].
    destruct (Pow.Verify _ _ _ _ _) as [err|];
      [exists l1; repeat split; assumption|].
    destruct (Server.randomQuote env) as [err|quote];
      [|destruct (Server.sendQuoteOk env)];
      exists (Ratelimit.Reset IP_String l1 (Some addr)); repeat split; assumption.
  - exists l. split; [|repeat split].
    cbn [negb].
    destruct (Server.setDeadlineOk env); cbn [negb]; [|reflexivity].
    destruct (Pow.Generate _ _ _ _ _) as [c|e]; [|reflexivity].
    destruct (Server.sendChallengeOk env); cbn [negb]; [|reflexivity].
    destruct (Server.received env) as [err|solutionMsg]; [reflexivity|].
    destruct (String.eqb _ _); cbn [negb]; [|reflexivity].
    destruct (Pow.Verify _ _ _ _ _) as [err|]; [reflexivity|].
    destruct (Server.randomQuote env) as [err|quote];
      [|destruct (Server.sendQuoteOk env)]; reflexivity.
Qed.

(** *** Connections that are not served *)

Local Abbreviation Allow := (Ratelimit.Allow IP_String).
Local Abbreviation handleInTurn := (Sessions.handleInTurn IP_String Sum256).

Local Abbreviation recorded l key :=
  (match Ratelimit.buckets l !! key with
   | Some b => Ratelimit.attempts b
   | None => 0
   end).

(** A connection that was not served leaves the limiter as [Allow] left
    it: nothing is reset. *)
Lemma unserved_limiter (cfg : Server.Config) (l : Ratelimit.Limiter F)
    (env : Server.Env) :
  Notions.unserved (snd (handleConnection cfg (Some l) env)) ->
  fst (handleConnection cfg (Some l) env)
  = Some (fst (Allow l (Server.clientIP env) (Server.allowNow env))).
Proof.
  unfold Server.handleConnection, Server.checkRateLimit.
  destruct (Server.clientIP env) as [addr|].
  - destruct (Allow l (Some addr) (Server.allowNow env)) as [l1 [allowed n]].
    cbn [fst].
    destruct allowed; cbn [negb]; [|reflexivity].
    destruct (Server.setDeadlineOk env); cbn [negb]; [|reflexivity].
    destruct (Pow.Generate _ _ _ _ _) as [c|e]; [|reflexivity].
    destruct (Server.sendChallengeOk env); cbn [negb]; [|reflexivity].
    destruct (Server.received env) as [err|solutionMsg]; [reflexivity|].
    destruct (String.eqb _ _); cbn [negb]; [|reflexivity].
    destruct (Pow.Verify _ _ _ _ _) as [err|]; [reflexivity|].
    destruct (Server.randomQuote env) as [err|quote];
      [|destruct (Server.sendQuoteOk env)]; cbn; intros Hun; contradiction.
  - intros _. cbn [Ratelimit.Allow fst negb].
    destruct (Server.setDeadlineOk env); cbn [negb]; [|reflexivity].
    destruct (Pow.Generate _ _ _ _ _) as [c|e]; [|reflexivity].
    destruct (Server.sendChallengeOk env); cbn [negb]; [|reflexivity].
    destruct (Server.received env) as [err|solutionMsg]; [reflexivity|].
    destruct (String.eqb _ _); cbn [negb]; [|reflexivity].
    destruct (Pow.Verify _ _ _ _ _) as [err|]; [reflexivity|].
    destruct (Server.randomQuote env) as [err|quote];
      [|destruct (Server.sendQuoteOk env)]; reflexivity.
Qed.

(** One [Allow] adds one to the attempts recorded for its address, and
    returns the new count. *)
Lemma Allow_recorded (l : Ratelimit.Limiter F) (addr : list byte) (now : Z) :
  GoInt.int_min <= recorded l (IP_String addr) < GoInt.int_max ->
  recorded (fst (Allow l (Some addr) now)) (IP_String addr)
  = recorded l (IP_String addr) + 1
  /\ snd (snd (Allow l (Some addr) now)) = recorded l (IP_String addr) + 1.
Proof.
  intros Hroom. rewrite Allow_unfold. cbn [fst snd].
  cbn [Ratelimit.buckets Ratelimit.with_buckets]. rewrite lookup_insert_eq.
  cbn [Ratelimit.attempts]. unfold Ratelimit.lookup_or_create.
  destruct (Ratelimit.buckets l !! IP_String addr); cbn [Ratelimit.attempts];
    (split; apply add_no_overflow;
     unfold GoInt.in_int, GoInt.int_min, GoInt.int_max in *; lia).
Qed.

(** The difficulty of a challenge that was sent. *)
Lemma sent_challenge_bits (cfg : Server.Config)
    (limiter : option (Ratelimit.Limiter F)) (env : Server.Env)
    (m : Server.ChallengeMessage) :
  In (Server.SentChallenge m) (snd (handleConnection cfg limiter env)) ->
  Pow.Bits (Server.cm_Challenge m)
  = Server.effectiveBits cfg (snd (checkRateLimit limiter env)).
Proof.
  intros Hin. apply handleConnection_sends in Hin.
  destruct Hin as [Hs|[Hs|(c & Hgen & Hs)]]; try discriminate Hs.
  destruct (Generate_fields _ _ _ _ _ _ Hgen) as (Hb & _).
  destruct Hs as [Hs|[Hs|[Hs|[(nonce & err & _ & Hs)|[Hs|(q & Hs)]]]]];
    try discriminate Hs.
  injection Hs as ->. exact Hb.
Qed.


(** A tick of the clean-up no more than ten minutes after a bucket was
    checked keeps the bucket, and a tick brings no bucket back. *)
Lemma cleanupTick_keeps_recent (l : Ratelimit.Limiter F) (now : Z) (key : string)
    (b : Ratelimit.bucket F) :
  Ratelimit.cleanup l = GoInt.mul 5 Time.Minute ->
  Ratelimit.buckets l !! key = Some b ->
  GoInt.in_int now -> GoInt.in_int (Ratelimit.lastCheck b) ->
  now - Ratelimit.lastCheck b <= 600 * Time.Second ->
  Ratelimit.buckets (Ratelimit.cleanupTick l now) !! key = Some b.
Proof.
  intros Hcleanup Hb Hnow Hlast Hrecent.
  pose proof (Sub_exceeds now (Ratelimit.lastCheck b) (600 * Time.Second) Hnow Hlast
                ltac:(vm_compute; split; [discriminate|reflexivity])) as Hsub.
  unfold Ratelimit.cleanupTick. cbn [Ratelimit.buckets Ratelimit.with_buckets].
  apply map_lookup_filter_Some. split; [exact Hb|].
  cbn. rewrite Hcleanup.
  change (GoInt.mul 2 (GoInt.mul 5 Time.Minute)) with (600 * Time.Second).
  intros Hgone. apply Hsub in Hgone. lia.
Qed.

Lemma cleanupTick_absent (l : Ratelimit.Limiter F) (now : Z) (key : string) :
  Ratelimit.buckets l !! key = None ->
  Ratelimit.buckets (Ratelimit.cleanupTick l now) !! key = None.
Proof.
  intros Hnone. unfold Ratelimit.cleanupTick.
  cbn [Ratelimit.buckets Ratelimit.with_buckets].
  apply map_lookup_filter_None. left. exact Hnone.
Qed.

(** The bucket of [key] was last checked at the reading [last], or there
    is none. *)
Local Abbreviation checked_at l key last :=
  (match last with
   | Some t =>
       GoInt.in_int t
       /\ exists b, Ratelimit.buckets l !! key = Some b /\ Ratelimit.lastCheck b = t
   | None => Ratelimit.buckets l !! key = None
   end).

Lemma handleInTurn_recorded (cfg : Server.Config) (addr : list byte)
    (evs : list Sessions.event) (l : Ratelimit.Limiter F) (last : option Z) :
  Ratelimit.cleanup l = GoInt.mul 5 Time.Minute ->
  checked_at l (IP_String addr) last ->
  Forall (fun env => Server.clientIP env = Some addr) (Sessions.connections evs) ->
  Forall Notions.unserved (snd (handleInTurn cfg (Some l) evs)) ->
  Sessions.ticks_within (600 * Time.Second) last evs ->
  GoInt.int_min <= recorded l (IP_String addr) ->
  recorded l (IP_String addr) + Z.of_nat (length (Sessions.connections evs))
  <= GoInt.int_max ->
  exists l',
    fst (handleInTurn cfg (Some l) evs) = Some l'
    /\ recorded l' (IP_String addr)
       = recorded l (IP_String addr) + Z.of_nat (length (Sessions.connections evs)).
Proof.
  revert l last.
  induction evs as [|[env|now] evs IH]; intros l last Hcleanup Hlast Hfrom Hun Hticks Hlo Hhi.
  - exists l. split; [reflexivity|]. cbn [Sessions.connections length]. lia.
  - cbn [Sessions.connections] in *. apply Forall_cons in Hfrom as [Hip Hfrom].
    cbn [Sessions.handleInTurn Sessions.ticks_within] in *.
    destruct Hticks as [Hnow Hticks].
    pose proof (unserved_limiter cfg l env) as Hkeep.
    destruct (handleConnection cfg (Some l) env) as [l1 out].
    cbn [fst snd] in Hkeep.
    destruct (handleInTurn cfg l1 evs) as [l2 outs] eqn:Hrest.
    cbn [fst snd] in *.
    apply Forall_cons in Hun as [Hout Houts].
    specialize (Hkeep Hout). subst l1. rewrite Hip in Hrest.
    cbn [length] in Hhi. rewrite Nat2Z.inj_succ in Hhi.
    destruct (Allow_recorded l addr (Server.allowNow env) ltac:(lia)) as [Hrec _].
    destruct (IH (fst (Allow l (Some addr) (Server.allowNow env)))
                (Some (Server.allowNow env)))
      as (l' & Hl' & Hcount).
    + rewrite Allow_unfold. exact Hcleanup.
    + split; [exact Hnow|]. rewrite Allow_unfold. cbn [fst].
      cbn [Ratelimit.buckets Ratelimit.with_buckets]. rewrite lookup_insert_eq.
      eexists. split; reflexivity.
    + exact Hfrom.
    + rewrite Hrest. exact Houts.
    + exact Hticks.
    + rewrite Hrec. lia.
    + rewrite Hrec. lia.
    + rewrite Hrest in Hl'. cbn [fst] in Hl'. exists l'. split; [exact Hl'|].
      rewrite Hcount, Hrec. cbn [length]. lia.
  - cbn [Sessions.connections Sessions.handleInTurn Sessions.ticks_within] in *.
    destruct Hticks as (Hnow & Hrecent & Hticks).
    assert (Hsame : Ratelimit.buckets (Ratelimit.cleanupTick l now) !! IP_String addr
                    = Ratelimit.buckets l !! IP_String addr).
    { destruct last as [t|].
      - destruct Hlast as (Ht & b & Hb & Hcheck). rewrite Hb.
        apply cleanupTick_keeps_recent; try assumption; rewrite Hcheck; assumption.
      - rewrite Hlast. apply cleanupTick_absent, Hlast. }
    destruct (IH (Ratelimit.cleanupTick l now) last) as (l' & Hl' & Hcount);
      try assumption.
    + rewrite Hsame. exact Hlast.
    + rewrite Hsame. exact Hlo.
    + rewrite Hsame. exact Hhi.
    + exists l'. split; [exact Hl'|]. rewrite Hcount, Hsame. reflexivity.
Qed.

(** X22: failures add up to a harder challenge: with adaptive difficulty
    enabled, after [k] connections in a row from an address that had no
    bucket, none of which was served, and with every tick of the limiter's
    clean-up coming no more than ten minutes after the connection before
    it, the challenge sent on the next connection from that address asks
    for [AdaptiveDifficulty baseBits (k + 1)]. *)
Theorem unserved_connections_raise_the_difficulty (cfg : Server.Config)
    (l : Ratelimit.Limiter F) (addr : list byte) (evs : list Sessions.event)
    (env : Server.Env) (m : Server.ChallengeMessage) :
  Server.AdaptiveBits cfg = true ->
  Ratelimit.cleanup l = GoInt.mul 5 Time.Minute ->
  Ratelimit.buckets l !! IP_String addr = None ->
  Forall (fun e => Server.clientIP e = Some addr) (env :: Sessions.connections evs) ->
  Forall Notions.unserved (snd (handleInTurn cfg (Some l) evs)) ->
  Sessions.ticks_within (600 * Time.Second) None evs ->
  Z.of_nat (length (Sessions.connections evs)) < GoInt.int_max ->
  In (Server.SentChallenge m)
     (snd (handleConnection cfg (fst (handleInTurn cfg (Some l) evs)) env)) ->
  Pow.Bits (Server.cm_Challenge m)
  = Ratelimit.AdaptiveDifficulty (Server.Bits cfg)
      (Z.of_nat (length (Sessions.connections evs)) + 1).
Proof.
  intros Hadaptive Hcleanup Hnone Hfrom Hun Hticks Hmax Hin.
  apply Forall_cons in Hfrom as [Hip Hfrom].
  destruct (handleInTurn_recorded cfg addr evs l None Hcleanup Hnone Hfrom Hun Hticks)
    as (l' & Hl' & Hcount);
    [rewrite Hnone; unfold GoInt.int_min; lia|rewrite Hnone; lia|].
  rewrite Hnone in Hcount. rewrite Hl' in Hin.
  apply sent_challenge_bits in Hin. rewrite Hin.
  unfold Server.checkRateLimit. rewrite Hip.
  destruct (Allow_recorded l' addr (Server.allowNow env)) as [_ Hn];
    [rewrite Hcount; unfold GoInt.int_min; lia|].
  destruct (Allow l' (Some addr) (Server.allowNow env)) as [l1 [allowed n]].
  cbn [fst snd] in *. subst n. rewrite Hcount.
  unfold Server.effectiveBits. rewrite Hadaptive.
  destruct (Z.gtb_spec (0 + Z.of_nat (length (Sessions.connections evs)) + 1) 0); [|lia].
  cbn [andb]. f_equal; lia.
Qed.

End MoreHandler.

Lemma quote_is_sent_only_for_a_verified_solution_witness :
  exists c nonce,
    snd (fst (Server.checkRateLimit (float64 := IEEE.binary64) Sample.dotted
                (Server.startLimiter Sample.easy_config) Sample.solving_env)) = true
    /\ Pow.Generate (Server.rand Sample.solving_env) (Server.generateNow Sample.solving_env)
         (Server.effectiveBits Sample.easy_config
            (snd (Server.checkRateLimit (float64 := IEEE.binary64) Sample.dotted
                    (Server.startLimiter Sample.easy_config) Sample.solving_env)))
         (Server.ExpiresIn Sample.easy_config) "quote" = Pow.Ok c
    /\ Server.received Sample.solving_env
       = inr {| Server.sm_Type := Server.TypeSolution; Server.sm_Nonce := nonce |}
    /\ Pow.LeadingZeroBits (Pow.digest SHA256.Sum256 (Pow.StringForHash c) nonce)
       >= Server.effectiveBits Sample.easy_config
            (snd (Server.checkRateLimit (float64 := IEEE.binary64) Sample.dotted
                    (Server.startLimiter Sample.easy_config) Sample.solving_env))
    /\ Server.generateNow Sample.solving_env <= Server.verifyNow Sample.solving_env
       <= GoInt.add (Server.generateNow Sample.solving_env)
            (Server.ExpiresIn Sample.easy_config)
    /\ Server.randomQuote Sample.solving_env = inr "wisdom"
    /\ "quote" = Server.TypeQuote.
Proof.
  apply (quote_is_sent_only_for_a_verified_solution (float64 := IEEE.binary64)
           Sample.dotted SHA256.Sum256 Sample.easy_config
           (Server.startLimiter Sample.easy_config) Sample.solving_env
           {| Server.qm_Type := "quote"; Server.qm_Quote := "wisdom" |}).
  vm_compute. right. left. reflexivity.
Defined.

Lemma solved_challenge_is_served_witness :
  snd (Server.handleConnection (float64 := IEEE.binary64) Sample.dotted SHA256.Sum256
         Sample.easy_config (Server.startLimiter Sample.easy_config) Sample.solving_env)
  = [Server.SentChallenge
       {| Server.cm_Type := Server.TypeChallenge;
          Server.cm_Challenge :=
            {| Pow.Ver := "1"; Pow.Alg := "sha256"; Pow.Bits := 4;
               Pow.Ts := 1700000000; Pow.ExpiresIn := 300; Pow.Resource := "quote";
               Pow.Salt := "000102030405060708090a0b0c0d0e0f" |} |};
     Server.SentQuote {| Server.qm_Type := Server.TypeQuote; Server.qm_Quote := "wisdom" |}].
Proof.
  apply (solved_challenge_is_served (float64 := IEEE.binary64) Sample.dotted
           SHA256.Sum256 Sample.easy_config (Server.startLimiter Sample.easy_config)
           Sample.solving_env
           {| Pow.Ver := "1"; Pow.Alg := "sha256"; Pow.Bits := 4;
              Pow.Ts := 1700000000; Pow.ExpiresIn := 300; Pow.Resource := "quote";
              Pow.Salt := "000102030405060708090a0b0c0d0e0f" |}
           100 "1" "wisdom");
    try (vm_compute; reflexivity); vm_compute; split; discriminate.
Defined.

Lemma adaptive_bits_need_the_rate_limiter_witness :
  let cfg := {| Server.Addr := ":8080"; Server.Bits := 20; Server.ExpiresIn := 300;
                Server.RateLimit := 0; Server.AdaptiveBits := true |} in
  In (Server.SentChallenge Sample.issued)
     (snd (Server.handleConnection (float64 := IEEE.binary64) Sample.dotted SHA256.Sum256
             cfg (Server.startLimiter cfg) Sample.env))
  /\ Pow.Bits (Server.cm_Challenge Sample.issued) = 20.
Proof.
  cbv zeta.
  assert (Hin : In (Server.SentChallenge Sample.issued)
                  (snd (Server.handleConnection (float64 := IEEE.binary64) Sample.dotted
                          SHA256.Sum256
                          {| Server.Addr := ":8080"; Server.Bits := 20;
                             Server.ExpiresIn := 300; Server.RateLimit := 0;
                             Server.AdaptiveBits := true |}
                          (Server.startLimiter
                             {| Server.Addr := ":8080"; Server.Bits := 20;
                                Server.ExpiresIn := 300; Server.RateLimit := 0;
                                Server.AdaptiveBits := true |})
                          Sample.env)))
    by (vm_compute; left; reflexivity).
  split; [exact Hin|].
  apply (adaptive_bits_need_the_rate_limiter (float64 := IEEE.binary64) Sample.dotted
           SHA256.Sum256
           {| Server.Addr := ":8080"; Server.Bits := 20; Server.ExpiresIn := 300;
              Server.RateLimit := 0; Server.AdaptiveBits := true |}
           Sample.env Sample.issued);
    [left; cbn; lia|exact Hin].
Defined.

Lemma handler_touches_only_the_clients_bucket_witness :
  exists l',
    fst (Server.handleConnection (float64 := IEEE.binary64) Sample.dotted SHA256.Sum256
           Sample.config (Some (Ratelimit.NewLimiter 5 10)) Sample.env) = Some l'
    /\ Ratelimit.buckets l' !! "10.0.0.1"
       = Ratelimit.buckets
           (Ratelimit.NewLimiter 5 10 : Ratelimit.Limiter SpecFloat.spec_float) !! "10.0.0.1"
    /\ Ratelimit.rate l' = 5
    /\ Ratelimit.capacity l' = 10
    /\ Ratelimit.cleanup l' = GoInt.mul 5 Time.Minute.
Proof.
  apply (handler_touches_only_the_clients_bucket (float64 := IEEE.binary64)
           Sample.dotted SHA256.Sum256 Sample.config (Ratelimit.NewLimiter 5 10)
           Sample.env "10.0.0.1").
  intros addr Hip. injection Hip as <-. vm_compute. discriminate.
Defined.


Lemma unserved_connections_raise_the_difficulty_witness :
  let third :=
    {| Server.cm_Type := "challenge";
       Server.cm_Challenge :=
         {| Pow.Ver := "1"; Pow.Alg := "sha256"; Pow.Bits := 21;
            Pow.Ts := 1700000000; Pow.ExpiresIn := 300; Pow.Resource := "quote";
            Pow.Salt := "000102030405060708090a0b0c0d0e0f" |} |} in
  Pow.Bits (Server.cm_Challenge third) = Ratelimit.AdaptiveDifficulty 20 (2 + 1).
Proof.
  cbv zeta.
  apply (unserved_connections_raise_the_difficulty (float64 := IEEE.binary64)
           Sample.dotted SHA256.Sum256 Sample.config (Ratelimit.NewLimiter 5 10)
           Sample.ip
           [Sessions.Connection (Sample.env_at 1000);
            Sessions.CleanupTick 300000001000;
            Sessions.Connection (Sample.env_at 400000001000);
            Sessions.CleanupTick 900000001000]
           (Sample.env_at 1000000000000)).
  - reflexivity.
  - reflexivity.
  - reflexivity.
  - repeat constructor.
  - vm_compute. repeat constructor; discriminate.
  - vm_compute. repeat split; discriminate.
  - vm_compute. reflexivity.
  - vm_compute. left. reflexivity.
Defined.

(** A tick more than ten minutes after the last connection removes the
    bucket, and the count starts again: the third connection is asked for
    the base difficulty. *)
Example late_tick_restarts_the_count :
  let l := fst (Sessions.handleInTurn (float64 := IEEE.binary64) Sample.dotted
                  SHA256.Sum256 Sample.config (Some (Ratelimit.NewLimiter 5 10))
                  [Sessions.Connection (Sample.env_at 1000);
                   Sessions.Connection (Sample.env_at 2000);
                   Sessions.CleanupTick 600000002001]) in
  In (Server.SentChallenge Sample.issued)
     (snd (Server.handleConnection (float64 := IEEE.binary64) Sample.dotted
             SHA256.Sum256 Sample.config l (Sample.env_at 700000000000)))
  /\ Pow.Bits (Server.cm_Challenge Sample.issued) = 20.
Proof. cbv zeta. split; [vm_compute; left; reflexivity|reflexivity]. Qed.

(** ** The pool of quotes *)

Lemma pool_quotes_not_empty (q : string) : In q Quotes.pool -> q <> "".
Proof.
  unfold Quotes.pool. cbn [In]. intros Hin.
  repeat (destruct Hin as [<-|Hin]; [discriminate|]). destruct Hin.
Qed.

Lemma Random_index (idx : Z) (q : string) :
  Quotes.Random (inr idx) = Quotes.Ok q <->
  0 <= idx < Z.of_nat (length Quotes.pool) /\ Quotes.pool !! Z.to_nat idx = Some q.
Proof.
  unfold Quotes.Random. cbv zeta.
  change (Z.of_nat (length Quotes.pool) =? 0) with false. cbv iota.
  destruct (Z.leb_spec 0 idx), (Z.ltb_spec idx (Z.of_nat (length Quotes.pool)));
    cbn [andb]; try (split; [discriminate|lia]).
  destruct (Quotes.pool !! Z.to_nat idx) as [q'|].
  - split; [intros [= ->]; split; [lia|reflexivity]|intros [_ [= ->]]; reflexivity].
  - split; [discriminate|intros [_ Hq]; discriminate Hq].
Qed.

(** X23: [Random] draws from the pool: on every index that [rand.Int]
    can draw it returns the quote at that index and never fails; whatever
    it returns as a quote is one of the ten quotes of the pool and is not
    empty; every quote of the pool is returned for some index; and the
    empty-pool error is never returned. *)
Theorem Random_draws_from_the_pool :
  (forall idx, 0 <= idx < Z.of_nat (length Quotes.pool) ->
     exists q, Quotes.Random (inr idx) = Quotes.Ok q
               /\ Quotes.pool !! Z.to_nat idx = Some q)
  /\ (forall rand q, Quotes.Random rand = Quotes.Ok q -> In q Quotes.pool /\ q <> "")
  /\ (forall q, In q Quotes.pool ->
        exists idx, 0 <= idx < Z.of_nat (length Quotes.pool)
                    /\ Quotes.Random (inr idx) = Quotes.Ok q)
  /\ (forall rand, Quotes.Random rand <> Quotes.Err "quote pool is empty").
Proof.
  split; [|split; [|split]].
  - intros idx Hidx.
    destruct (Quotes.pool !! Z.to_nat idx) as [q|] eqn:Hq.
    + exists q. split; [apply Random_index; split; assumption|reflexivity].
    + apply lookup_ge_None in Hq. lia.
  - intros [err|idx] q Hq; [discriminate Hq|].
    apply Random_index in Hq as [_ Hq].
    assert (Hin : In q Quotes.pool)
      by (apply list_elem_of_In, (list_elem_of_lookup_2 _ _ _ Hq)).
    split; [exact Hin|apply pool_quotes_not_empty, Hin].
  - intros q Hin. apply list_elem_of_In, list_elem_of_lookup_1 in Hin as [i Hi].
    pose proof (lookup_lt_Some _ _ _ Hi) as Hlt.
    exists (Z.of_nat i). split; [lia|].
    apply Random_index. rewrite Nat2Z.id. split; [lia|exact Hi].
  - intros [err|idx]; unfold Quotes.Random; cbv zeta;
      change (Z.of_nat (length Quotes.pool) =? 0) with false; cbv iota.
    + cbv [String.append]. discriminate.
    + destruct ((0 <=? idx) && (idx <? Z.of_nat (length Quotes.pool)));
        [destruct (Quotes.pool !! Z.to_nat idx)|]; discriminate.
Qed.

(** ** The server as [main] configures it *)

Section ConfiguredServer.

Context {F : Type} {float64 : Float64 F}.
Variable IP_String : list byte -> string.
Variable Sum256 : list byte -> list byte.

Local Abbreviation handleConnection := (Server.handleConnection IP_String Sum256).

(** X24: every quote served is a quote of the pool: when the quote the
    handler obtains is what [quotes.Random] returns, any quote message it
    sends carries one of the ten quotes of the pool. *)
Theorem served_quote_is_from_the_pool (cfg : Server.Config)
    (limiter : option (Ratelimit.Limiter F)) (env : Server.Env)
    (rand : string + Z) (m : Server.QuoteMessage) :
  Server.randomQuote env
  = match Quotes.Random rand with
    | Quotes.Ok quote => inr quote
    | Quotes.Err msg => inl msg
    | Quotes.Panic => inl "panic"
    end ->
  In (Server.SentQuote m) (snd (handleConnection cfg limiter env)) ->
  In (Server.qm_Quote m) Quotes.pool.
Proof.
  intros Hquote. unfold Server.handleConnection.
  destruct (Server.checkRateLimit IP_String limiter env) as [[l1 allowed] attempts].
  destruct allowed; cbn [negb]; [|cbn; intros [Hs|[]]; discriminate Hs].
  destruct (Server.setDeadlineOk env); cbn [negb]; [|intros []].
  destruct (Pow.Generate _ _ _ _ _) as [c|e];
    [|cbn; intros [Hs|[]]; discriminate Hs].
  destruct (Server.sendChallengeOk env); cbn [negb]; [|intros []].
  destruct (Server.received env) as [err|solutionMsg];
    [cbn; intros [Hs|[Hs|[]]]; discriminate Hs|].
  destruct (String.eqb _ _); cbn [negb];
    [|cbn; intros [Hs|[Hs|[]]]; discriminate Hs].
  destruct (Pow.Verify _ _ _ _ _) as [err|];
    [cbn; intros [Hs|[Hs|[]]]; discriminate Hs|].
  rewrite Hquote.
  destruct (Quotes.Random rand) as [quote|msg|] eqn:Hrandom;
    try (cbn; intros [Hs|[Hs|[]]]; discriminate Hs).
  destruct (Server.sendQuoteOk env); [|cbn; intros [Hs|[]]; discriminate Hs].
  cbn. intros [Hs|[Hs|[]]]; [discriminate Hs|]. injection Hs as <-. change (In quote Quotes.pool).
  destruct rand as [err|idx]; [discriminate Hrandom|].
  apply Random_index in Hrandom as [_ Hq].
  apply list_elem_of_In, (list_elem_of_lookup_2 _ _ _ Hq).
Qed.

Variable Getenv : string -> string.
Variable Atoi : string -> option Z.
Variable ParseBool : string -> option bool.

Local Abbreviation cfg := (Main.cfg Getenv Atoi ParseBool).

(** X25: without [WOW_RATE_LIMIT] there is no adaptive difficulty: when
    the variable is unset, empty, or not a number, [main] configures a
    rate of 0, [Start] creates no limiter, and every challenge asks for
    the difficulty of [WOW_BITS] (22 when that is unset or not a number),
    even with [WOW_ADAPTIVE_BITS] set. *)
Theorem unset_rate_limit_disables_adaptive_difficulty (env : Server.Env)
    (m : Server.ChallengeMessage) :
  Getenv "WOW_RATE_LIMIT" = "" \/ Atoi (Getenv "WOW_RATE_LIMIT") = None ->
  In (Server.SentChallenge m) (snd (handleConnection cfg (Server.startLimiter cfg) env)) ->
  Server.RateLimit cfg = 0
  /\ Server.startLimiter (F := F) cfg = None
  /\ Pow.Bits (Server.cm_Challenge m) = Main.getEnvInt Getenv Atoi "WOW_BITS" 22.
Proof.
  intros Hunset Hin.
  assert (Hrate : Server.RateLimit cfg = 0).
  { cbn [Main.cfg Server.RateLimit]. unfold Main.getEnvInt.
    destruct Hunset as [-> | ->]; [reflexivity|].
    destruct (negb _); reflexivity. }
  split; [exact Hrate|]. split.
  - unfold Server.startLimiter. rewrite Hrate. reflexivity.
  - apply sent_challenge_bits in Hin. rewrite Hin.
    rewrite checkRateLimit_untracked by (left; rewrite Hrate; lia).
    cbn [snd]. apply effectiveBits_no_attempts.
Qed.

End ConfiguredServer.

(** ** The client *)

Section ClientProperties.

Variable Sum256 : list byte -> list byte.

Local Abbreviation worker := (Client.worker Sum256).
Local Abbreviation meets c s n :=
  (Pow.LeadingZeroBits (Pow.digest Sum256 s (Pow.Itoa n)) >= Pow.Bits c).

(** A nonce a worker offers meets the difficulty. *)
Lemma worker_meets_bits (c : Pow.Challenge) (s : string) (step : Z) (fuel : nat)
    (start : Z) (nonce : string) :
  worker c s step fuel start = Some nonce ->
  Pow.LeadingZeroBits (Pow.digest Sum256 s nonce) >= Pow.Bits c.
Proof.
  revert start. induction fuel as [|fuel IH]; intros start; cbn [Client.worker];
    [discriminate|].
  cbv zeta.
  destruct (Z.geb_spec (Pow.LeadingZeroBits (Pow.digest Sum256 s (Pow.Itoa start)))
              (Pow.Bits c)) as [Hok|Hno].
  - intros [= <-]. lia.
  - apply IH.
Qed.

(** What a worker that runs [fuel] iterations returns: the first counter
    of its progression [start, start + step, ...] that meets the
    difficulty, or nothing when none of the counters it tried does. *)
Lemma worker_first (c : Pow.Challenge) (s : string) (step : Z) (fuel : nat)
    (start : Z) :
  GoInt.int_min <= start -> 0 < step ->
  start + (Z.of_nat fuel - 1) * step <= GoInt.int_max ->
  match worker c s step fuel start with
  | Some nonce =>
      exists k, 0 <= k < Z.of_nat fuel /\ nonce = Pow.Itoa (start + k * step)
        /\ meets c s (start + k * step)
        /\ forall j, 0 <= j < k -> ~ meets c s (start + j * step)
  | None => forall j, 0 <= j < Z.of_nat fuel -> ~ meets c s (start + j * step)
  end.
Proof.
  intros Hlo Hstep. revert start Hlo.
  induction fuel as [|fuel IH]; intros start Hlo Hhi; cbn [Client.worker].
  - intros j Hj. lia.
  - cbv zeta.
    destruct (Z.geb_spec (Pow.LeadingZeroBits (Pow.digest Sum256 s (Pow.Itoa start)))
                (Pow.Bits c)) as [Hok|Hno].
    + exists 0. rewrite Z.mul_0_l, Z.add_0_r.
      split; [lia|]. split; [reflexivity|]. split; [lia|]. intros j Hj. lia.
    + destruct fuel as [|fuel].
      { cbn [Client.worker]. intros j Hj.
        assert (Hj0 : j = 0) by lia. subst j. rewrite Z.mul_0_l, Z.add_0_r. lia. }
      assert (Hnext : GoInt.add start step = start + step).
      { apply add_no_overflow. unfold GoInt.in_int, GoInt.int_min, GoInt.int_max in *.
        rewrite !Nat2Z.inj_succ in Hhi. nia. }
      rewrite Hnext.
      specialize (IH (start + step) ltac:(lia)).
      assert (Hhi' : start + step + (Z.of_nat (S fuel) - 1) * step <= GoInt.int_max).
      { rewrite !Nat2Z.inj_succ in *. nia. }
      specialize (IH Hhi').
      destruct (worker c s step (S fuel) (start + step)) as [nonce|].
      * destruct IH as (k & Hk & Hnonce & Hbits & Hbefore).
        assert (Hshift : forall i, start + step + i * step = start + (i + 1) * step)
          by (intros i; ring).
        exists (k + 1). rewrite <- Hshift.
        split; [rewrite (Nat2Z.inj_succ (S fuel)); lia|].
        split; [exact Hnonce|]. split; [exact Hbits|].
        intros j Hj. destruct (Z.eq_dec j 0) as [->|Hj0].
        -- rewrite Z.mul_0_l, Z.add_0_r. lia.
        -- replace j with (j - 1 + 1) by lia. rewrite <- Hshift. apply Hbefore. lia.
      * intros j Hj. destruct (Z.eq_dec j 0) as [->|Hj0].
        -- rewrite Z.mul_0_l, Z.add_0_r. lia.
        -- replace j with (j - 1 + 1) by lia.
           replace (start + (j - 1 + 1) * step) with (start + step + (j - 1) * step)
             by ring.
           apply IH. rewrite (Nat2Z.inj_succ (S fuel)) in Hj. lia.
Qed.

(** X26: the parallel solver's nonce is accepted: whatever nonce
    [solveParallel] returns for a challenge, [Verify] accepts it for the
    challenge's resource at every time inside the challenge's window. *)
Theorem solveParallel_nonce_passes_Verify (numCPU : Z) (c : Pow.Challenge)
    (nonce : string) (now : Z) :
  Client.solveParallel Sum256 numCPU c (inr nonce) ->
  Pow.Ts c <= now <= GoInt.add (Pow.Ts c) (Pow.ExpiresIn c) ->
  Pow.Verify Sum256 now c nonce (Pow.Resource c) = None.
Proof.
  intros Hsolved Hwindow. inversion Hsolved as [id fuel nonce' Hid Hworker Heq|].
  subst nonce'. apply Verify_accepts; [exact Hwindow|].
  apply (worker_meets_bits _ _ _ _ _ _ Hworker).
Qed.

(** X27: each worker searches its own residue class in order: a worker
    started at [id] with [n] workers that is given [fuel] iterations
    returns the decimal form of the first of [id, id + n, id + 2n, ...]
    that meets the difficulty, and returns nothing exactly when none of
    the [fuel] counters it tried does. *)
Theorem worker_returns_first_of_its_class (c : Pow.Challenge) (numCPU id : Z)
    (fuel : nat) :
  let n := Client.numWorkers numCPU in
  0 <= id < n ->
  id + (Z.of_nat fuel - 1) * n <= GoInt.int_max ->
  match worker c (Pow.StringForHash c) n fuel id with
  | Some nonce =>
      exists k, 0 <= k < Z.of_nat fuel /\ nonce = Pow.Itoa (id + k * n)
        /\ (id + k * n) mod n = id
        /\ meets c (Pow.StringForHash c) (id + k * n)
        /\ forall j, 0 <= j < k -> ~ meets c (Pow.StringForHash c) (id + j * n)
  | None =>
      forall j, 0 <= j < Z.of_nat fuel -> ~ meets c (Pow.StringForHash c) (id + j * n)
  end.
Proof.
  intros n Hid Hhi.
  assert (Hn : 0 < n) by (unfold n, Client.numWorkers; destruct (Z.ltb_spec numCPU 1); lia).
  pose proof (worker_first c (Pow.StringForHash c) n fuel id
                ltac:(unfold GoInt.int_min; lia) Hn Hhi) as Hfirst.
  destruct (worker c (Pow.StringForHash c) n fuel id) as [nonce|]; [|exact Hfirst].
  destruct Hfirst as (k & Hk & Hnonce & Hbits & Hbefore).
  exists k. split; [exact Hk|]. split; [exact Hnonce|].
  split; [|split; assumption].
  rewrite Z.mod_add by lia. apply Z.mod_small. lia.
Qed.

(** X28: the parallel search agrees with [Solve]: when [Solve] finds a
    nonce, it is the decimal form of a counter [n] such that the worker
    whose class holds [n] offers exactly that nonce once it runs
    [n / numWorkers + 1] iterations, so [solveParallel] may return it, and
    no worker ever offers a smaller counter. *)
Theorem solveParallel_agrees_with_Solve (numCPU : Z) (c : Pow.Challenge)
    (maxIterations : Z) (nonce : string) :
  GoInt.in_int maxIterations ->
  Pow.Solve Sum256 c maxIterations = Pow.Ok nonce ->
  let N := Client.numWorkers numCPU in
  exists n,
    0 <= n < maxIterations /\ nonce = Pow.Itoa n
    /\ worker c (Pow.StringForHash c) N (S (Z.to_nat (n / N))) (n mod N) = Some nonce
    /\ Client.solveParallel Sum256 numCPU c (inr nonce)
    /\ forall id fuel nonce',
         0 <= id < N -> id + (Z.of_nat fuel - 1) * N <= GoInt.int_max ->
         worker c (Pow.StringForHash c) N fuel id = Some nonce' ->
         exists m, nonce' = Pow.Itoa m /\ n <= m.
Proof.
  intros Hmax Hsolve N.
  assert (HN : 0 < N) by (unfold N, Client.numWorkers; destruct (Z.ltb_spec numCPU 1); lia).
  unfold Pow.Solve in Hsolve.
  pose proof (Solve_loop_first Sum256 c (Pow.StringForHash c) maxIterations
                (Z.to_nat maxIterations) 0 ltac:(lia) Hmax) as Hloop.
  rewrite Z.sub_0_r in Hloop. specialize (Hloop ltac:(lia)).
  destruct (Pow.Solve_loop Sum256 c (Pow.StringForHash c) maxIterations
              (Z.to_nat maxIterations) 0) as [nonce0|]; [|discriminate Hsolve].
  injection Hsolve as ->.
  destruct Hloop as (n & Hn & Hnonce & Hbits & Hleast).
  assert (Hsplit : n mod N + n / N * N = n)
    by (rewrite (Z.div_mod n N) at 3 by lia; ring).
  assert (Hid : 0 <= n mod N < N) by (apply Z.mod_pos_bound; lia).
  assert (Hq : 0 <= n / N) by (apply Z.div_pos; lia).
  assert (Hworker : worker c (Pow.StringForHash c) N (S (Z.to_nat (n / N))) (n mod N)
                    = Some nonce).
  { pose proof (worker_first c (Pow.StringForHash c) N (S (Z.to_nat (n / N))) (n mod N)
                  ltac:(unfold GoInt.int_min; lia) HN) as Hfirst.
    rewrite Nat2Z.inj_succ, Z2Nat.id in Hfirst by exact Hq.
    specialize (Hfirst ltac:(destruct Hmax; unfold GoInt.int_max in *; nia)).
    destruct (worker c (Pow.StringForHash c) N (S (Z.to_nat (n / N))) (n mod N))
      as [nonce'|].
    - destruct Hfirst as (k & Hk & Hnonce' & Hbits' & _).
      assert (Hsame : n mod N + k * N = n).
      { destruct (Z_lt_le_dec (n mod N + k * N) n) as [Hlt|Hge].
        - specialize (Hleast (n mod N + k * N) ltac:(nia)). lia.
        - nia. }
      rewrite Hsame in Hnonce'. congruence.
    - specialize (Hfirst (n / N) ltac:(lia)). rewrite Hsplit in Hfirst. lia. }
  exists n. split; [exact Hn|]. split; [exact Hnonce|]. split; [exact Hworker|].
  split.
  - apply (Client.solved Sum256 numCPU c (n mod N) (S (Z.to_nat (n / N))) nonce Hid Hworker).
  - intros id fuel nonce' Hid' Hhi Hfound.
    pose proof (worker_first c (Pow.StringForHash c) N fuel id
                  ltac:(unfold GoInt.int_min; lia) HN Hhi) as Hfirst.
    rewrite Hfound in Hfirst. destruct Hfirst as (k & Hk & Hnonce' & Hbits' & _).
    exists (id + k * N). split; [exact Hnonce'|].
    destruct (Z_lt_le_dec (id + k * N) n) as [Hlt|Hge]; [|exact Hge].
    specialize (Hleast (id + k * N) ltac:(nia)). lia.
Qed.

End ClientProperties.

(** ** A client and the handler on one connection *)

Section Session.

Context {F : Type} {float64 : Float64 F}.
Variable IP_String : list byte -> string.
Variable Sum256 : list byte -> list byte.

Local Abbreviation handleConnection := (Server.handleConnection IP_String Sum256).
Local Abbreviation checkRateLimit := (Server.checkRateLimit IP_String).


(** [utf8.RuneCountInString], for the client's printing. *)
Variable RuneCountInString : string -> Z.

Local Abbreviation run := (Client.run RuneCountInString).






End Session.

Lemma served_quote_is_from_the_pool_witness :
  In "The journey of a thousand miles begins with one step. – Lao Tzu" Quotes.pool.
Proof.
  apply (served_quote_is_from_the_pool (float64 := IEEE.binary64) Sample.dotted
           SHA256.Sum256 Sample.easy_config (Server.startLimiter Sample.easy_config)
           SampleSession.quoting_env SampleSession.drawn
           {| Server.qm_Type := "quote";
              Server.qm_Quote :=
                "The journey of a thousand miles begins with one step. – Lao Tzu" |}).
  - reflexivity.
  - vm_compute. right. left. reflexivity.
Defined.

Lemma unset_rate_limit_disables_adaptive_difficulty_witness :
  let cfg := Main.cfg SampleSession.getenv SampleSession.atoi SampleSession.parseBool in
  Server.AdaptiveBits cfg = true
  /\ Server.RateLimit cfg = 0
  /\ Server.startLimiter (F := SpecFloat.spec_float) cfg = None
  /\ 4 = Main.getEnvInt SampleSession.getenv SampleSession.atoi "WOW_BITS" 22.
Proof.
  cbv zeta. split; [reflexivity|].
  apply (unset_rate_limit_disables_adaptive_difficulty (float64 := IEEE.binary64)
           Sample.dotted SHA256.Sum256 SampleSession.getenv SampleSession.atoi
           SampleSession.parseBool Sample.solving_env
           {| Server.cm_Type := "challenge";
              Server.cm_Challenge :=
                {| Pow.Ver := "1"; Pow.Alg := "sha256"; Pow.Bits := 4;
                   Pow.Ts := 1700000000; Pow.ExpiresIn := 60; Pow.Resource := "quote";
                   Pow.Salt := "000102030405060708090a0b0c0d0e0f" |} |}).
  - left. reflexivity.
  - vm_compute. left. reflexivity.
Defined.

Lemma solveParallel_nonce_passes_Verify_witness :
  Pow.Verify SHA256.Sum256 1700000001 SampleSession.challenge "1" "quote" = None.
Proof.
  apply (solveParallel_nonce_passes_Verify SHA256.Sum256 4 SampleSession.challenge
           "1" 1700000001).
  - apply (Client.solved SHA256.Sum256 4 SampleSession.challenge 1 1 "1").
    + vm_compute. split; [discriminate|reflexivity].
    + vm_compute. reflexivity.
  - vm_compute. split; discriminate.
Defined.

Lemma worker_returns_first_of_its_class_witness :
  exists k, 0 <= k < 1 /\ "1"%string = Pow.Itoa (1 + k * Client.numWorkers 4).
Proof.
  assert (Hid : 0 <= 1 < Client.numWorkers 4)
    by (vm_compute; split; [discriminate|reflexivity]).
  assert (Hhi : 1 + (Z.of_nat 1 - 1) * Client.numWorkers 4 <= GoInt.int_max)
    by (vm_compute; discriminate).
  pose proof (worker_returns_first_of_its_class SHA256.Sum256 SampleSession.challenge
                4 1 1 Hid Hhi) as Hfirst.
  assert (Hworker : Client.worker SHA256.Sum256 SampleSession.challenge
                      (Pow.StringForHash SampleSession.challenge)
                      (Client.numWorkers 4) 1 1 = Some "1")
    by (vm_compute; reflexivity).
  rewrite Hworker in Hfirst. destruct Hfirst as (k & Hk & Hnonce & _).
  exists k. split; [exact Hk|exact Hnonce].
Defined.

Lemma solveParallel_agrees_with_Solve_witness :
  Client.solveParallel SHA256.Sum256 4 SampleSession.challenge (inr "1").
Proof.
  assert (Hmax : GoInt.in_int 100) by (vm_compute; split; discriminate).
  assert (Hsolve : Pow.Solve SHA256.Sum256 SampleSession.challenge 100 = Pow.Ok "1")
    by (vm_compute; reflexivity).
  destruct (solveParallel_agrees_with_Solve SHA256.Sum256 4 SampleSession.challenge
              100 "1" Hmax Hsolve) as (n & _ & _ & _ & Hparallel & _).
  exact Hparallel.
Defined.



(** The quotes of the pool that the client's frame shows whole: the first
    three; the other seven have more than 66 bytes and are cut. *)
Example pool_quotes_shown_whole :
  map (fun q => Z.of_nat (String.length q) <=? 66) Quotes.pool
  = [true; true; true; false; false; false; false; false; false; false].
Proof. vm_compute. reflexivity. Qed.
